(** * Three-tier seat lottery (client/src/core/lottery.ts)

    A shallow embedding of the seat-lottery engine and the proofs of its
    specification, followed by the part of the hook [useLottery] that
    runs the engine and keeps the locked seats.

    Numbers.  A JavaScript number is an IEEE double.  Every finite double
    is a rational, so scores, coordinates and random draws are values of
    [Q]; the arithmetic on them is the exact one (no rounding, no NaN, no
    infinity), and a decimal literal such as 0.2 is the rational it
    writes.  Numbers that the engine uses as counts or grid coordinates
    (party size, row, col, lengths, array indices) are values of [Z]; an
    integer is printed in decimal, and the limit of 2^32 - 1 on array
    indices is not modelled.  [Math.sqrt] leaves the exact rationals and
    is a variable of the section; [Math.random] is the stream of its
    successive results.
    Where a result depends on whether two computed scores
    are equal (the choice of the group allocator among its candidates),
    the function is also given over an arbitrary arithmetic
    ([findAndAllocateSeatsIn]), and the choice is proved there.

    Objects.  A record stands for one object.  The engine compares
    applications by identity in one place ([indexOf] in the hybrid
    selection); the applications of a run are taken to be distinct
    objects, as the caller builds them.  Where the engine writes through
    a shared object (the quality labels), the write is made at the index
    of the object in the array that owns it.

    Exceptions.  The only exception the engine can raise is the TypeError
    of a property read on [undefined]; a function that can raise it
    returns a [completion]. *)

From Stdlib Require Import QArith Qminmax Qround Lia Lqa Ascii String Sorted.
From stdpp Require Import gmap strings list fin_maps pretty.

Local Open Scope Z_scope.

(** ** Completions: a value, or a TypeError *)

Inductive completion (A : Type) : Type :=
  | Normal (a : A)
  | TypeError.
Arguments Normal {A} a.
Arguments TypeError {A}.

Definition cbind {A B} (c : completion A) (k : A → completion B) : completion B :=
  match c with
  | Normal a => k a
  | TypeError => TypeError
  end.

Notation "x ←! c ; k" := (cbind c (fun x => k))
  (at level 20, c at level 100, k at level 200, right associativity,
   format "'[' x  ←!  c ;  '/' k ']'").

Fixpoint cmapM {A B} (f : A → completion B) (l : list A) : completion (list B) :=
  match l with
  | [] => Normal []
  | a :: l' => (b ←! f a; bs ←! cmapM f l'; Normal (b :: bs))
  end.

(** ** The parts of the JavaScript library the engine calls *)

Module JS.

(** [Array.prototype.slice(start, end)]: a negative bound counts from
    the end of the array, and both bounds are clamped to the array. *)
Definition relIndex (len k : Z) : Z :=
  if k <? 0 then Z.max (len + k) 0 else Z.min k len.

Definition slice {A} (l : list A) (start end_ : Z) : list A :=
  let len := Z.of_nat (length l) in
  let k := relIndex len start in
  let final := relIndex len end_ in
  take (Z.to_nat (Z.max (final - k) 0)) (drop (Z.to_nat k) l).

(** [Array.prototype.sort(compareFn)] is stable.  [before a b] stands
    for [compareFn(a, b) <= 0]; an element is inserted in front of the
    first element that it does not have to follow, which keeps equal
    elements in their original order. *)
Fixpoint insert {A} (before : A → A → bool) (x : A) (l : list A) : list A :=
  match l with
  | [] => [x]
  | y :: l' => if before x y then x :: y :: l' else y :: insert before x l'
  end.

Definition sort {A} (before : A → A → bool) (l : list A) : list A :=
  foldr (insert before) [] l.

(** [Math.max(...l, last)] with at least the argument [last]. *)
Definition max_with (l : list Q) (last : Q) : Q :=
  fold_right Qmax last l.

(** [String.prototype.split(sep)] for a separator of one character. *)
Fixpoint split_go (sep : ascii) (cur : string) (s : string) : list string :=
  match s with
  | EmptyString => [String.rev cur]
  | String c s' =>
      if Ascii.eqb c sep then String.rev cur :: split_go sep EmptyString s'
      else split_go sep (String c cur) s'
  end.

Definition split (sep : ascii) (s : string) : list string :=
  split_go sep EmptyString s.

(** [parseInt(s, 10)]: leading white space, an optional sign, then the
    longest run of decimal digits; [None] is NaN. *)
Definition is_space (c : ascii) : bool :=
  let n := nat_of_ascii c in
  ((n =? 32) || (n =? 9) || (n =? 10) || (n =? 11) || (n =? 12) || (n =? 13))%nat.

Definition digit_of (c : ascii) : option Z :=
  let n := Z.of_nat (nat_of_ascii c) in
  if (48 <=? n) && (n <=? 57) then Some (n - 48) else None.

Fixpoint skip_space (s : string) : string :=
  match s with
  | String c s' => if is_space c then skip_space s' else s
  | EmptyString => EmptyString
  end.

Fixpoint digits (acc : option Z) (s : string) : option Z :=
  match s with
  | String c s' =>
      match digit_of c with
      | Some d => digits (Some (10 * default 0 acc + d)) s'
      | None => acc
      end
  | EmptyString => acc
  end.

Definition parseInt (s : string) : option Z :=
  match skip_space s with
  | String "-"%char s' => Z.opp <$> digits None s'
  | String "+"%char s' => digits None s'
  | s' => digits None s'
  end.

(** An array whose elements are written by index.  A write at or past
    [length] extends the array and leaves holes; a write at a negative
    index sets a property and leaves [length] alone; a hole, a property
    never written and an element set to [undefined] all read as
    [undefined], which is [None]. *)
Record array (A : Type) := Array { items : gmap Z A; alength : Z }.
Arguments Array {A} items alength.
Arguments items {A} a.
Arguments alength {A} a.

Definition of_list {A} (l : list A) : array A :=
  Array (map_seqZ 0 l) (Z.of_nat (length l)).

Definition get {A} (a : array A) (k : Z) : option A := items a !! k.

Definition set {A} (a : array A) (k : Z) (v : option A) : array A :=
  Array (match v with
         | Some x => <[k := x]> (items a)
         | None => delete k (items a)
         end)
        (if (0 <=? k) && (alength a <=? k) then k + 1 else alength a).

(** [[a[i], a[j]] = [a[j], a[i]]] *)
Definition swap {A} (a : array A) (i j : Z) : array A :=
  let right := (get a j, get a i) in
  set (set a i right.1) j right.2.

(** The elements a [for ... of] loop visits. *)
Definition elems {A} (a : array A) : list (option A) :=
  (fun k => get a k) <$> seqZ 0 (alength a).

(** A template literal prints an integer in decimal. *)
Definition number_to_string (n : Z) : string := pretty n.

End JS.

(** ** Data model *)

Inductive LastResult := win | lose.
Inductive SeatQuality := top | good | normal | back | far.
Inductive Tier := Tier1 | Tier2 | Tier3.

Global Instance LastResult_eq_dec : EqDecision LastResult.
Proof. solve_decision. Defined.
Global Instance SeatQuality_eq_dec : EqDecision SeatQuality.
Proof. solve_decision. Defined.
Global Instance Tier_eq_dec : EqDecision Tier.
Proof. solve_decision. Defined.

Record Seat := {
  seat_id : string;
  seat_x : Q;
  seat_y : Q;
  isPremium : bool;
  isDisabled : bool;
  row : option Z;
  col : option Z;
  blockId : option string;
}.

Record Application := {
  app_id : string;
  groupSize : Z;
  isInvitation : bool;
  isRelation : bool;
  pastScore : Q;
  lastResult : option LastResult;
  memberId : option string;
  name : option string;
  address : option string;
  tags : option (list string);
}.

Record Point := { px : Q; py : Q }.

(** [randomFn] is a function with a state of its own; the stream gives
    the result of its first, second, ... call. *)
Record LotteryConfig := {
  stagePosition : Point;
  skillWeight : option Q;
  randomFn : option (nat → Q);
}.

Record SeatWithScore := {
  seat :> Seat;
  score : Q;
  distanceFromStage : Q;
}.

Record Assignment := {
  applicationId : string;
  seatIds : list string;
  totalScore : Q;
  tier : Tier;
  seatQuality : option SeatQuality;
}.

Record Stats := {
  totalSeats : Z;
  availableSeats : Z;
  totalApplications : Z;
  totalPeopleAssigned : Z;
  averageScore : Q;
  tier1Count : Z;
  tier2Count : Z;
  tier3Count : Z;
  tier2OverflowCount : Z;
}.

Record LotteryResult := {
  assignments : list Assignment;
  unassigned : list string;
  stats : Stats;
}.

(** [row] of a chunk comes out of [parseInt]: [None] is NaN. *)
Record SeatChunk := {
  seats : list SeatWithScore;
  avgScore : Q;
  chunk_blockId : string;
  chunk_row : option Z;
  startCol : Z;
}.

Inductive LoseLabel := Quality (q : SeatQuality) | Lose.

Record ScoreUpdate := {
  su_applicationId : string;
  currentScore : Q;
  nextScore : Q;
  change : Q;
  su_seatQuality : LoseLabel;
  su_lastResult : LastResult;
}.

Definition length_Z {A} (l : list A) : Z := Z.of_nat (length l).

(** [l.reduce((sum, s) => sum + f(s), 0)] *)
Definition sum_of {A} (f : A → Q) (l : list A) : Q :=
  fold_left (fun sum s => (sum + f s)%Q) l 0%Q.

(** [l.reduce((sum, s) => sum + s.score, 0) / l.length] *)
Definition mean_score (l : list SeatWithScore) : Q :=
  (sum_of score l / inject_Z (length_Z l))%Q.

(** [s.col ?? 0] and [s.row ?? 0] *)
Definition col0 (s : Seat) : Z := default 0 (col s).
Definition row0 (s : Seat) : Z := default 0 (row s).

(** What the engine takes from [Math]: [Math.sqrt], and the successive
    results of [Math.random]. *)
Class MathLibrary := {
  Math_sqrt : Q → Q;
  Math_random : nat → Q;
}.

Section Lottery.

Context {math : MathLibrary}.

(** ** Geometry scorer *)

Definition calculateDistance (x1 y1 x2 y2 : Q) : Q :=
  Math_sqrt ((x2 - x1) ^ 2 + (y2 - y1) ^ 2)%Q.

Definition calculateSeatScore (s : Seat) (stage : Point) (maxDistance : Q)
  : SeatWithScore :=
  let distance := calculateDistance (seat_x s) (seat_y s) (px stage) (py stage) in
  let distanceScore := Qmax 0 (100 - (distance / maxDistance) * 100)%Q in
  let premiumBonus := if isPremium s then 1000%Q else 0%Q in
  {| seat := s;
     score := (distanceScore + premiumBonus)%Q;
     distanceFromStage := distance |}.

(** ** Run builder *)

(** The key of the [grouped] map: [`${blockId ?? 'default'}_${row ?? 0}`]. *)
Definition groupKey (s : Seat) : string :=
  default "default" (blockId s) +:+ "_" +:+ JS.number_to_string (row0 s).

(** [if (!grouped.has(key)) grouped.set(key, []); grouped.get(key).push(seat)]
    on a [Map], which keeps its keys in the order of their first insertion. *)
Fixpoint grouped_push (key : string) (s : SeatWithScore)
    (grouped : list (string * list SeatWithScore))
  : list (string * list SeatWithScore) :=
  match grouped with
  | [] => [(key, [s])]
  | (k, l) :: rest =>
      if String.eqb k key then (k, l ++ [s]) :: rest
      else (k, l) :: grouped_push key s rest
  end.

Definition groupSeats (l : list SeatWithScore) : list (string * list SeatWithScore) :=
  fold_left (fun grouped (s : SeatWithScore) => grouped_push (groupKey s) s grouped) l [].

(** The inner loop of [buildAllChunks] over the sorted seats of one key.
    [cur] is [rowSeats.slice(chunkStart, i)] and [prev] is
    [rowSeats[i - 1]]; the chunk is closed at the end of the row and
    wherever the next column is not the previous one plus 1. *)
Fixpoint cutRuns (cur : list SeatWithScore) (prev : SeatWithScore)
    (rest : list SeatWithScore) : list (list SeatWithScore) :=
  match rest with
  | [] => [cur]
  | s :: rest' =>
      if col0 s =? col0 prev + 1 then cutRuns (cur ++ [s]) s rest'
      else cur :: cutRuns [s] s rest'
  end.

Definition rowRuns (rowSeats : list SeatWithScore) : list (list SeatWithScore) :=
  match rowSeats with
  | [] => []
  | s :: rest => cutRuns [s] s rest
  end.

Definition mkChunk (blk : string) (r : option Z) (chunkSeats : list SeatWithScore)
  : SeatChunk :=
  {| seats := chunkSeats;
     avgScore := mean_score chunkSeats;
     chunk_blockId := blk;
     chunk_row := r;
     startCol := from_option (fun s : SeatWithScore => col0 s) 0 (head chunkSeats) |}.

Definition chunksOfGroup (entry : string * list SeatWithScore) : list SeatChunk :=
  let '(key, rowSeats) := entry in
  let parts := JS.split "_"%char key in
  let blk := default EmptyString (parts !! 0%nat) in
  let r := parts !! 1%nat ≫= JS.parseInt in
  let sorted := JS.sort (fun a b : SeatWithScore => col0 a - col0 b <=? 0) rowSeats in
  mkChunk blk r <$> rowRuns sorted.

Definition buildAllChunks (l : list SeatWithScore) : list SeatChunk :=
  mjoin (chunksOfGroup <$> groupSeats l).

(** [subSeats[0].col] raises a TypeError when the slice is empty. *)
Definition subChunkAt (chunk : SeatChunk) (size : Z) (i : Z) : completion SeatChunk :=
  let subSeats := JS.slice (seats chunk) i (i + size) in
  match subSeats with
  | [] => TypeError
  | s0 :: _ =>
      Normal {| seats := subSeats;
                avgScore := mean_score subSeats;
                chunk_blockId := chunk_blockId chunk;
                chunk_row := chunk_row chunk;
                startCol := col0 s0 |}
  end.

(** The loop runs for [i = 0, ..., chunk.seats.length - size]. *)
Definition getSubChunks (chunk : SeatChunk) (size : Z) : completion (list SeatChunk) :=
  if length_Z (seats chunk) <? size then Normal []
  else cmapM (subChunkAt chunk size) (seqZ 0 (length_Z (seats chunk) - size + 1)).

(** ** Group allocator *)

Definition Qltb (a b : Q) : bool := negb (Qle_bool b a).

(** [`${blockId}_${row}_${col}`], the key of [gridMap]. *)
Definition gridKey (blk : string) (r c : Z) : string :=
  blk +:+ "_" +:+ JS.number_to_string r +:+ "_" +:+ JS.number_to_string c.

Definition buildSeatMap (scoredSeats : list SeatWithScore) : gmap string SeatWithScore :=
  fold_left (fun m (s : SeatWithScore) => <[seat_id s := s]> m) scoredSeats ∅.

Definition buildGridMap (scoredSeats : list SeatWithScore) : gmap string string :=
  fold_left
    (fun m (s : SeatWithScore) =>
       match blockId s, row s, col s with
       | Some b, Some r, Some c => <[gridKey b r c := seat_id s]> m
       | _, _, _ => m
       end)
    scoredSeats ∅.

(** The pairs [(dr, dc)] of the two nested loops, without [(0, 0)]. *)
Definition neighbourOffsets : list (Z * Z) :=
  [(-1, -1); (-1, 0); (-1, 1); (0, -1); (0, 1); (1, -1); (1, 0); (1, 1)].

(** A string is truthy when it is not empty. *)
Definition truthy (s : string) : bool := negb (String.eqb s EmptyString).

Definition adjacentOf (seatMap : gmap string SeatWithScore)
    (gridMap : gmap string string) (assignedSeatIds : gset string)
    (soloId : string) : gset string :=
  match (seatMap !! soloId : option SeatWithScore) with
  | Some s =>
      match blockId s, row s, col s with
      | Some b, Some r, Some c =>
          list_to_set
            (omap
               (fun d : Z * Z =>
                  match gridMap !! gridKey b (r + d.1) (c + d.2) with
                  | Some nId =>
                      if truthy nId && bool_decide (nId ∉ assignedSeatIds)
                      then Some nId else None
                  | None => None
                  end)
               neighbourOffsets)
      | _, _, _ => ∅
      end
  | None => ∅
  end.

Definition soloAdjacent (scoredSeats : list SeatWithScore)
    (assignedSeatIds soloSeatIds : gset string) : gset string :=
  ⋃ (adjacentOf (buildSeatMap scoredSeats) (buildGridMap scoredSeats)
       assignedSeatIds <$> elements soloSeatIds).

(** [chunk.avgScore += bonus] for a chunk whose first seat is adjacent
    to a solo seat. *)
Definition addBonus (soloAdjacentIds : gset string) (bonus : Q) (chunk : SeatChunk)
  : SeatChunk :=
  match head (seats chunk) with
  | Some s0 =>
      if truthy (seat_id s0) && bool_decide (seat_id s0 ∈ soloAdjacentIds)
      then {| seats := seats chunk;
              avgScore := (avgScore chunk + bonus)%Q;
              chunk_blockId := chunk_blockId chunk;
              chunk_row := chunk_row chunk;
              startCol := startCol chunk |}
      else chunk
  | None => chunk
  end.

(** The candidates after the solo-adjacency step, in their order of
    enumeration. *)
Definition applySoloBonus (groupSize : Z) (scoredSeats : list SeatWithScore)
    (assignedSeatIds : gset string) (soloSeatIds : option (gset string))
    (candidateChunks : list SeatChunk) : list SeatChunk :=
  match soloSeatIds with
  | Some solo =>
      if (groupSize =? 1) && (0 <? Z.of_nat (size solo)) then
        let soloAdjacentIds := soloAdjacent scoredSeats assignedSeatIds solo in
        if 0 <? Z.of_nat (size soloAdjacentIds) then
          let maxScore := JS.max_with (avgScore <$> candidateChunks) 1 in
          let bonus := (maxScore * (2 # 10))%Q in
          addBonus soloAdjacentIds bonus <$> candidateChunks
        else candidateChunks
      else candidateChunks
  | None => candidateChunks
  end.

Definition availableOf (scoredSeats : list SeatWithScore)
    (assignedSeatIds : gset string) : list SeatWithScore :=
  filter (fun s : SeatWithScore => seat_id s ∉ assignedSeatIds) scoredSeats.

(** The candidates of one allocation: every sub-run of the requested
    size, of every chunk, with the bonus applied. [None] stands for the
    two places that return [null]. *)
Definition candidatesOf (groupSize : Z) (scoredSeats : list SeatWithScore)
    (assignedSeatIds : gset string) (soloSeatIds : option (gset string))
  : completion (option (list SeatChunk)) :=
  let available := availableOf scoredSeats assignedSeatIds in
  if length_Z available <? groupSize then Normal None
  else
    perChunk ←! cmapM (fun chunk => getSubChunks chunk groupSize)
                      (buildAllChunks available);
    let candidateChunks := mjoin perChunk in
    if length_Z candidateChunks =? 0 then Normal None
    else Normal (Some (applySoloBonus groupSize scoredSeats assignedSeatIds
                         soloSeatIds candidateChunks)).

Definition byAvgScoreDesc (a b : SeatChunk) : bool :=
  Qle_bool (avgScore b - avgScore a) 0.

Definition findAndAllocateSeats (groupSize : Z) (scoredSeats : list SeatWithScore)
    (assignedSeatIds : gset string) (soloSeatIds : option (gset string))
  : completion (option (list SeatWithScore)) :=
  cands ←! candidatesOf groupSize scoredSeats assignedSeatIds soloSeatIds;
  match cands with
  | None => Normal None
  | Some candidateChunks =>
      match JS.sort byAvgScoreDesc candidateChunks with
      | best :: _ => Normal (Some (seats best))
      | [] => TypeError
      end
  end.

(** ** Group allocator, over any arithmetic

    The allocator ranks its candidates by sums and quotients of scores,
    and which candidate it returns depends on whether two of them are
    equal.  Double arithmetic rounds these sums and quotients, so two
    windows with the same exact mean need not have the same [avgScore].
    Here the run builder and the allocator are written once more, over
    whatever the additions, the multiplications and the divisions of
    scores return; with the exact operations they are the functions
    above.  The comparisons are the exact ones: the sign of the
    difference of two doubles is the sign of their exact difference, and
    [Math.max] returns one of its arguments. *)

Record Arithmetic : Type := {
  ar_add : Q → Q → Q;
  ar_mul : Q → Q → Q;
  ar_div : Q → Q → Q;
}.

Definition exactArithmetic : Arithmetic :=
  {| ar_add := Qplus; ar_mul := Qmult; ar_div := Qdiv |}.

(** [l.reduce((sum, s) => sum + s.score, 0) / l.length]. *)
Definition meanIn (ar : Arithmetic) (l : list SeatWithScore) : Q :=
  ar_div ar (fold_left (fun sum s => ar_add ar sum (score s)) l 0%Q)
            (inject_Z (length_Z l)).

Definition mkChunkIn (ar : Arithmetic) (blk : string) (r : option Z)
    (chunkSeats : list SeatWithScore) : SeatChunk :=
  {| seats := chunkSeats;
     avgScore := meanIn ar chunkSeats;
     chunk_blockId := blk;
     chunk_row := r;
     startCol := from_option (fun s : SeatWithScore => col0 s) 0 (head chunkSeats) |}.

Definition chunksOfGroupIn (ar : Arithmetic) (entry : string * list SeatWithScore)
  : list SeatChunk :=
  let '(key, rowSeats) := entry in
  let parts := JS.split "_"%char key in
  let blk := default EmptyString (parts !! 0%nat) in
  let r := parts !! 1%nat ≫= JS.parseInt in
  let sorted := JS.sort (fun a b : SeatWithScore => col0 a - col0 b <=? 0) rowSeats in
  mkChunkIn ar blk r <$> rowRuns sorted.

Definition buildAllChunksIn (ar : Arithmetic) (l : list SeatWithScore)
  : list SeatChunk :=
  mjoin (chunksOfGroupIn ar <$> groupSeats l).

Definition subChunkAtIn (ar : Arithmetic) (chunk : SeatChunk) (size : Z) (i : Z)
  : completion SeatChunk :=
  let subSeats := JS.slice (seats chunk) i (i + size) in
  match subSeats with
  | [] => TypeError
  | s0 :: _ =>
      Normal {| seats := subSeats;
                avgScore := meanIn ar subSeats;
                chunk_blockId := chunk_blockId chunk;
                chunk_row := chunk_row chunk;
                startCol := col0 s0 |}
  end.

Definition getSubChunksIn (ar : Arithmetic) (chunk : SeatChunk) (size : Z)
  : completion (list SeatChunk) :=
  if length_Z (seats chunk) <? size then Normal []
  else cmapM (subChunkAtIn ar chunk size) (seqZ 0 (length_Z (seats chunk) - size + 1)).

Definition addBonusIn (ar : Arithmetic) (soloAdjacentIds : gset string) (bonus : Q)
    (chunk : SeatChunk) : SeatChunk :=
  match head (seats chunk) with
  | Some s0 =>
      if truthy (seat_id s0) && bool_decide (seat_id s0 ∈ soloAdjacentIds)
      then {| seats := seats chunk;
              avgScore := ar_add ar (avgScore chunk) bonus;
              chunk_blockId := chunk_blockId chunk;
              chunk_row := chunk_row chunk;
              startCol := startCol chunk |}
      else chunk
  | None => chunk
  end.

Definition applySoloBonusIn (ar : Arithmetic) (groupSize : Z)
    (scoredSeats : list SeatWithScore) (assignedSeatIds : gset string)
    (soloSeatIds : option (gset string)) (candidateChunks : list SeatChunk)
  : list SeatChunk :=
  match soloSeatIds with
  | Some solo =>
      if (groupSize =? 1) && (0 <? Z.of_nat (size solo)) then
        let soloAdjacentIds := soloAdjacent scoredSeats assignedSeatIds solo in
        if 0 <? Z.of_nat (size soloAdjacentIds) then
          let maxScore := JS.max_with (avgScore <$> candidateChunks) 1 in
          let bonus := ar_mul ar maxScore (2 # 10) in
          addBonusIn ar soloAdjacentIds bonus <$> candidateChunks
        else candidateChunks
      else candidateChunks
  | None => candidateChunks
  end.

Definition candidatesOfIn (ar : Arithmetic) (groupSize : Z)
    (scoredSeats : list SeatWithScore) (assignedSeatIds : gset string)
    (soloSeatIds : option (gset string))
  : completion (option (list SeatChunk)) :=
  let available := availableOf scoredSeats assignedSeatIds in
  if length_Z available <? groupSize then Normal None
  else
    perChunk ←! cmapM (fun chunk => getSubChunksIn ar chunk groupSize)
                      (buildAllChunksIn ar available);
    let candidateChunks := mjoin perChunk in
    if length_Z candidateChunks =? 0 then Normal None
    else Normal (Some (applySoloBonusIn ar groupSize scoredSeats assignedSeatIds
                         soloSeatIds candidateChunks)).

Definition findAndAllocateSeatsIn (ar : Arithmetic) (groupSize : Z)
    (scoredSeats : list SeatWithScore) (assignedSeatIds : gset string)
    (soloSeatIds : option (gset string))
  : completion (option (list SeatWithScore)) :=
  cands ←! candidatesOfIn ar groupSize scoredSeats assignedSeatIds soloSeatIds;
  match cands with
  | None => Normal None
  | Some candidateChunks =>
      match JS.sort byAvgScoreDesc candidateChunks with
      | best :: _ => Normal (Some (seats best))
      | [] => TypeError
      end
  end.

(** ** Tier classifier *)

Definition isPriority (app : Application) : bool :=
  isInvitation app || isRelation app.

Definition isLose (r : option LastResult) : bool :=
  match r with Some lose => true | _ => false end.

(** The three arrays filled by the classification loop. *)
Definition classify (applications : list Application)
  : list Application * list Application * list Application :=
  fold_left
    (fun '(tier1Apps, tier2Apps, tier3Apps) app =>
       if isPriority app then (tier1Apps ++ [app], tier2Apps, tier3Apps)
       else if isLose (lastResult app) then (tier1Apps, tier2Apps ++ [app], tier3Apps)
       else (tier1Apps, tier2Apps, tier3Apps ++ [app]))
    applications ([], [], []).

(** Fisher-Yates: [for (i = length - 1; i > 0; i--)], one draw per turn.
    [k] counts the draws made so far. *)
Fixpoint shuffleLoop (rnd : nat → Q) (i : nat) (k : nat) (a : JS.array Application)
  : JS.array Application * nat :=
  match i with
  | O => (a, k)
  | S i' =>
      let j := Qfloor (rnd k * inject_Z (Z.of_nat i + 1)) in
      shuffleLoop rnd i' (S k) (JS.swap a (Z.of_nat i) j)
  end.

Definition shuffle (rnd : nat → Q) (k : nat) (tier1Apps : list Application)
  : list (option Application) * nat :=
  let '(a, k') := shuffleLoop rnd (Nat.pred (length tier1Apps)) k (JS.of_list tier1Apps) in
  (JS.elems a, k').

Definition byPastScoreDesc (a b : Application) : bool :=
  Qle_bool (pastScore b - pastScore a) 0.

(** ** Hybrid selector *)

(** [remaining[randomIndex]] *)
Definition at_index {A} (l : list A) (k : Z) : option A :=
  if k <? 0 then None else l !! Z.to_nat k.

(** One turn of the [while] loop for each remaining candidate.  The
    applications are distinct objects, so [remaining.indexOf(chosen)] is
    the index [chosen] was read at; for [chosen] undefined it is -1, and
    [splice(-1, 1)] removes the last element. *)
Fixpoint hybridLoop (skill : Q) (rnd : nat → Q) (turns : nat)
    (remaining : list Application) (selected : list (option Application))
    (k : nat) : list (option Application) * nat :=
  match turns, remaining with
  | S turns', first :: _ =>
      if Qltb (rnd k) skill then
        hybridLoop skill rnd turns' (delete 0%nat remaining)
          (selected ++ [Some first]) (S k)
      else
        let randomIndex := Qfloor (rnd (S k) * inject_Z (length_Z remaining)) in
        match at_index remaining randomIndex with
        | Some chosen =>
            hybridLoop skill rnd turns' (delete (Z.to_nat randomIndex) remaining)
              (selected ++ [Some chosen]) (S (S k))
        | None =>
            hybridLoop skill rnd turns' (removelast remaining)
              (selected ++ [None]) (S (S k))
        end
  | _, _ => (selected, k)
  end.

Definition hybridSelection (candidates : list Application) (skill : Q)
    (rnd : nat → Q) (k : nat) : list (option Application) * nat :=
  let remaining := JS.sort byPastScoreDesc candidates in
  hybridLoop skill rnd (length remaining) remaining [] k.

(** ** Quality rater *)

Definition qualityAt (i total : nat) : SeatQuality :=
  let percentile := (inject_Z (Z.of_nat i) / inject_Z (Z.of_nat total) * 100)%Q in
  if Qltb percentile 15 then top
  else if Qltb percentile 40 then good
  else if Qltb percentile 60 then normal
  else if Qltb percentile 85 then back
  else far.

Definition setQuality (q : SeatQuality) (a : Assignment) : Assignment :=
  {| applicationId := applicationId a;
     seatIds := seatIds a;
     totalScore := totalScore a;
     tier := tier a;
     seatQuality := Some q |}.

Definition byTotalScoreDesc (a b : nat * Assignment) : bool :=
  Qle_bool (totalScore b.2 - totalScore a.2) 0.

(** [nonVipAssignments] holds the same objects as [assignments]: each
    is kept with its index in [assignments], and the label written to
    the object of rank [i] is written at that index. *)
Definition assignSeatQuality (assignments : list Assignment) : list Assignment :=
  let nonVipAssignments :=
    filter (fun p : nat * Assignment => tier p.2 ≠ Tier1)
           (imap (fun i a => (i, a)) assignments) in
  let sorted := JS.sort byTotalScoreDesc nonVipAssignments in
  let total := length sorted in
  foldl (fun acc '(i, (idx, _)) => alter (setQuality (qualityAt i total)) idx acc)
        assignments
        (imap (fun i p => (i, p)) sorted).

(** ** Main lottery function *)

(** The variables that [allocateApp] and the three allocation loops
    update. *)
Record AllocState := {
  st_assignments : list Assignment;
  assignedSeatIds : gset string;
  soloSeatIds : gset string;
  st_unassigned : list string;
  st_tier2OverflowCount : Z;
}.

Definition initialState : AllocState :=
  {| st_assignments := []; assignedSeatIds := ∅; soloSeatIds := ∅;
     st_unassigned := []; st_tier2OverflowCount := 0 |}.

Definition idsOf (l : list SeatWithScore) : list string :=
  (fun s : SeatWithScore => seat_id s) <$> l.

Definition allocateApp (scoredSeats : list SeatWithScore) (app : Application)
    (t : Tier) (st : AllocState) : completion (bool * AllocState) :=
  allocated ←! findAndAllocateSeats (groupSize app) scoredSeats (assignedSeatIds st)
                 (if groupSize app =? 1 then Some (soloSeatIds st) else None);
  match allocated with
  | Some allocated =>
      Normal (true,
        {| st_assignments :=
             st_assignments st ++
             [{| applicationId := app_id app;
                 seatIds := idsOf allocated;
                 totalScore := mean_score allocated;
                 tier := t;
                 seatQuality := None |}];
           assignedSeatIds := assignedSeatIds st ∪ list_to_set (idsOf allocated);
           soloSeatIds :=
             if groupSize app =? 1
             then soloSeatIds st ∪ list_to_set (idsOf allocated)
             else soloSeatIds st;
           st_unassigned := st_unassigned st;
           st_tier2OverflowCount := st_tier2OverflowCount st |})
  | None => Normal (false, st)
  end.

(** What the loop of tier [t] does with an applicant that was not seated. *)
Definition recordUnassigned (app : Application) (t : Tier) (st : AllocState)
  : AllocState :=
  {| st_assignments := st_assignments st;
     assignedSeatIds := assignedSeatIds st;
     soloSeatIds := soloSeatIds st;
     st_unassigned := st_unassigned st ++ [app_id app];
     st_tier2OverflowCount :=
       match t with
       | Tier2 => st_tier2OverflowCount st + 1
       | _ => st_tier2OverflowCount st
       end |}.

(** One allocation attempt; [app.groupSize] on [undefined] is a TypeError. *)
Definition attempt (scoredSeats : list SeatWithScore) (t : Tier)
    (st : AllocState) (app : option Application) : completion AllocState :=
  match app with
  | None => TypeError
  | Some app =>
      r ←! allocateApp scoredSeats app t st;
      Normal (if r.1 then r.2 else recordUnassigned app t r.2)
  end.

(** [for (const app of apps) if (!allocateApp(app, t)) ...] *)
Fixpoint allocateTier (scoredSeats : list SeatWithScore) (t : Tier)
    (apps : list (option Application)) (st : AllocState) : completion AllocState :=
  match apps with
  | [] => Normal st
  | app :: rest =>
      st' ←! attempt scoredSeats t st app;
      allocateTier scoredSeats t rest st'
  end.

Definition countTier (t : Tier) (l : list Assignment) : Z :=
  length_Z (filter (fun a => tier a = t) l).

Definition emptyResult (seats : list Seat) (applications : list Application)
  : LotteryResult :=
  {| assignments := [];
     unassigned := app_id <$> applications;
     stats := {| totalSeats := length_Z seats;
                 availableSeats := 0;
                 totalApplications := length_Z applications;
                 totalPeopleAssigned := 0;
                 averageScore := 0;
                 tier1Count := 0;
                 tier2Count := 0;
                 tier3Count := 0;
                 tier2OverflowCount := 0 |} |}.

(** [Math.max(...distances) || 1] for the non-empty list [d :: ds]. *)
Definition maxDistanceOf (d : Q) (ds : list Q) : Q :=
  let m := fold_left Qmax ds d in
  if Qeq_bool m 0 then 1%Q else m.

Definition distanceTo (stage : Point) (s : Seat) : Q :=
  calculateDistance (seat_x s) (seat_y s) (px stage) (py stage).

Definition scoreSeats (stage : Point) (availableSeats : list Seat)
  : list SeatWithScore :=
  match availableSeats with
  | [] => []
  | s :: rest =>
      let maxDistance :=
        maxDistanceOf (distanceTo stage s) (distanceTo stage <$> rest) in
      (fun s => calculateSeatScore s stage maxDistance) <$> availableSeats
  end.

Definition assignSeats (seats : list Seat) (applications : list Application)
    (config : LotteryConfig) : completion LotteryResult :=
  let skill := default (70 # 100)%Q (skillWeight config) in
  let rnd := default Math_random (randomFn config) in
  let available := filter (fun s => isDisabled s = false) seats in
  if (length_Z available =? 0) || (length_Z applications =? 0) then
    Normal (emptyResult seats applications)
  else
    let scoredSeats := scoreSeats (stagePosition config) available in
    let '(tier1Apps, tier2Apps, tier3Apps) := classify applications in
    let '(tier1Shuffled, k) := shuffle rnd 0%nat tier1Apps in
    let tier2Sorted := JS.sort byPastScoreDesc tier2Apps in
    st1 ←! allocateTier scoredSeats Tier1 tier1Shuffled initialState;
    st2 ←! allocateTier scoredSeats Tier2 (Some <$> tier2Sorted) st1;
    let tier3Selected := (hybridSelection tier3Apps skill rnd k).1 in
    st3 ←! allocateTier scoredSeats Tier3 tier3Selected st2;
    let assignments := assignSeatQuality (st_assignments st3) in
    let totalPeopleAssigned :=
      fold_left (fun sum a => sum + length_Z (seatIds a)) assignments 0 in
    let averageScore :=
      if 0 <? length_Z assignments
      then (sum_of totalScore assignments / inject_Z (length_Z assignments))%Q
      else 0%Q in
    Normal
      {| assignments := assignments;
         unassigned := st_unassigned st3;
         stats := {| totalSeats := length_Z seats;
                     availableSeats := length_Z available;
                     totalApplications := length_Z applications;
                     totalPeopleAssigned := totalPeopleAssigned;
                     averageScore := averageScore;
                     tier1Count := countTier Tier1 assignments;
                     tier2Count := countTier Tier2 assignments;
                     tier3Count := countTier Tier3 assignments;
                     tier2OverflowCount := st_tier2OverflowCount st3 |} |}.

(** ** Score updater *)

Definition qualityChange (q : SeatQuality) : Q :=
  match q with
  | top => -4
  | good => -(15 # 10)
  | normal => 0
  | back => 15 # 10
  | far => 4
  end.

Definition loseChange : Q := 6.
Definition minScore : Q := 1.
Definition maxScore : Q := 10.

(** [applications.find((ap) => ap.id === id)] *)
Definition findApp (applications : list Application) (i : string)
  : option Application :=
  List.find (fun ap => String.eqb (app_id ap) i) applications.

(** The body of the first loop: the update pushed for one assignment, or
    nothing where the loop continues without a push. *)
Definition updateOfAssignment (applications : list Application) (a : Assignment)
  : option ScoreUpdate :=
  match findApp applications (applicationId a) with
  | None => None
  | Some app =>
      if isInvitation app || isRelation app then
        Some {| su_applicationId := applicationId a;
                currentScore := pastScore app;
                nextScore := pastScore app;
                change := 0;
                su_seatQuality := Quality (default normal (seatQuality a));
                su_lastResult := win |}
      else
        let quality := default normal (seatQuality a) in
        let change_ := qualityChange quality in
        let nextRaw := (pastScore app + change_)%Q in
        let next := Qmax minScore (Qmin maxScore nextRaw) in
        Some {| su_applicationId := applicationId a;
                currentScore := pastScore app;
                nextScore := next;
                change := (next - pastScore app)%Q;
                su_seatQuality := Quality quality;
                su_lastResult := win |}
  end.

(** The body of the second loop. *)
Definition updateOfUnassigned (applications : list Application) (i : string)
  : option ScoreUpdate :=
  match findApp applications i with
  | None => None
  | Some app =>
      if isInvitation app || isRelation app then
        Some {| su_applicationId := i;
                currentScore := pastScore app;
                nextScore := pastScore app;
                change := 0;
                su_seatQuality := Lose;
                su_lastResult := lose |}
      else
        let nextRaw := (pastScore app + loseChange)%Q in
        let next := Qmax minScore (Qmin maxScore nextRaw) in
        Some {| su_applicationId := i;
                currentScore := pastScore app;
                nextScore := next;
                change := (next - pastScore app)%Q;
                su_seatQuality := Lose;
                su_lastResult := lose |}
  end.

(** [updates.push(u)], or [continue]. *)
Definition pushUpdate (updates : list ScoreUpdate) (u : option ScoreUpdate)
  : list ScoreUpdate :=
  match u with
  | Some u => updates ++ [u]
  | None => updates
  end.

Definition calculateScoreUpdates (assignments : list Assignment)
    (unassigned : list string) (applications : list Application)
  : list ScoreUpdate :=
  let updates :=
    fold_left (fun updates a => pushUpdate updates (updateOfAssignment applications a))
              assignments [] in
  fold_left (fun updates i => pushUpdate updates (updateOfUnassigned applications i))
            unassigned updates.

(** ** The vocabulary of the properties *)

(** The clamp of the specification. *)
Definition clamp (x lo hi : Q) : Q :=
  if Qltb x lo then lo else if Qltb hi x then hi else x.

(** An id has a matching application. *)
Definition matched (applications : list Application) (i : string) : bool :=
  existsb (fun ap => String.eqb (app_id ap) i) applications.

(** The delta of the specification for the label of an assignment; an
    assignment without a label counts as [normal]. *)
Definition qualityDelta (label : option SeatQuality) : Q :=
  match label with
  | Some top => -4
  | Some good => -(3 # 2)
  | Some normal => 0
  | Some back => 3 # 2
  | Some far => 4
  | None => 0
  end.

(** What the specification asks of the update [u] of a seated applicant
    [app] with assignment [a]. *)
Definition seatedSpec (applications : list Application) (a : Assignment)
    (u : ScoreUpdate) : Prop :=
  ∃ app, findApp applications (applicationId a) = Some app
    ∧ su_applicationId u = applicationId a
    ∧ currentScore u = pastScore app
    ∧ if isInvitation app || isRelation app
      then nextScore u = pastScore app ∧ change u = 0%Q
      else (nextScore u == clamp (pastScore app + qualityDelta (seatQuality a)) 1 10)%Q.

(** The same for an applicant that was not seated. *)
Definition unseatedSpec (applications : list Application) (i : string)
    (u : ScoreUpdate) : Prop :=
  ∃ app, findApp applications i = Some app
    ∧ su_applicationId u = i
    ∧ currentScore u = pastScore app
    ∧ if isInvitation app || isRelation app
      then nextScore u = pastScore app ∧ change u = 0%Q
      else (nextScore u == clamp (pastScore app + 6) 1 10)%Q.

(** Every entry of [grouped] holds seats of its own key, all of which
    satisfy [P]. *)
Definition groupedOk (P : SeatWithScore → Prop)
    (grouped : list (string * list SeatWithScore)) : Prop :=
  Forall (fun e => Forall (fun t : SeatWithScore => groupKey t = e.1 ∧ P t) e.2) grouped.

(** The columns of a run are consecutive. *)
Definition consecutive (run : list SeatWithScore) : Prop :=
  ∃ c, (fun s : SeatWithScore => col0 s) <$> run = seqZ c (length_Z run).

(** What [buildAllChunks] promises of each of its chunks. *)
Record chunkOk (l : list SeatWithScore) (chunk : SeatChunk) : Prop := {
  chunk_nonempty : seats chunk ≠ [];
  chunk_from : ∀ s : SeatWithScore, s ∈ seats chunk → s ∈ l;
  chunk_key : ∃ key, ∀ s : SeatWithScore, s ∈ seats chunk → groupKey s = key;
  chunk_cols :
    (fun s : SeatWithScore => col0 s) <$> seats chunk
    = seqZ (startCol chunk) (length_Z (seats chunk));
}.

(** A candidate of an allocation is a window of [groupSize] seats of a
    chunk of the seats that are not assigned yet. *)
Definition windowOf (groupSize : Z) (scoredSeats : list SeatWithScore)
    (assigned : gset string) (c : SeatChunk) : Prop :=
  1 ≤ groupSize
  ∧ length_Z (seats c) = groupSize
  ∧ ∃ chunk (i : nat),
      chunk ∈ buildAllChunks (availableOf scoredSeats assigned)
      ∧ seats c = take (Z.to_nat groupSize) (drop i (seats chunk)).

(** The head of a stable sort in descending order of [key]: the first
    element of the list whose key is the greatest. *)
Definition firstBest {A} (key : A → Q) (l : list A) (k : nat) (best : A) : Prop :=
  l !! k = Some best
  ∧ (∀ c, c ∈ l → (key c <= key best)%Q)
  ∧ (∀ (j : nat) c, (j < k)%nat → l !! j = Some c → (key c < key best)%Q).

(** Scenario A: five seats side by side in one row, scored 10 to 50, the
    nearer to the stage the higher. *)
Definition scoredSeatAt (i : string) (c : Z) (sc : Q) : SeatWithScore :=
  {| seat := {| seat_id := i; seat_x := (100 - sc)%Q; seat_y := 0;
                isPremium := false; isDisabled := false;
                row := Some 0; col := Some c; blockId := Some "A" |};
     score := sc;
     distanceFromStage := (100 - sc)%Q |}.

Definition scenarioA : list SeatWithScore :=
  [scoredSeatAt "s1" 1 10; scoredSeatAt "s2" 2 20; scoredSeatAt "s3" 3 30;
   scoredSeatAt "s4" 4 40; scoredSeatAt "s5" 5 50].

(** The values an array holds, at whatever index or property. *)
Definition held {A} (a : JS.array A) : list A := (map_to_list (JS.items a)).*2.

(** The exchange of the indices [i] and [j]. *)
Definition transpose (i j k : Z) : Z :=
  if decide (k = i) then j else if decide (k = j) then i else k.

(** The tier the classification loop puts an applicant in. *)
Definition tierOf (app : Application) : Tier :=
  if isPriority app then Tier1
  else if isLose (lastResult app) then Tier2
  else Tier3.

(** The applicants of one tier, in the order of the input. *)
Definition inTier (t : Tier) (applications : list Application) : list Application :=
  filter (fun app => tierOf app = t) applications.

(** The attempts of a run, in the order they are made. *)
Fixpoint runAttempts (scoredSeats : list SeatWithScore)
    (attempts : list (Application * Tier)) (st : AllocState) : completion AllocState :=
  match attempts with
  | [] => Normal st
  | (app, t) :: rest =>
      st' ←! attempt scoredSeats t st (Some app);
      runAttempts scoredSeats rest st'
  end.

(** The attempts of the loop of tier [t] over the applicants [l]. *)
Definition tagged (t : Tier) (l : list Application) : list (Application * Tier) :=
  (fun app => (app, t)) <$> l.

(** The invariant of the allocation loops after the attempts [made]. *)
Record allocOk (made : list (Application * Tier)) (st : AllocState) : Prop := {
  ok_assigned :
    ∀ a i, a ∈ st_assignments st → i ∈ seatIds a → i ∈ assignedSeatIds st;
  ok_disjoint :
    ∀ (j k : nat) a b i,
      j ≠ k → st_assignments st !! j = Some a → st_assignments st !! k = Some b →
      i ∈ seatIds a → i ∉ seatIds b;
  ok_sound :
    ∀ a, a ∈ st_assignments st →
      ∃ app, (app, tier a) ∈ made
        ∧ applicationId a = app_id app
        ∧ length_Z (seatIds a) = groupSize app;
  ok_covered :
    ∀ app t, (app, t) ∈ made →
      (∃ a, a ∈ st_assignments st
         ∧ applicationId a = app_id app
         ∧ length_Z (seatIds a) = groupSize app)
      ∨ app_id app ∈ st_unassigned st;
}.

(** The rater writes nothing but labels. *)
Definition sameButQuality (a b : Assignment) : Prop :=
  applicationId b = applicationId a
  ∧ seatIds b = seatIds a
  ∧ totalScore b = totalScore a
  ∧ tier b = tier a.

(** Tier 1 is served first, Tier 3 last. *)
Definition tierRank (t : Tier) : nat :=
  match t with Tier1 => 1 | Tier2 => 2 | Tier3 => 3 end.

(** An attempt of a lower rank comes before every attempt of a higher
    one. *)
Definition inTierOrder (attempts : list (Application * Tier)) : Prop :=
  ∀ (i j : nat) e1 e2,
    attempts !! i = Some e1 → attempts !! j = Some e2 →
    (tierRank e1.2 < tierRank e2.2)%nat → (i < j)%nat.

(** A run that makes allocation attempts: its attempts, and how the
    result comes out of the state they leave. *)
Record runOf (seats : list Seat) (applications : list Application)
    (config : LotteryConfig) (r : LotteryResult)
    (attempts : list (Application * Tier)) (st : AllocState) : Prop := {
  run_attempts :
    runAttempts
      (scoreSeats (stagePosition config) (filter (fun s => isDisabled s = false) seats))
      attempts initialState = Normal st;
  run_everyone : attempts ≡ₚ (fun app => (app, tierOf app)) <$> applications;
  run_order : inTierOrder attempts;
  run_assignments : assignments r = assignSeatQuality (st_assignments st);
  run_unassigned : unassigned r = st_unassigned st;
  run_overflow : tier2OverflowCount (stats r) = st_tier2OverflowCount st;
}.

(** The draws of a generator in the range of [Math.random]. *)
Definition unitDraws (rnd : nat → Q) : Prop := ∀ k, (0 <= rnd k < 1)%Q.

(** An array without a hole. *)
Definition dense {A} (a : JS.array A) : Prop :=
  0 ≤ JS.alength a ∧ ∀ k, 0 ≤ k < JS.alength a → is_Some (JS.get a k).

(** ** The vocabulary of the further properties *)

(** The seat ids a list of assignments grants, in the order of the list. *)
Definition grantedIds (l : list Assignment) : list string :=
  mjoin (seatIds <$> l).

(** The attempts of tier [t] among [made]. *)
Definition attemptsIn (t : Tier) (made : list (Application * Tier))
  : list (Application * Tier) :=
  filter (fun e : Application * Tier => e.2 = t) made.

(** More of what the allocation loops keep: every attempted applicant
    is listed once, the granted seats are taken out of the scored seats
    one by one, no label is written yet, and the counter of Tier 2 counts
    the failed attempts of Tier 2. *)
Record allocMore (scoredSeats : list SeatWithScore)
    (made : list (Application * Tier)) (st : AllocState) : Prop := {
  more_ids :
    (applicationId <$> st_assignments st) ++ st_unassigned st
    ≡ₚ (fun e : Application * Tier => app_id e.1) <$> made;
  more_fresh : Forall (fun a => seatQuality a = None) (st_assignments st);
  more_assigned :
    ∀ i, i ∈ assignedSeatIds st → i ∈ grantedIds (st_assignments st);
  more_granted :
    grantedIds (st_assignments st)
    ⊆+ idsOf (filter (fun s : SeatWithScore => seat_id s ∈ assignedSeatIds st)
                     scoredSeats);
  more_tiers :
    ∀ t, countTier t (st_assignments st) ≤ length_Z (attemptsIn t made);
  more_overflow :
    countTier Tier2 (st_assignments st) + st_tier2OverflowCount st
    = length_Z (attemptsIn Tier2 made);
}.

(** The order of the labels, from the best to the worst. *)
Definition qualityRank (q : SeatQuality) : nat :=
  match q with top => 0 | good => 1 | normal => 2 | back => 3 | far => 4 end.

(** The ranking of the rater: the assignments outside Tier 1 with their
    indices, by descending score. *)
Definition ranking (l : list Assignment) : list (nat * Assignment) :=
  JS.sort byTotalScoreDesc
    (filter (fun p : nat * Assignment => tier p.2 ≠ Tier1)
            (imap (fun i a => (i, a)) l)).


(** The test of the bonus loop: a seat beside a seated single attendee. *)
Definition nearSolo (scoredSeats : list SeatWithScore)
    (assigned solo : gset string) (t : SeatWithScore) : bool :=
  truthy (seat_id t)
  && bool_decide (seat_id t ∈ soloAdjacent scoredSeats assigned solo).



(** No two seats of [l] are at the same place: the same
    [blockId ?? 'default'], [row ?? 0] and [col ?? 0]. *)
Definition distinctPlaces (l : list SeatWithScore) : Prop :=
  NoDup ((fun s : SeatWithScore => (groupKey s, col0 s)) <$> l).

(** Seats side by side: of one block and row, at consecutive columns. *)
Definition sideBySide (run : list SeatWithScore) : Prop :=
  (∃ key, ∀ s : SeatWithScore, s ∈ run → groupKey s = key) ∧ consecutive run.


(** ** The vocabulary of the choice of the allocator *)

(** A chunk with its average taken in [ar]. *)
Definition rescore (ar : Arithmetic) (c : SeatChunk) : SeatChunk :=
  {| seats := seats c;
     avgScore := meanIn ar (seats c);
     chunk_blockId := chunk_blockId c;
     chunk_row := chunk_row c;
     startCol := startCol c |}.

(** The windows of [n] seats of a run, from the left to the right. *)
Definition windowsOf (n : Z) (l : list SeatWithScore) : list (list SeatWithScore) :=
  (fun i : nat => take (Z.to_nat n) (drop i l))
  <$> seq 0 (Z.to_nat (length_Z l - n + 1)).

(** The enumeration of the candidates: chunk after chunk, the windows of
    [groupSize] seats of each. *)
Definition candidateSeats (groupSize : Z) (available : list SeatWithScore)
  : list (list SeatWithScore) :=
  mjoin ((fun chunk => windowsOf groupSize (seats chunk)) <$> buildAllChunks available).

(** The bonus is for a single attendee, when seated single attendees are
    given, on a window whose first seat is beside one of them. *)
Definition bonusFor (groupSize : Z) (scoredSeats : list SeatWithScore)
    (assigned : gset string) (solo : option (gset string))
    (w : list SeatWithScore) : bool :=
  (groupSize =? 1)
  && match solo, head w with
     | Some soloIds, Some s0 => nearSolo scoredSeats assigned soloIds s0
     | _, _ => false
     end.

(** The score a window is ranked by: the mean of the scores of its
    seats, and with the bonus 0.2 times the greatest mean of a candidate,
    at least 0.2 times 1. *)
Definition candidateScore (ar : Arithmetic) (groupSize : Z)
    (scoredSeats : list SeatWithScore) (assigned : gset string)
    (solo : option (gset string)) (w : list SeatWithScore) : Q :=
  let all := candidateSeats groupSize (availableOf scoredSeats assigned) in
  if bonusFor groupSize scoredSeats assigned solo w
  then ar_add ar (meanIn ar w)
                 (ar_mul ar (JS.max_with (meanIn ar <$> all) 1) (2 # 10))
  else meanIn ar w.

End Lottery.

(** * The lottery hook (useLottery)

    The part of the hook that prepares a run and keeps the locks.  A
    handler is a function of the state it was created with; the state is
    taken to be the current one, as it is when the component is rendered
    between two events.  The names, the CSV exports and the mock data are
    left out, and of a block and a customer only the fields the handlers
    read are kept.  [Math.PI], [Math.cos] and [Math.sin] are variables,
    like [Math.sqrt]. *)

(** [Seat] of [@/types/venue] *)
Record VenueSeat := {
  vs_id : string;
  vs_row : Z;
  vs_col : Z;
  localX : Q;
  localY : Q;
  vs_isPremium : bool;
  vs_isDisabled : bool;
}.

Record SeatBlock := {
  block_id : string;
  block_x : Q;
  block_y : Q;
  rotation : Q;
  scaleX : Q;
  scaleY : Q;
  block_seats : list VenueSeat;
}.

Record LotteryApplication := {
  lapp_id : string;
  lapp_groupSize : Z;
  lapp_isInvitation : bool;
  lapp_isRelation : bool;
  lapp_pastScore : Q;
  lapp_lastResult : option LastResult;
  lapp_memberId : string;
  lapp_name : string;
  lapp_address : string;
  lapp_tags : list string;
}.

(** [tier: 0 | 1 | 2 | 3]: 0 is the tier of a lock. *)
Inductive AssignmentTier := Tier0 | TierOfLottery (t : Tier).

Record LotteryAssignment := {
  la_applicationId : string;
  la_seatIds : list string;
  la_totalScore : Q;
  la_color : string;
  la_isInvitation : bool;
  la_isRelation : bool;
  la_groupSize : Z;
  la_pastScore : Q;
  la_tier : AssignmentTier;
  la_seatQuality : option SeatQuality;
  la_memberId : string;
  la_name : string;
  la_address : string;
}.

Record LockedSeat := {
  ls_seatId : string;
  ls_customerId : string;
  ls_customerName : string;
  ls_groupSize : Z;
  ls_seatIds : list string;
}.

(** [groupSize] is read with [?? 1]. *)
Record Customer := {
  cust_id : string;
  cust_name : string;
  cust_groupSize : option Z;
}.

Record LockingState := {
  lk_customer : Customer;
  remainingSeats : Z;
  placedSeatIds : list string;
}.

(** What [runLottery] stores and returns. *)
Record RunOutcome := {
  ro_result : LotteryResult;
  ro_scoreUpdates : list ScoreUpdate;
  ro_assignments : list LotteryAssignment;
  ro_seatAssignmentMap : gmap string LotteryAssignment;
}.

(** The two state variables of the locks. *)
Record LockState := {
  lockedSeats : list LockedSeat;
  lockingState : option LockingState;
}.

Inductive LockEvent :=
  | StartLocking (customer : Customer)
  | CancelLocking
  | LockSeatClick (seatId : string)
  | UnlockCustomer (customerId : string)
  | Reset.

Class Trigonometry := {
  Math_PI : Q;
  Math_cos : Q → Q;
  Math_sin : Q → Q;
}.

Section Hook.

Context {math : MathLibrary} {trig : Trigonometry}.

Definition GROUP_COLORS : list string :=
  ["#3b82f6"; "#22c55e"; "#a855f7"; "#f97316"; "#ec4899";
   "#14b8a6"; "#f59e0b"; "#6366f1"; "#84cc16"; "#06b6d4"].
Definition INVITATION_COLOR : string := "#ca8a04".
Definition RELATION_COLOR : string := "#a855f7".
Definition RESCUE_COLOR : string := "#22d3ee".

(** ** runLottery *)

(** The seat pushed for [seat] of [block]. *)
Definition lotterySeatOf (block : SeatBlock) (seat : VenueSeat) : Seat :=
  let rad := (rotation block * Math_PI / 180)%Q in
  let scaledX := (localX seat * scaleX block)%Q in
  let scaledY := (localY seat * scaleY block)%Q in
  let rotatedX := (scaledX * Math_cos rad - scaledY * Math_sin rad)%Q in
  let rotatedY := (scaledX * Math_sin rad + scaledY * Math_cos rad)%Q in
  {| seat_id := vs_id seat;
     seat_x := (block_x block + rotatedX)%Q;
     seat_y := (block_y block + rotatedY)%Q;
     isPremium := vs_isPremium seat;
     isDisabled := vs_isDisabled seat;
     row := Some (vs_row seat);
     col := Some (vs_col seat);
     blockId := Some (block_id block) |}.

Definition lotterySeatsOf (blocks : list SeatBlock) : list Seat :=
  mjoin ((fun block => lotterySeatOf block <$> block_seats block) <$> blocks).

(** [lockedSeats.flatMap((ls) => ls.seatIds)] *)
Definition lockedIdsOf (locked : list LockedSeat) : list string :=
  mjoin (ls_seatIds <$> locked).

(** The loop that disables the locked seats. *)
Definition disableLocked (locked : list LockedSeat) (lotterySeats : list Seat)
  : list Seat :=
  let lockedSeatIds : gset string := list_to_set (lockedIdsOf locked) in
  (fun seat =>
     if decide (seat_id seat ∈ lockedSeatIds)
     then {| seat_id := seat_id seat; seat_x := seat_x seat; seat_y := seat_y seat;
             isPremium := isPremium seat; isDisabled := true;
             row := row seat; col := col seat; blockId := blockId seat |}
     else seat) <$> lotterySeats.

Definition toApplication (app : LotteryApplication) : Application :=
  {| app_id := lapp_id app;
     groupSize := lapp_groupSize app;
     isInvitation := lapp_isInvitation app;
     isRelation := lapp_isRelation app;
     pastScore := lapp_pastScore app;
     lastResult := lapp_lastResult app;
     memberId := Some (lapp_memberId app);
     name := Some (lapp_name app);
     address := Some (lapp_address app);
     tags := Some (lapp_tags app) |}.

(** [applications.find((a) => a.id === id)] *)
Definition findLotteryApplication (applications : list LotteryApplication)
    (i : string) : option LotteryApplication :=
  List.find (fun a => String.eqb (lapp_id a) i) applications.

(** The callback of [result.assignments.map], with the counter
    [colorIndex] it increments.  The index into [GROUP_COLORS] is below
    its length. *)
Definition colourAssignment (applications : list LotteryApplication)
    (acc : list LotteryAssignment * nat) (assignment : Assignment)
  : list LotteryAssignment * nat :=
  let '(done, colorIndex) := acc in
  let app := findLotteryApplication applications (applicationId assignment) in
  let '(color, colorIndex') :=
    if from_option lapp_isInvitation false app then (INVITATION_COLOR, colorIndex)
    else if from_option lapp_isRelation false app then (RELATION_COLOR, colorIndex)
    else if decide (tier assignment = Tier2) then (RESCUE_COLOR, colorIndex)
    else (default EmptyString
            (GROUP_COLORS !! (colorIndex `mod` length GROUP_COLORS)%nat),
          S colorIndex) in
  (done ++ [{| la_applicationId := applicationId assignment;
               la_seatIds := seatIds assignment;
               la_totalScore := totalScore assignment;
               la_color := color;
               la_isInvitation := from_option lapp_isInvitation false app;
               la_isRelation := from_option lapp_isRelation false app;
               la_groupSize := from_option lapp_groupSize 1 app;
               la_pastScore := from_option lapp_pastScore 0%Q app;
               la_tier := TierOfLottery (tier assignment);
               la_seatQuality := seatQuality assignment;
               la_memberId := from_option lapp_memberId EmptyString app;
               la_name := from_option lapp_name EmptyString app;
               la_address := from_option lapp_address EmptyString app |}],
   colorIndex').

Definition colouredAssignments (applications : list LotteryApplication)
    (assignments : list Assignment) : list LotteryAssignment :=
  (fold_left (colourAssignment applications) assignments ([], 0%nat)).1.

Definition lockedAssignment (locked : LockedSeat) : LotteryAssignment :=
  {| la_applicationId := ls_customerId locked;
     la_seatIds := ls_seatIds locked;
     la_totalScore := 0;
     la_color := RELATION_COLOR;
     la_isInvitation := false;
     la_isRelation := true;
     la_groupSize := ls_groupSize locked;
     la_pastScore := 0;
     la_tier := Tier0;
     la_seatQuality := None;
     la_memberId := EmptyString;
     la_name := ls_customerName locked;
     la_address := EmptyString |}.

(** [for (const locked of lockedSeats) newAssignments.unshift(...)] *)
Definition unshiftLocked (locked : list LockedSeat)
    (newAssignments : list LotteryAssignment) : list LotteryAssignment :=
  fold_left (fun acc l => lockedAssignment l :: acc) locked newAssignments.

(** The two loops that fill [newMap]. *)
Definition seatMapOf (newAssignments : list LotteryAssignment)
  : gmap string LotteryAssignment :=
  fold_left
    (fun newMap assignment =>
       fold_left (fun newMap seatId => <[seatId := assignment]> newMap)
                 (la_seatIds assignment) newMap)
    newAssignments ∅.

(** [None] is the [null] returned without a run. *)
Definition runLottery (applications : list LotteryApplication)
    (stage : Point) (skill : Q) (locked : list LockedSeat)
    (blocks : list SeatBlock) : completion (option RunOutcome) :=
  if (length_Z applications =? 0) || (length_Z blocks =? 0) then Normal None
  else
    let lotterySeats := disableLocked locked (lotterySeatsOf blocks) in
    let config :=
      {| stagePosition := stage; skillWeight := Some skill; randomFn := None |} in
    let lotteryApplications := toApplication <$> applications in
    result ←! assignSeats lotterySeats lotteryApplications config;
    let updates :=
      calculateScoreUpdates (assignments result) (unassigned result)
        lotteryApplications in
    let newAssignments :=
      unshiftLocked locked (colouredAssignments applications (assignments result)) in
    Normal (Some {| ro_result := result;
                    ro_scoreUpdates := updates;
                    ro_assignments := newAssignments;
                    ro_seatAssignmentMap := seatMapOf newAssignments |}).

(** ** The locks *)

Definition startLocking (customer : Customer) (st : LockState) : LockState :=
  {| lockedSeats := lockedSeats st;
     lockingState :=
       Some {| lk_customer := customer;
               remainingSeats := default 1 (cust_groupSize customer);
               placedSeatIds := [] |} |}.

Definition cancelLocking (st : LockState) : LockState :=
  {| lockedSeats :=
       match lockingState st with
       | Some lk =>
           if 0 <? length_Z (placedSeatIds lk) then
             let placedIds : gset string := list_to_set (placedSeatIds lk) in
             filter (fun ls => ls_seatId ls ∉ placedIds) (lockedSeats st)
           else lockedSeats st
       | None => lockedSeats st
       end;
     lockingState := None |}.

(** [newPlacedSeatIds[0]] of the list [placed ++ [seatId]]. *)
Definition baseSeatOf (placed : list string) (seatId : string) : string :=
  match placed with
  | [] => seatId
  | first :: _ => first
  end.

Definition handleLockSeatClick (seatId : string) (st : LockState) : LockState :=
  match lockingState st with
  | None => st
  | Some lk =>
      let allLockedSeatIds : gset string :=
        list_to_set (lockedIdsOf (lockedSeats st)) in
      if decide (seatId ∈ allLockedSeatIds) then st
      else if decide (seatId ∈ placedSeatIds lk) then st
      else
        let newPlacedSeatIds := placedSeatIds lk ++ [seatId] in
        let newRemaining := remainingSeats lk - 1 in
        if newRemaining <=? 0 then
          {| lockedSeats :=
               lockedSeats st ++
               [{| ls_seatId := baseSeatOf (placedSeatIds lk) seatId;
                   ls_customerId := cust_id (lk_customer lk);
                   ls_customerName := cust_name (lk_customer lk);
                   ls_groupSize := default 1 (cust_groupSize (lk_customer lk));
                   ls_seatIds := newPlacedSeatIds |}];
             lockingState := None |}
        else
          {| lockedSeats := lockedSeats st;
             lockingState :=
               Some {| lk_customer := lk_customer lk;
                       remainingSeats := newRemaining;
                       placedSeatIds := newPlacedSeatIds |} |}
  end.

Definition unlockCustomer (customerId : string) (st : LockState) : LockState :=
  {| lockedSeats :=
       filter (fun ls => ls_customerId ls ≠ customerId) (lockedSeats st);
     lockingState := lockingState st |}.

(** What [reset] does to the locks; this is also their first state. *)
Definition noLocks : LockState := {| lockedSeats := []; lockingState := None |}.

Definition lockStep (st : LockState) (e : LockEvent) : LockState :=
  match e with
  | StartLocking customer => startLocking customer st
  | CancelLocking => cancelLocking st
  | LockSeatClick seatId => handleLockSeatClick seatId st
  | UnlockCustomer customerId => unlockCustomer customerId st
  | Reset => noLocks
  end.

(** The locks after a sequence of events. *)
Definition locksAfter (events : list LockEvent) : LockState :=
  fold_left lockStep events noLocks.

(** ** The vocabulary of the properties of the hook *)

(** The lists of [ls] have no element in common, two by two. *)
Definition disjointLists (ls : list (list string)) : Prop :=
  ∀ (j k : nat) a b i,
    j ≠ k → ls !! j = Some a → ls !! k = Some b → i ∈ a → i ∉ b.

(** What the handlers keep of the locks. *)
Record locksOk (st : LockState) : Prop := {
  locks_distinct : NoDup (lockedIdsOf (lockedSeats st));
  locks_party :
    ∀ ls, ls ∈ lockedSeats st →
      head (ls_seatIds ls) = Some (ls_seatId ls)
      ∧ length_Z (ls_seatIds ls) = Z.max 1 (ls_groupSize ls);
  locks_placing :
    ∀ lk, lockingState st = Some lk →
      NoDup (placedSeatIds lk)
      ∧ (∀ i, i ∈ placedSeatIds lk → i ∉ lockedIdsOf (lockedSeats st))
      ∧ length_Z (placedSeatIds lk) + remainingSeats lk
        = default 1 (cust_groupSize (lk_customer lk))
      ∧ (placedSeatIds lk = [] ∨ 1 ≤ remainingSeats lk);
}.

End Hook.

(** * Concrete inputs *)

Module Examples.

(** An under-approximation of the square root: the integer square root
    of the integral part. *)
Definition sqrt_floor (q : Q) : Q := inject_Z (Z.sqrt (Qfloor q)).

(** A generator that always answers one half. *)
Definition half (k : nat) : Q := 1 # 2.

#[export] Instance exampleMath : MathLibrary :=
  {| Math_sqrt := sqrt_floor; Math_random := half |}.

Definition seatAt (i : string) (x : Z) (r c : Z) (premium disabled : bool) : Seat :=
  {| seat_id := i; seat_x := inject_Z x; seat_y := 0; isPremium := premium;
     isDisabled := disabled; row := Some r; col := Some c; blockId := Some "A" |}.

Definition applicant (i : string) (size : Z) (invitation relation : bool)
    (past : Q) (last : option LastResult) : Application :=
  {| app_id := i; groupSize := size; isInvitation := invitation;
     isRelation := relation; pastScore := past; lastResult := last;
     memberId := None; name := None; address := None; tags := None |}.

Definition config : LotteryConfig :=
  {| stagePosition := {| px := 0; py := 0 |};
     skillWeight := None;
     randomFn := Some half |}.

Definition closedSeats : list Seat :=
  [seatAt "s1" 10 0 0 false true; seatAt "s2" 20 0 1 true true].

Definition twoApplicants : list Application :=
  [applicant "a" 1 false false 5 None; applicant "b" 2 false false 7 (Some lose)].

(** A priority applicant whose stored score is 0. *)
Definition guest : Application := applicant "guest" 1 true false 0 None.

(** A run with four open seats in one row, the third one premium. *)
Definition openSeats : list Seat :=
  [seatAt "s1" 10 0 0 false false; seatAt "s2" 20 0 1 false false;
   seatAt "s3" 30 0 2 true false; seatAt "s4" 40 0 3 false false;
   seatAt "s5" 50 0 4 false true].

Definition sixApplicants : list Application :=
  [applicant "a" 1 false false 5 None;
   applicant "b" 2 false false 7 (Some lose);
   applicant "c" 1 true false 3 None;
   applicant "d" 3 false true 3 None;
   applicant "e" 1 false false 9 None;
   applicant "f" 1 false false 2 (Some win)].

Definition exampleRun : completion LotteryResult :=
  assignSeats openSeats sixApplicants config.

Definition exampleResult : LotteryResult :=
  Eval vm_compute in
    match exampleRun with
    | Normal r => r
    | TypeError => emptyResult [] []
    end.

Definition firstAssignment : Assignment :=
  Eval vm_compute in default (Build_Assignment EmptyString [] 0 Tier1 None)
                       (assignments exampleResult !! 0%nat).

Definition secondAssignment : Assignment :=
  Eval vm_compute in default (Build_Assignment EmptyString [] 0 Tier1 None)
                       (assignments exampleResult !! 1%nat).

(** Scenario B, with the rescue applicant first in the input. *)
Definition oneSeat : list Seat :=
  [seatAt "closed" 5 0 0 true true; seatAt "only" 10 0 1 false false].

Definition invited : Application := applicant "invited" 1 true false 4 None.
Definition rescued : Application := applicant "rescued" 1 false false 9 (Some lose).

(** A seat without row, col and blockId, and a seat at row 0, col 1
    without a blockId. *)
Definition bare : SeatWithScore :=
  {| seat := {| seat_id := "bare"; seat_x := 0; seat_y := 0; isPremium := false;
                isDisabled := false; row := None; col := None; blockId := None |};
     score := 50; distanceFromStage := 5 |}.

Definition beside : SeatWithScore :=
  {| seat := {| seat_id := "beside"; seat_x := 1; seat_y := 0; isPremium := false;
                isDisabled := false; row := Some 0; col := Some 1; blockId := None |};
     score := 40; distanceFromStage := 6 |}.

Definition bareChunk : SeatChunk :=
  Eval vm_compute in
    default (Build_SeatChunk [] 0 EmptyString None 0) (head (buildAllChunks [bare; beside])).


(** ** Inputs of the further properties *)

(** Two assignments outside Tier 1, the second with the higher score. *)
Definition lowRated : Assignment :=
  {| applicationId := "low"; seatIds := ["s1"]; totalScore := 30;
     tier := Tier3; seatQuality := None |}.

Definition highRated : Assignment :=
  {| applicationId := "high"; seatIds := ["s2"]; totalScore := 50;
     tier := Tier2; seatQuality := None |}.

(** Applicants that ask for no seat. *)
Definition emptyParties : list Application :=
  [applicant "z" 0 false false 5 None; applicant "y" 0 true false 5 None].

(** The result of scenario B. *)
Definition oneSeatResult : LotteryResult :=
  Eval vm_compute in
    match assignSeats oneSeat [rescued; invited] config with
    | Normal r => r
    | TypeError => emptyResult [] []
    end.

(** The scored seats of the run with four open seats. *)
Definition scoredOpenSeats : list SeatWithScore :=
  Eval vm_compute in
    scoreSeats (stagePosition config)
      (filter (fun s => isDisabled s = false) openSeats).

Definition nearSeat : SeatWithScore :=
  Eval vm_compute in default bare (scoredOpenSeats !! 0%nat).

Definition farSeat : SeatWithScore :=
  Eval vm_compute in default bare (scoredOpenSeats !! 3%nat).

(** The cosine and the sine of the angle 0, for blocks that are not
    rotated. *)
#[export] Instance exampleTrig : Trigonometry :=
  {| Math_PI := 355 # 113; Math_cos := fun _ => 1%Q; Math_sin := fun _ => 0%Q |}.

Definition venueSeat (i : string) (c : Z) : VenueSeat :=
  {| vs_id := i; vs_row := 0; vs_col := c; localX := inject_Z (10 * c);
     localY := 0; vs_isPremium := false; vs_isDisabled := false |}.

(** A block of one row of four seats. *)
Definition frontBlock : SeatBlock :=
  {| block_id := "A"; block_x := 10; block_y := 0; rotation := 0;
     scaleX := 1; scaleY := 1;
     block_seats := [venueSeat "a1" 0; venueSeat "a2" 1; venueSeat "a3" 2;
                     venueSeat "a4" 3] |}.

Definition staff : Customer :=
  {| cust_id := "staff"; cust_name := "Staff"; cust_groupSize := Some 2 |}.

(** The lock of two seats for [staff]. *)
Definition lockEvents : list LockEvent :=
  [StartLocking staff; LockSeatClick "a1"; LockSeatClick "a1"; LockSeatClick "a2"].

Definition staffLock : LockedSeat :=
  {| ls_seatId := "a1"; ls_customerId := "staff"; ls_customerName := "Staff";
     ls_groupSize := 2; ls_seatIds := ["a1"; "a2"] |}.

Definition member (i : string) (size : Z) (past : Q) : LotteryApplication :=
  {| lapp_id := i; lapp_groupSize := size; lapp_isInvitation := false;
     lapp_isRelation := false; lapp_pastScore := past; lapp_lastResult := None;
     lapp_memberId := "M" +:+ i; lapp_name := i; lapp_address := "Tokyo";
     lapp_tags := ["fanclub"] |}.

Definition members : list LotteryApplication :=
  [member "m1" 1 5; member "m2" 2 7].

Definition hookOutcome : RunOutcome :=
  Eval vm_compute in
    match runLottery members {| px := 0; py := 0 |} (7 # 10) [staffLock] [frontBlock] with
    | Normal (Some out) => out
    | _ => {| ro_result := emptyResult [] []; ro_scoreUpdates := [];
              ro_assignments := []; ro_seatAssignmentMap := ∅ |}
    end.

(** The assignment that the hook lists for the lock. *)
Definition staffAssignment : LotteryAssignment :=
  Eval vm_compute in lockedAssignment staffLock.

(** ** Two seats at one place *)

(** A seat without coordinates: it counts as row 0, col 0 of the default
    block. *)
Definition placeless (i : string) (sc : Q) : SeatWithScore :=
  {| seat := {| seat_id := i; seat_x := 0; seat_y := 0; isPremium := false;
                isDisabled := false; row := None; col := None; blockId := None |};
     score := sc; distanceFromStage := 0 |}.

Definition seatX : SeatWithScore := placeless "X" 90.

Definition seatY : SeatWithScore := placeless "Y" 10.

(** The seat at col 1 of the same row. *)
Definition seatZ : SeatWithScore :=
  {| seat := {| seat_id := "Z"; seat_x := 1; seat_y := 0; isPremium := false;
                isDisabled := false; row := Some 0; col := Some 1; blockId := None |};
     score := 80; distanceFromStage := 1 |}.

Definition twoAtOnePlace : list SeatWithScore := [seatX; seatY; seatZ].

End Examples.

(** * Properties *)

Section Properties.

Context {math : MathLibrary}.

Lemma Qltb_lt (a b : Q) : Qltb a b = true ↔ (a < b)%Q.
Proof.
  unfold Qltb. rewrite negb_true_iff, <- not_true_iff_false, Qle_bool_iff.
  split; [apply Qnot_le_lt | apply Qlt_not_le].
Qed.

Lemma Qltb_ge (a b : Q) : Qltb a b = false ↔ (b <= a)%Q.
Proof.
  unfold Qltb. rewrite negb_false_iff. apply Qle_bool_iff.
Qed.

Ltac Qcompare_hyps :=
  repeat match goal with
    | H : Qltb _ _ = true |- _ => apply Qltb_lt in H
    | H : Qltb _ _ = false |- _ => apply Qltb_ge in H
    | H : Qle_bool _ _ = true |- _ => apply Qle_bool_iff in H
    end.

(** ** Score updater *)

Lemma max_min_clamp (x : Q) :
  (Qmax minScore (Qmin maxScore x) == clamp x 1 10)%Q.
Proof.
  unfold clamp, minScore, maxScore.
  destruct (Qltb x 1) eqn:Hlo; Qcompare_hyps.
  - rewrite Q.max_l; [reflexivity |].
    apply Qle_trans with x; [apply Q.le_min_r | lra].
  - destruct (Qltb 10 x) eqn:Hhi; Qcompare_hyps.
    + rewrite Q.min_l by lra. rewrite Q.max_r by lra. reflexivity.
    + rewrite Q.min_r by lra. rewrite Q.max_r by lra. reflexivity.
Qed.

Lemma clamp_compat (x y lo hi : Q) :
  (x == y)%Q → (clamp x lo hi == clamp y lo hi)%Q.
Proof.
  intros Hxy. unfold clamp.
  destruct (Qltb x lo) eqn:H1, (Qltb y lo) eqn:H2,
    (Qltb hi x) eqn:H3, (Qltb hi y) eqn:H4; Qcompare_hyps; lra.
Qed.

Lemma max_min_bounds (x : Q) :
  (1 <= Qmax minScore (Qmin maxScore x) <= 10)%Q.
Proof.
  unfold minScore, maxScore. split.
  - apply Q.le_max_l.
  - apply Q.max_lub; [lra | apply Q.le_min_l].
Qed.

Lemma fold_pushUpdate {A} (f : A → option ScoreUpdate) (l : list A)
    (updates : list ScoreUpdate) :
  fold_left (fun updates a => pushUpdate updates (f a)) l updates
  = updates ++ omap f l.
Proof.
  revert updates. induction l as [| a l IH]; intros updates; simpl.
  - by rewrite app_nil_r.
  - rewrite IH. destruct (f a); simpl; [by rewrite <- app_assoc | done].
Qed.

(** The two loops push, in order, one update for every assignment and
    then one for every unassigned id that has an application. *)
Lemma calculateScoreUpdates_omap assignments unassigned applications :
  calculateScoreUpdates assignments unassigned applications
  = omap (updateOfAssignment applications) assignments
    ++ omap (updateOfUnassigned applications) unassigned.
Proof.
  unfold calculateScoreUpdates. by rewrite !fold_pushUpdate.
Qed.

Lemma findApp_matched applications i :
  matched applications i = bool_decide (is_Some (findApp applications i)).
Proof.
  unfold matched, findApp.
  induction applications as [| ap l IH]; simpl; [done |].
  by destruct (String.eqb (app_id ap) i).
Qed.

Lemma findApp_Some applications i app :
  findApp applications i = Some app → app ∈ applications ∧ app_id app = i.
Proof.
  unfold findApp. intros H. apply find_some in H as [Hin Heq].
  split; [by apply list_elem_of_In | by apply String.eqb_eq].
Qed.

Lemma qualityChange_delta label :
  (qualityChange (default normal label) == qualityDelta label)%Q.
Proof. by destruct label as [[]|]. Qed.

Lemma omap_Forall2 {A B} (f : A → option B) (keep : A → bool) (R : A → B → Prop)
    (l : list A) :
  (∀ a, keep a = false → f a = None) →
  (∀ a, keep a = true → ∃ b, f a = Some b ∧ R a b) →
  Forall2 R (List.filter keep l) (omap f l).
Proof.
  intros Hskip Hkeep. induction l as [| a l IH]; simpl; [constructor |].
  destruct (keep a) eqn:Hk.
  - destruct (Hkeep a Hk) as (b & -> & HR). by constructor.
  - by rewrite (Hskip a Hk).
Qed.

Lemma updateOfAssignment_spec applications a :
  matched applications (applicationId a) = true →
  ∃ u, updateOfAssignment applications a = Some u ∧ seatedSpec applications a u.
Proof.
  rewrite findApp_matched, bool_decide_eq_true. intros [app Happ].
  unfold updateOfAssignment, seatedSpec. rewrite Happ.
  destruct (isInvitation app || isRelation app) eqn:Hp;
    eexists; (split; [reflexivity |]); exists app; rewrite Hp;
    cbn [su_applicationId currentScore nextScore change]; split_and!; try done.
  rewrite max_min_clamp. apply clamp_compat.
  by rewrite qualityChange_delta.
Qed.

Lemma updateOfUnassigned_spec applications i :
  matched applications i = true →
  ∃ u, updateOfUnassigned applications i = Some u ∧ unseatedSpec applications i u.
Proof.
  rewrite findApp_matched, bool_decide_eq_true. intros [app Happ].
  unfold updateOfUnassigned, unseatedSpec. rewrite Happ.
  destruct (isInvitation app || isRelation app) eqn:Hp;
    eexists; (split; [reflexivity |]); exists app; rewrite Hp;
    cbn [su_applicationId currentScore nextScore change]; split_and!; try done.
  by rewrite max_min_clamp.
Qed.

Lemma update_unmatched applications i :
  matched applications i = false →
  findApp applications i = None.
Proof.
  rewrite findApp_matched, bool_decide_eq_false.
  destruct (findApp applications i); [intros []; by eexists | done].
Qed.

(** C4: the updates are, in order, one for each assignment with a
    matching application and then one for each unassigned id with a
    matching application; a seated non-priority applicant gets
    clamp(pastScore + delta(label), 1, 10) with delta top -4, good -1.5,
    normal 0, back +1.5, far +4, an unseated non-priority applicant gets
    clamp(pastScore + 6, 1, 10), and a priority applicant keeps pastScore
    with change 0 in both loops. *)
Theorem calculateScoreUpdates_next_score assignments unassigned applications :
  ∃ seated unseated,
    calculateScoreUpdates assignments unassigned applications = seated ++ unseated
    ∧ Forall2 (seatedSpec applications)
        (List.filter (fun a => matched applications (applicationId a)) assignments)
        seated
    ∧ Forall2 (unseatedSpec applications)
        (List.filter (matched applications) unassigned)
        unseated.
Proof.
  eexists _, _. split; [apply calculateScoreUpdates_omap |]. split.
  - apply omap_Forall2.
    + intros a Ha. unfold updateOfAssignment. by rewrite update_unmatched.
    + apply updateOfAssignment_spec.
  - apply omap_Forall2.
    + intros i Hi. unfold updateOfUnassigned. by rewrite update_unmatched.
    + apply updateOfUnassigned_spec.
Qed.

Lemma Forall2_fmap_eq {A B C} (R : A → B → Prop) (f : A → C) (g : B → C)
    (l : list A) (k : list B) :
  (∀ a b, R a b → g b = f a) → Forall2 R l k → g <$> k = f <$> l.
Proof.
  intros HR H. induction H as [| a b l k Hab _ IH]; csimpl; [done |].
  by rewrite (HR a b Hab), IH.
Qed.

Lemma filter_fmap_comm {A B} (f : A → B) (p : B → bool) (l : list A) :
  List.filter p (f <$> l) = f <$> List.filter (fun a => p (f a)) l.
Proof.
  induction l as [| a l IH]; csimpl; [done |].
  destruct (p (f a)); csimpl; by rewrite IH.
Qed.

(** C10: the ids of the returned updates are exactly, in order, the
    applicationIds of the assignments and then the unassigned ids that
    have an application with the same id; an entry without one
    contributes nothing, and the function is total: it cannot raise. *)
Theorem calculateScoreUpdates_matched_only assignments unassigned applications :
  su_applicationId <$> calculateScoreUpdates assignments unassigned applications
  = List.filter (matched applications) (applicationId <$> assignments)
    ++ List.filter (matched applications) unassigned
  ∧ length (calculateScoreUpdates assignments unassigned applications)
    = (length (List.filter (fun a => matched applications (applicationId a)) assignments)
       + length (List.filter (matched applications) unassigned))%nat.
Proof.
  rewrite calculateScoreUpdates_omap.
  assert (Forall2 (seatedSpec applications)
            (List.filter (fun a => matched applications (applicationId a)) assignments)
            (omap (updateOfAssignment applications) assignments)) as Hs.
  { apply omap_Forall2; [| apply updateOfAssignment_spec].
    intros a Ha. unfold updateOfAssignment. by rewrite update_unmatched. }
  assert (Forall2 (unseatedSpec applications)
            (List.filter (matched applications) unassigned)
            (omap (updateOfUnassigned applications) unassigned)) as Hu.
  { apply omap_Forall2; [| apply updateOfUnassigned_spec].
    intros i Hi. unfold updateOfUnassigned. by rewrite update_unmatched. }
  split.
  - rewrite fmap_app, filter_fmap_comm. f_equal.
    + eapply Forall2_fmap_eq; [| exact Hs].
      by intros a u (? & _ & ? & _).
    + rewrite <- (list_fmap_id (List.filter _ unassigned)).
      eapply Forall2_fmap_eq; [| exact Hu].
      by intros a u (? & _ & ? & _).
  - rewrite length_app.
    by rewrite <- (Forall2_length _ _ _ Hs), <- (Forall2_length _ _ _ Hu).
Qed.

(** C8, amended: every update belongs to an application of the input
    with the same id; for a non-priority applicant the next score lies
    in [1, 10], for a priority applicant it is the stored pastScore,
    passed through without a clamp. *)
Theorem calculateScoreUpdates_bounds assignments unassigned applications u :
  u ∈ calculateScoreUpdates assignments unassigned applications →
  ∃ app, app ∈ applications
    ∧ app_id app = su_applicationId u
    ∧ if isInvitation app || isRelation app
      then nextScore u = pastScore app
      else (1 <= nextScore u <= 10)%Q.
Proof.
  rewrite calculateScoreUpdates_omap, elem_of_app, !list_elem_of_omap.
  intros [(a & _ & Hu) | (i & _ & Hu)].
  - unfold updateOfAssignment in Hu.
    destruct (findApp applications (applicationId a)) as [app |] eqn:Happ; [| done].
    apply findApp_Some in Happ as [Hin Hid]. exists app.
    destruct (isInvitation app || isRelation app); simplify_eq; simpl;
      split_and!; try done.
    all: apply max_min_bounds.
  - unfold updateOfUnassigned in Hu.
    destruct (findApp applications i) as [app |] eqn:Happ; [| done].
    apply findApp_Some in Happ as [Hin Hid]. exists app.
    destruct (isInvitation app || isRelation app); simplify_eq; simpl;
      split_and!; try done.
    all: apply max_min_bounds.
Qed.

(** ** Degenerate input *)

(** C9: without an available seat, or without an applicant, the run
    returns normally: no assignment, the id of every applicant in
    [unassigned] in the order of the input, and zero statistics. *)
Theorem assignSeats_degenerate seats applications config :
  filter (fun s => isDisabled s = false) seats = [] ∨ applications = [] →
  ∃ r, assignSeats seats applications config = Normal r
    ∧ assignments r = []
    ∧ unassigned r = app_id <$> applications
    ∧ availableSeats (stats r) = 0
    ∧ totalPeopleAssigned (stats r) = 0
    ∧ averageScore (stats r) = 0%Q
    ∧ tier1Count (stats r) = 0
    ∧ tier2Count (stats r) = 0
    ∧ tier3Count (stats r) = 0
    ∧ tier2OverflowCount (stats r) = 0.
Proof.
  intros H. exists (emptyResult seats applications).
  split; [| by repeat split].
  unfold assignSeats. destruct H as [-> | ->]; [done |].
  by rewrite orb_true_r.
Qed.

(** ** Geometry scorer *)

Section GeometryScorer.

(** A square root is not negative. *)
Hypothesis Math_sqrt_nonneg : ∀ q, (0 <= Math_sqrt q)%Q.

Lemma calculateDistance_nonneg x1 y1 x2 y2 :
  (0 <= calculateDistance x1 y1 x2 y2)%Q.
Proof. apply Math_sqrt_nonneg. Qed.

Lemma distanceScore_range (distance maxDistance : Q) :
  (0 <= distance)%Q → (0 < maxDistance)%Q →
  (0 <= Qmax 0 (100 - (distance / maxDistance) * 100) <= 100)%Q.
Proof.
  intros Hd Hm. split; [apply Q.le_max_l |].
  apply Q.max_lub; [lra |].
  assert (0 <= distance / maxDistance)%Q.
  { apply Qle_shift_div_l; [done | lra]. }
  lra.
Qed.

(** C5: the score is max(0, 100 - distance / maxDistance * 100), plus
    1000 for a premium seat, where distance is the Euclidean distance
    to the stage; so for a positive maxDistance a premium seat scores
    strictly more than a seat that is not premium, wherever the two
    are. *)
Theorem calculateSeatScore_premium_outranks :
  (∀ s stage maxDistance,
     let distance :=
       Math_sqrt ((px stage - seat_x s) ^ 2 + (py stage - seat_y s) ^ 2)%Q in
     distanceFromStage (calculateSeatScore s stage maxDistance) = distance
     ∧ score (calculateSeatScore s stage maxDistance)
       = (Qmax 0 (100 - (distance / maxDistance) * 100)
          + (if isPremium s then 1000 else 0))%Q)
  ∧ (∀ p n stage maxDistance,
       (0 < maxDistance)%Q →
       isPremium p = true → isPremium n = false →
       (score (calculateSeatScore n stage maxDistance)
        < score (calculateSeatScore p stage maxDistance))%Q).
Proof.
  split; [done |].
  intros p n stage maxDistance Hm Hp Hn.
  unfold calculateSeatScore. cbn [score]. rewrite Hp, Hn.
  pose proof (distanceScore_range _ _
    (calculateDistance_nonneg (seat_x n) (seat_y n) (px stage) (py stage)) Hm).
  pose proof (distanceScore_range _ _
    (calculateDistance_nonneg (seat_x p) (seat_y p) (px stage) (py stage)) Hm).
  lra.
Qed.

End GeometryScorer.

(** ** Run builder *)

Lemma insert_Permutation {A} (before : A → A → bool) (x : A) (l : list A) :
  JS.insert before x l ≡ₚ x :: l.
Proof.
  induction l as [| y l IH]; simpl; [done |].
  destruct (before x y); [done |].
  rewrite IH. apply Permutation_swap.
Qed.

Lemma sort_Permutation {A} (before : A → A → bool) (l : list A) :
  JS.sort before l ≡ₚ l.
Proof.
  induction l as [| x l IH]; simpl; [done |].
  by rewrite insert_Permutation, IH.
Qed.

Lemma elem_of_sort {A} (before : A → A → bool) (l : list A) (x : A) :
  x ∈ JS.sort before l ↔ x ∈ l.
Proof. by rewrite sort_Permutation. Qed.

Lemma grouped_push_ok (P : SeatWithScore → Prop) (s : SeatWithScore) grouped :
  P s → groupedOk P grouped → groupedOk P (grouped_push (groupKey s) s grouped).
Proof.
  intros Hs. unfold groupedOk.
  induction grouped as [| [k rs] g IH]; simpl; intros Hg.
  - repeat constructor; done.
  - inversion_clear Hg as [| ? ? Hrs Hrest].
    destruct (String.eqb k (groupKey s)) eqn:Hk.
    + apply String.eqb_eq in Hk. constructor; [| done].
      simpl in *. apply Forall_app. split; [done |].
      by repeat constructor.
    + constructor; [done | by apply IH].
Qed.

Lemma groupedOk_mono (P P' : SeatWithScore → Prop) grouped :
  (∀ s, P s → P' s) → groupedOk P grouped → groupedOk P' grouped.
Proof.
  intros HPQ Hg. unfold groupedOk in *.
  eapply Forall_impl; [exact Hg |]. intros e He. simpl in *.
  eapply Forall_impl; [exact He |]. intros t [? ?]. split; [done | by apply HPQ].
Qed.

Lemma groupSeats_ok (l : list SeatWithScore) :
  groupedOk (fun s => s ∈ l) (groupSeats l).
Proof.
  unfold groupSeats.
  assert (∀ done_ todo grouped,
    groupedOk (fun s => s ∈ done_) grouped →
    groupedOk (fun s => s ∈ done_ ++ todo)
      (fold_left (fun grouped (s : SeatWithScore) =>
                    grouped_push (groupKey s) s grouped) todo grouped)) as Hgen.
  { intros done_ todo. revert done_.
    induction todo as [| s todo IH]; intros done_ grouped Hg; simpl.
    - by rewrite app_nil_r.
    - replace (done_ ++ s :: todo) with ((done_ ++ [s]) ++ todo)
        by (by rewrite <- app_assoc).
      apply IH. apply grouped_push_ok; [set_solver |].
      eapply groupedOk_mono; [| exact Hg]. set_solver. }
  apply (Hgen [] l []). constructor.
Qed.

Lemma cutRuns_spec (cur : list SeatWithScore) (prev : SeatWithScore)
    (rest : list SeatWithScore) (c : Z) :
  cur ≠ [] →
  (fun s : SeatWithScore => col0 s) <$> cur = seqZ c (length_Z cur) →
  col0 prev = c + length_Z cur - 1 →
  Forall (fun run => run ≠ [] ∧ consecutive run ∧ run ⊆ cur ++ rest)
         (cutRuns cur prev rest).
Proof.
  revert cur prev c.
  induction rest as [| s rest IH]; intros cur prev c Hne Hcols Hprev; simpl.
  - repeat constructor; [done | by exists c | by rewrite app_nil_r].
  - destruct (col0 s =? col0 prev + 1) eqn:Hs.
    + apply Z.eqb_eq in Hs.
      eapply Forall_impl; [apply (IH (cur ++ [s]) s c) |].
      * by destruct cur.
      * rewrite fmap_app, Hcols. unfold length_Z. rewrite length_app. simpl.
        replace (Z.of_nat (length cur + 1)) with (Z.of_nat (S (length cur))) by lia.
        rewrite seqZ_S. f_equal. simpl. f_equal. unfold length_Z in Hprev. lia.
      * unfold length_Z in *. rewrite length_app. simpl. lia.
      * intros run (? & ? & Hsub). split_and!; try done.
        by rewrite <- app_assoc in Hsub.
    + constructor.
      * split_and!; [done | by exists c | set_solver].
      * eapply Forall_impl; [apply (IH [s] s (col0 s)); try done |].
        -- unfold length_Z. simpl. lia.
        -- intros run (? & ? & Hsub). split_and!; try done. set_solver.
Qed.

Lemma rowRuns_spec (rowSeats : list SeatWithScore) :
  Forall (fun run => run ≠ [] ∧ consecutive run ∧ run ⊆ rowSeats) (rowRuns rowSeats).
Proof.
  destruct rowSeats as [| s rest]; simpl; [constructor |].
  apply (cutRuns_spec [s] s rest (col0 s)); try done.
  unfold length_Z. simpl. lia.
Qed.

Lemma consecutive_startCol (run : list SeatWithScore) :
  consecutive run →
  (fun s : SeatWithScore => col0 s) <$> run
  = seqZ (from_option (fun s : SeatWithScore => col0 s) 0 (head run)) (length_Z run).
Proof.
  intros [c Hc]. rewrite Hc. destruct run as [| s run]; simpl.
  - unfold length_Z. simpl. by rewrite !seqZ_nil.
  - unfold length_Z in Hc. simpl length in Hc.
    rewrite seqZ_cons in Hc by lia. by simplify_eq/=.
Qed.

Lemma buildAllChunks_ok (l : list SeatWithScore) (chunk : SeatChunk) :
  chunk ∈ buildAllChunks l → chunkOk l chunk.
Proof.
  unfold buildAllChunks. rewrite list_elem_of_join.
  intros (chunks & Hchunk & Hchunks).
  apply list_elem_of_fmap in Hchunks as ([key rowSeats] & -> & Hentry).
  pose proof (groupSeats_ok l) as Hok. unfold groupedOk in Hok.
  rewrite Forall_forall in Hok. specialize (Hok _ Hentry). simpl in Hok.
  rewrite Forall_forall in Hok.
  unfold chunksOfGroup in Hchunk.
  apply list_elem_of_fmap in Hchunk as (run & -> & Hrun).
  pose proof (rowRuns_spec (JS.sort (fun a b : SeatWithScore => col0 a - col0 b <=? 0) rowSeats)) as Hruns.
  rewrite Forall_forall in Hruns. destruct (Hruns _ Hrun) as (Hne & Hcons & Hsub).
  assert (∀ s : SeatWithScore, s ∈ run → s ∈ rowSeats) as Hin.
  { intros s Hs. apply Hsub in Hs. by apply elem_of_sort in Hs. }
  split; simpl.
  - done.
  - intros s Hs. by apply Hok, Hin.
  - exists key. intros s Hs. by apply Hok, Hin.
  - by apply consecutive_startCol.
Qed.

(** C7, amended: a seat without a row counts as row 0, without a col as
    col 0 and without a blockId as block "default" (that is [groupKey] and
    [col0]); it gets no block of its own.  Every chunk is a non-empty run
    of input seats with one key and with columns startCol, startCol + 1,
    ...; hence two seats that both lack a col are never in one chunk. *)
Theorem buildAllChunks_runs (l : list SeatWithScore) (chunk : SeatChunk) :
  chunk ∈ buildAllChunks l →
  seats chunk ≠ []
  ∧ (∀ s : SeatWithScore, s ∈ seats chunk → s ∈ l)
  ∧ (∃ key, ∀ s : SeatWithScore, s ∈ seats chunk → groupKey s = key)
  ∧ (∀ (i : nat) (s : SeatWithScore),
       seats chunk !! i = Some s → default 0 (col s) = startCol chunk + Z.of_nat i)
  ∧ (∀ (i j : nat) (s t : SeatWithScore),
       seats chunk !! i = Some s → seats chunk !! j = Some t →
       col s = None → col t = None → i = j).
Proof.
  intros Hchunk. destruct (buildAllChunks_ok l chunk Hchunk) as [Hne Hfrom Hkey Hcols].
  assert (∀ (i : nat) (s : SeatWithScore),
            seats chunk !! i = Some s → col0 s = startCol chunk + Z.of_nat i) as Hat.
  { intros i s Hi.
    assert (((fun s : SeatWithScore => col0 s) <$> seats chunk) !! i = Some (col0 s)) as H.
    { by rewrite list_lookup_fmap, Hi. }
    rewrite Hcols in H. by apply lookup_seqZ in H as [? _]. }
  split_and!; try done.
  intros i j s t Hi Hj Hs Ht.
  apply Hat in Hi, Hj. unfold col0 in Hi, Hj. rewrite Hs in Hi. rewrite Ht in Hj.
  simpl in *. lia.
Qed.

(** ** Group allocator *)

Lemma slice_sublist {A} (l : list A) (start end_ : Z) :
  JS.slice l start end_ `sublist_of` l.
Proof.
  unfold JS.slice. etransitivity; [apply sublist_take | apply sublist_drop].
Qed.

Lemma slice_window {A} (l : list A) (i size : Z) :
  0 ≤ i → 1 ≤ size → i + size ≤ length_Z l →
  JS.slice l i (i + size) = take (Z.to_nat size) (drop (Z.to_nat i) l)
  ∧ length_Z (JS.slice l i (i + size)) = size.
Proof.
  unfold length_Z, JS.slice, JS.relIndex. intros Hi Hsize Hlen.
  destruct (i <? 0) eqn:H1; [apply Z.ltb_lt in H1; lia |].
  destruct (i + size <? 0) eqn:H2; [apply Z.ltb_lt in H2; lia |].
  replace (Z.min i (Z.of_nat (length l))) with i by lia.
  replace (Z.max (Z.min (i + size) (Z.of_nat (length l)) - i) 0) with size by lia.
  split; [done |]. rewrite length_take, length_drop. lia.
Qed.

Lemma slice_from_end {A} (l : list A) (end_ : Z) :
  JS.slice l (length_Z l) end_ = [].
Proof.
  unfold length_Z, JS.slice, JS.relIndex.
  destruct (Z.of_nat (length l) <? 0) eqn:H1; [apply Z.ltb_lt in H1; lia |].
  rewrite Z.min_id, Nat2Z.id, drop_all. by destruct (Z.to_nat _).
Qed.

Lemma cmapM_Normal {A B} (f : A → completion B) (l : list A) (bs : list B) :
  cmapM f l = Normal bs ↔ Forall2 (fun a b => f a = Normal b) l bs.
Proof.
  revert bs. induction l as [| a l IH]; intros bs; simpl.
  - split; [intros ?; simplify_eq; constructor | intros H; by inversion H].
  - destruct (f a) as [b |] eqn:Hfa; simpl.
    + destruct (cmapM f l) as [bs' |] eqn:Hl; simpl.
      * split.
        -- intros [= <-]. constructor; [done | by apply IH].
        -- inversion 1 as [| ? b' ? bs'' Hb Hrest]; subst.
           apply IH in Hrest. congruence.
      * split; [done |]. inversion 1 as [| ? b' ? bs'' Hb Hrest]; subst.
        apply IH in Hrest. congruence.
    + split; [done |]. inversion 1; congruence.
Qed.

(** A sub-chunk is a window of [size] seats of its chunk. *)
Lemma getSubChunks_spec (chunk : SeatChunk) (size : Z) (subs : list SeatChunk)
    (c : SeatChunk) :
  getSubChunks chunk size = Normal subs → c ∈ subs →
  1 ≤ size
  ∧ avgScore c = mean_score (seats c)
  ∧ ∃ i : nat, seats c = take (Z.to_nat size) (drop i (seats chunk))
        ∧ length_Z (seats c) = size.
Proof.
  unfold getSubChunks.
  destruct (length_Z (seats chunk) <? size) eqn:Hlt;
    [intros [= <-]; by rewrite elem_of_nil |].
  apply Z.ltb_ge in Hlt. rewrite cmapM_Normal. intros Hall Hc.
  assert (1 ≤ size) as Hsize.
  { destruct (decide (1 ≤ size)) as [| Hn]; [done | exfalso].
    assert (length_Z (seats chunk) ∈ seqZ 0 (length_Z (seats chunk) - size + 1)) as Hin.
    { apply elem_of_seqZ. unfold length_Z. lia. }
    apply list_elem_of_lookup in Hin as [k Hk].
    destruct (Forall2_lookup_l _ _ _ _ _ Hall Hk) as (b & _ & Hb).
    unfold subChunkAt in Hb. by rewrite slice_from_end in Hb. }
  split; [done |].
  apply list_elem_of_lookup in Hc as [k Hk].
  destruct (Forall2_lookup_r _ _ _ _ _ Hall Hk) as (i & Hi & Hsub).
  apply lookup_seqZ in Hi as [-> Hrange].
  unfold subChunkAt in Hsub.
  destruct (slice_window (seats chunk) (0 + Z.of_nat k) size) as [Heq Hlen];
    [lia | done | lia |].
  destruct (JS.slice (seats chunk) (0 + Z.of_nat k) (0 + Z.of_nat k + size))
    as [| s0 rest] eqn:Hslice; [done |].
  injection Hsub as <-. simpl. split; [done |].
  exists k. split; [| done].
  rewrite Heq. f_equal. f_equal. lia.
Qed.

Lemma addBonus_seats adjacent bonus (chunk : SeatChunk) :
  seats (addBonus adjacent bonus chunk) = seats chunk.
Proof.
  unfold addBonus. destruct (head (seats chunk)); [| done].
  by destruct (_ && _).
Qed.

Lemma applySoloBonus_seats groupSize scoredSeats assigned solo cands :
  seats <$> applySoloBonus groupSize scoredSeats assigned solo cands
  = seats <$> cands.
Proof.
  unfold applySoloBonus. destruct solo as [solo |]; [| done].
  destruct (_ && _); [| done]. destruct (0 <? _); [| done].
  rewrite <- list_fmap_compose. apply list_fmap_ext.
  intros ? c _. apply addBonus_seats.
Qed.

Lemma applySoloBonus_group groupSize scoredSeats assigned solo cands :
  groupSize ≠ 1 ∨ solo = None →
  applySoloBonus groupSize scoredSeats assigned solo cands = cands.
Proof.
  unfold applySoloBonus. intros [Hg | ->]; [| done].
  destruct solo; [| done]. by apply Z.eqb_neq in Hg as ->.
Qed.

Lemma candidatesOf_spec groupSize scoredSeats assigned solo cands :
  candidatesOf groupSize scoredSeats assigned solo = Normal (Some cands) →
  cands ≠ []
  ∧ Forall (windowOf groupSize scoredSeats assigned) cands
  ∧ (groupSize ≠ 1 ∨ solo = None →
     Forall (fun c => avgScore c = mean_score (seats c)) cands).
Proof.
  unfold candidatesOf.
  destruct (_ <? groupSize); [done |].
  destruct (cmapM _ _) as [perChunk |] eqn:Hper; simpl; [| done].
  destruct (length_Z (mjoin perChunk) =? 0) eqn:Hlen; [done |].
  intros [= <-]. apply cmapM_Normal in Hper.
  assert (∀ c, c ∈ mjoin perChunk →
            windowOf groupSize scoredSeats assigned c
            ∧ avgScore c = mean_score (seats c)) as Hraw.
  { intros c Hc. apply list_elem_of_join in Hc as (subs & Hc & Hsubs).
    apply list_elem_of_lookup in Hsubs as [k Hk].
    destruct (Forall2_lookup_r _ _ _ _ _ Hper Hk) as (chunk & Hchunk & Hget).
    destruct (getSubChunks_spec _ _ _ _ Hget Hc) as (? & ? & i & ? & ?).
    split; [| done]. split_and!; try done.
    exists chunk, i. split; [| done]. by eapply list_elem_of_lookup_2. }
  split_and!.
  - intros Hnil.
    assert (length (seats <$> applySoloBonus groupSize scoredSeats assigned solo
                      (mjoin perChunk)) = 0%nat) as H0
      by (by rewrite Hnil).
    rewrite applySoloBonus_seats, length_fmap in H0.
    apply Z.eqb_neq in Hlen. unfold length_Z in Hlen. lia.
  - apply Forall_forall. intros c Hc.
    assert (seats c ∈ seats <$> mjoin perChunk) as Hs.
    { rewrite <- (applySoloBonus_seats groupSize scoredSeats assigned solo).
      by apply list_elem_of_fmap_2. }
    apply list_elem_of_fmap in Hs as (c' & Heq & Hc').
    destruct (Hraw c' Hc') as [(? & ? & ?) _].
    unfold windowOf. by rewrite Heq.
  - intros Hno. rewrite applySoloBonus_group by done.
    apply Forall_forall. intros c Hc. by apply Hraw.
Qed.

Lemma sort_desc_head {A} (key : A → Q) (l : list A) (best : A) (rest : list A) :
  JS.sort (fun a b => Qle_bool (key b - key a) 0) l = best :: rest →
  ∃ k, firstBest key l k best.
Proof.
  revert best rest. induction l as [| x l IH]; intros best rest; simpl; [done |].
  destruct (JS.sort _ l) as [| b r] eqn:Hsort; simpl.
  - intros [= <- <-].
    assert (l = []) as ->.
    { apply Permutation_nil_r. by rewrite <- Hsort, sort_Permutation. }
    exists 0%nat. split_and!; [done | | intros; lia].
    intros c Hc. apply list_elem_of_singleton in Hc as ->. lra.
  - destruct (IH b r eq_refl) as (k & Hk & Hmax & Hfirst).
    destruct (Qle_bool (key b - key x) 0) eqn:Hle.
    + intros [= <- <-]. apply Qle_bool_iff in Hle.
      exists 0%nat. split_and!; [done | | intros; lia].
      intros c Hc. apply elem_of_cons in Hc as [-> | Hc]; [lra |].
      specialize (Hmax c Hc). lra.
    + intros [= <- <-].
      assert (key x < key b)%Q as Hlt.
      { apply Qnot_le_lt. intros Hn.
        assert (Qle_bool (key b - key x) 0 = true) as Ht
          by (apply Qle_bool_iff; lra).
        congruence. }
      exists (S k). split_and!; [done | |].
      * intros c Hc. apply elem_of_cons in Hc as [-> | Hc]; [lra | by apply Hmax].
      * intros [| j] c Hj Hc; simpl in Hc; [by simplify_eq |].
        apply (Hfirst j); [lia | done].
Qed.

Lemma findAndAllocateSeats_inv groupSize scoredSeats assigned solo allocated :
  findAndAllocateSeats groupSize scoredSeats assigned solo = Normal (Some allocated) →
  ∃ cands k best,
    candidatesOf groupSize scoredSeats assigned solo = Normal (Some cands)
    ∧ seats best = allocated
    ∧ firstBest avgScore cands k best.
Proof.
  unfold findAndAllocateSeats.
  destruct (candidatesOf _ _ _ _) as [[cands |] |]; simpl; try done.
  destruct (JS.sort byAvgScoreDesc cands) as [| best rest] eqn:Hsort; [done |].
  intros [= <-]. exists cands.
  destruct (sort_desc_head avgScore cands best rest Hsort) as [k Hk].
  by exists k, best.
Qed.

Lemma getSubChunks_complete (chunk : SeatChunk) (size : Z) (subs : list SeatChunk)
    (i : nat) :
  getSubChunks chunk size = Normal subs →
  1 ≤ size → Z.of_nat i + size ≤ length_Z (seats chunk) →
  ∃ c, c ∈ subs ∧ seats c = take (Z.to_nat size) (drop i (seats chunk)).
Proof.
  unfold getSubChunks. intros Hget Hsize Hi.
  destruct (length_Z (seats chunk) <? size) eqn:Hlt;
    [apply Z.ltb_lt in Hlt; lia |].
  apply cmapM_Normal in Hget.
  assert (seqZ 0 (length_Z (seats chunk) - size + 1) !! i = Some (0 + Z.of_nat i))
    as Hk by (apply lookup_seqZ_lt; lia).
  destruct (Forall2_lookup_l _ _ _ _ _ Hget Hk) as (c & Hc & Hsub).
  exists c. split; [by eapply list_elem_of_lookup_2 |].
  unfold subChunkAt in Hsub.
  destruct (slice_window (seats chunk) (0 + Z.of_nat i) size) as [Heq _];
    [lia | done | lia |].
  destruct (JS.slice (seats chunk) (0 + Z.of_nat i) (0 + Z.of_nat i + size))
    as [| s0 rest] eqn:Hslice; [done |].
  injection Hsub as <-. simpl. rewrite Heq. f_equal. f_equal. lia.
Qed.


(** ** Arrays written out of range, and the shuffle *)

Lemma transpose_involutive i j k : transpose i j (transpose i j k) = k.
Proof. unfold transpose. repeat case_decide; congruence. Qed.

Global Instance transpose_inj i j : Inj eq eq (transpose i j).
Proof.
  intros k1 k2 H.
  by rewrite <- (transpose_involutive i j k1), H, transpose_involutive.
Qed.

Lemma get_set {A} (a : JS.array A) (k k' : Z) (v : option A) :
  JS.get (JS.set a k v) k' = if decide (k = k') then v else JS.get a k'.
Proof.
  unfold JS.get, JS.set. simpl. destruct v as [x |].
  - rewrite lookup_insert. by repeat case_decide.
  - rewrite lookup_delete. by repeat case_decide.
Qed.

Lemma swap_items {A} (a : JS.array A) (i j : Z) :
  JS.items (JS.swap a i j) = kmap (transpose i j) (JS.items a).
Proof.
  apply map_eq. intros k.
  rewrite <- (transpose_involutive i j k) at 2. rewrite lookup_kmap by apply _.
  change (JS.get (JS.swap a i j) k = JS.get a (transpose i j k)).
  unfold JS.swap, transpose. simpl. rewrite !get_set.
  repeat case_decide; congruence.
Qed.

Lemma swap_held {A} (a : JS.array A) (i j : Z) :
  held (JS.swap a i j) ≡ₚ held a.
Proof.
  unfold held. rewrite swap_items, map_to_list_kmap by apply _.
  assert (∀ l : list (Z * A), (prod_map (transpose i j) id <$> l).*2 = l.*2) as ->.
  { intros l. rewrite <- list_fmap_compose. apply list_fmap_ext. by intros ? []. }
  done.
Qed.

Lemma set_length {A} (a : JS.array A) (k : Z) (v : option A) :
  JS.alength a ≤ JS.alength (JS.set a k v).
Proof.
  unfold JS.set. simpl.
  destruct (0 <=? k); simpl; [| done].
  destruct (JS.alength a <=? k) eqn:Hk; [| done].
  apply Z.leb_le in Hk. lia.
Qed.

Lemma swap_length {A} (a : JS.array A) (i j : Z) :
  JS.alength a ≤ JS.alength (JS.swap a i j).
Proof.
  unfold JS.swap. etransitivity; apply set_length.
Qed.

Lemma of_list_held {A} (l : list A) : held (JS.of_list l) ≡ₚ l.
Proof.
  unfold held, JS.of_list. simpl. rewrite map_to_list_seqZ.
  rewrite snd_zip; [done |]. rewrite length_seqZ. lia.
Qed.

Lemma elems_of_list {A} (l : list A) : JS.elems (JS.of_list l) = Some <$> l.
Proof.
  unfold JS.elems, JS.of_list, JS.get. simpl.
  apply list_eq. intros i. rewrite !list_lookup_fmap.
  destruct (decide (i < length l)%nat) as [Hi | Hi].
  - rewrite lookup_seqZ_lt by lia. simpl.
    rewrite lookup_map_seqZ_0 by lia. rewrite Z.add_0_l, Nat2Z.id.
    by destruct (lookup_lt_is_Some_2 l i Hi) as [x ->].
  - rewrite lookup_seqZ_ge by lia. by rewrite (lookup_ge_None_2 l i) by lia.
Qed.

(** An array read without a hole that holds no more values than it is
    long holds exactly the values read. *)
Lemma elems_all_held {A} (a : JS.array A) (l : list A) :
  JS.elems a = Some <$> l → (Z.of_nat (length (held a)) ≤ JS.alength a) →
  l ≡ₚ held a.
Proof.
  intros Helems Hsize.
  assert (length l = Z.to_nat (JS.alength a)) as Hlen.
  { rewrite <- (length_fmap Some l), <- Helems. unfold JS.elems.
    by rewrite length_fmap, length_seqZ. }
  assert (map_seqZ 0 l = JS.items a) as Heq.
  { apply map_subseteq_size_eq.
    - apply map_subseteq_spec. intros k x Hk.
      apply lookup_map_seqZ_Some in Hk as [Hk0 Hk].
      assert ((Some <$> l) !! Z.to_nat (k - 0) = Some (Some x)) as Hl
        by (by rewrite list_lookup_fmap, Hk).
      rewrite <- Helems in Hl. unfold JS.elems in Hl.
      rewrite list_lookup_fmap in Hl.
      destruct (seqZ 0 (JS.alength a) !! Z.to_nat (k - 0)) as [k' |] eqn:Hk';
        [| done].
      apply lookup_seqZ in Hk' as [-> _]. simpl in Hl.
      replace (0 + Z.of_nat (Z.to_nat (k - 0))) with k in Hl by lia.
      by simplify_eq.
    - unfold held in Hsize. rewrite length_fmap, length_map_to_list in Hsize.
      rewrite <- (length_map_to_list (map_seqZ 0 l : gmap Z A)).
      rewrite map_to_list_seqZ, length_zip_with, length_seqZ. lia. }
  unfold held. rewrite <- Heq, map_to_list_seqZ.
  rewrite snd_zip; [done |]. rewrite length_seqZ. lia.
Qed.

Lemma shuffleLoop_inv rnd (i k : nat) (a a' : JS.array Application) (k' : nat) :
  shuffleLoop rnd i k a = (a', k') →
  held a' ≡ₚ held a ∧ JS.alength a ≤ JS.alength a'.
Proof.
  revert k a. induction i as [| i IH]; intros k a; simpl.
  - by intros [= <- <-].
  - intros H. apply IH in H as [Hheld Hlen]. split.
    + by rewrite Hheld, swap_held.
    + etransitivity; [apply swap_length | done].
Qed.

(** A shuffle that leaves no hole is a permutation. *)
Lemma shuffle_Permutation rnd (k : nat) (tier1Apps shuffled : list Application) :
  (shuffle rnd k tier1Apps).1 = Some <$> shuffled → shuffled ≡ₚ tier1Apps.
Proof.
  unfold shuffle.
  destruct (shuffleLoop _ _ _ _) as [a k'] eqn:Hloop. simpl. intros Helems.
  apply shuffleLoop_inv in Hloop as [Hheld Hlen].
  rewrite <- (of_list_held tier1Apps), <- Hheld.
  apply elems_all_held; [done |].
  rewrite Hheld, of_list_held. by simpl in Hlen.
Qed.

(** ** The three tiers *)

Lemma classify_inTier (applications : list Application) :
  classify applications
  = (inTier Tier1 applications, inTier Tier2 applications, inTier Tier3 applications).
Proof.
  unfold classify.
  assert (∀ todo t1 t2 t3,
    fold_left
      (fun '(tier1Apps, tier2Apps, tier3Apps) app =>
         if isPriority app then (tier1Apps ++ [app], tier2Apps, tier3Apps)
         else if isLose (lastResult app) then (tier1Apps, tier2Apps ++ [app], tier3Apps)
         else (tier1Apps, tier2Apps, tier3Apps ++ [app]))
      todo (t1, t2, t3)
    = (t1 ++ inTier Tier1 todo, t2 ++ inTier Tier2 todo, t3 ++ inTier Tier3 todo))
    as Hgen.
  { induction todo as [| app todo IH]; intros t1 t2 t3; simpl.
    - by rewrite !app_nil_r.
    - assert (tierOf app = if isPriority app then Tier1
                           else if isLose (lastResult app) then Tier2 else Tier3)
        as Ht by done.
      unfold inTier. rewrite !filter_cons.
      destruct (isPriority app); [| destruct (isLose (lastResult app))];
        rewrite IH, Ht; repeat case_decide; try done;
        by rewrite <- ?app_assoc. }
  apply (Hgen applications [] [] []).
Qed.

(** ** Hybrid selector *)

Lemma hybridLoop_prefix skill rnd turns remaining selected k :
  selected `prefix_of` (hybridLoop skill rnd turns remaining selected k).1.
Proof.
  revert remaining selected k.
  induction turns as [| turns IH]; intros remaining selected k; simpl; [done |].
  destruct remaining as [| first rest]; [done |].
  destruct (Qltb (rnd k) skill).
  - etransitivity; [| apply IH]. by apply prefix_app_r.
  - destruct (at_index _ _); (etransitivity; [| apply IH]); by apply prefix_app_r.
Qed.

(** A selection without [undefined] is a permutation of the candidates. *)
Lemma hybridLoop_Permutation skill rnd turns remaining (sel out : list Application) k :
  turns = length remaining →
  (hybridLoop skill rnd turns remaining (Some <$> sel) k).1 = Some <$> out →
  out ≡ₚ sel ++ remaining.
Proof.
  revert remaining sel k.
  induction turns as [| turns IH]; intros remaining sel k Hturns; simpl.
  - destruct remaining; [| done]. intros H.
    apply (inj (fmap Some)) in H as ->. by rewrite app_nil_r.
  - destruct remaining as [| first rest]; [done |].
    destruct (Qltb (rnd k) skill).
    + replace ((Some <$> sel) ++ [Some first]) with (Some <$> (sel ++ [first]))
        by (by rewrite fmap_app).
      intros H. apply IH in H; [| simpl in *; lia].
      rewrite H. simpl. by rewrite <- app_assoc.
    + destruct (at_index (first :: rest) _) as [chosen |] eqn:Hat.
      * replace ((Some <$> sel) ++ [Some chosen]) with (Some <$> (sel ++ [chosen]))
          by (by rewrite fmap_app).
        unfold at_index in Hat. destruct (_ <? 0); [done |].
        intros H. apply IH in H.
        -- rewrite H, <- app_assoc. apply Permutation_app_head. simpl.
           symmetry. by apply delete_Permutation.
        -- rewrite length_delete; [simpl in *; lia |]. by eexists.
      * intros H.
        pose proof (hybridLoop_prefix skill rnd turns (removelast (first :: rest))
                      ((Some <$> sel) ++ [None]) (S (S k))) as Hpre.
        rewrite H in Hpre. destruct Hpre as [tl Htl].
        assert (None ∈ Some <$> out) as Hin by (rewrite Htl; set_solver).
        apply list_elem_of_fmap in Hin as (? & ? & _). done.
Qed.

Lemma hybridSelection_Permutation candidates skill rnd k (out : list Application) :
  (hybridSelection candidates skill rnd k).1 = Some <$> out →
  out ≡ₚ candidates.
Proof.
  unfold hybridSelection. intros H.
  apply (hybridLoop_Permutation skill rnd _ _ [] out k) in H; [| done].
  by rewrite H, sort_Permutation.
Qed.

(** ** The allocation loops *)

(** What one successful call of the allocator returns: as many seats as
    asked for, all among the scored seats and none assigned before. *)
Lemma findAndAllocateSeats_allocated groupSize scoredSeats assigned solo allocated :
  findAndAllocateSeats groupSize scoredSeats assigned solo = Normal (Some allocated) →
  1 ≤ groupSize
  ∧ length_Z allocated = groupSize
  ∧ ∀ s : SeatWithScore, s ∈ allocated → s ∈ scoredSeats ∧ seat_id s ∉ assigned.
Proof.
  intros Hfind.
  destruct (findAndAllocateSeats_inv _ _ _ _ _ Hfind)
    as (cands & k & best & Hcands & <- & Hk & _).
  destruct (candidatesOf_spec _ _ _ _ _ Hcands) as (_ & Hwin & _).
  rewrite Forall_forall in Hwin.
  destruct (Hwin best) as (Hsize & Hlen & chunk & i & Hchunk & Hseats);
    [by eapply list_elem_of_lookup_2 |].
  split_and!; try done.
  intros s Hs. rewrite Hseats in Hs.
  assert (s ∈ seats chunk) as Hin.
  { eapply elem_of_sublist; [exact Hs |].
    etransitivity; [apply sublist_take | apply sublist_drop]. }
  apply (chunk_from _ _ (buildAllChunks_ok _ _ Hchunk)) in Hin.
  unfold availableOf in Hin. by apply list_elem_of_filter in Hin as [? ?].
Qed.

Arguments attempt : simpl never.

Lemma allocateTier_Normal scoredSeats t apps st st' :
  allocateTier scoredSeats t apps st = Normal st' →
  ∃ l, apps = Some <$> l ∧ runAttempts scoredSeats (tagged t l) st = Normal st'.
Proof.
  revert st. induction apps as [| [app |] apps IH]; intros st; simpl.
  - intros H. by exists [].
  - destruct (attempt scoredSeats t st (Some app)) as [st1 |] eqn:H1; simpl; [| done].
    intros H. destruct (IH _ H) as (l & -> & Hrun).
    exists (app :: l). split; [done |]. simpl. by rewrite H1.
  - done.
Qed.

Lemma runAttempts_app scoredSeats att1 att2 st :
  runAttempts scoredSeats (att1 ++ att2) st
  = (st' ←! runAttempts scoredSeats att1 st; runAttempts scoredSeats att2 st').
Proof.
  revert st. induction att1 as [| [app t] att1 IH]; intros st; simpl; [done |].
  destruct (attempt scoredSeats t st (Some app)); simpl; [apply IH | done].
Qed.

Lemma allocOk_initial : allocOk [] initialState.
Proof. split; simpl; intros; set_solver. Qed.

Lemma attempt_ok scoredSeats made app t st st' :
  allocOk made st →
  attempt scoredSeats t st (Some app) = Normal st' →
  allocOk (made ++ [(app, t)]) st'.
Proof.
  intros [Hassigned Hdisjoint Hsound Hcovered]. unfold attempt, allocateApp.
  destruct (findAndAllocateSeats _ _ _ _) as [[allocated |] |] eqn:Hfind;
    simpl; [| | done]; intros [= <-].
  - destruct (findAndAllocateSeats_allocated _ _ _ _ _ Hfind) as (_ & Hlen & Hfresh).
    assert (∀ i, i ∈ idsOf allocated → i ∉ assignedSeatIds st) as Hnew.
    { intros i Hi. apply list_elem_of_fmap in Hi as (s & -> & Hs). by apply Hfresh. }
    split; simpl.
    + intros a i Ha Hi. apply elem_of_app in Ha as [Ha | Ha].
      * apply elem_of_union_l. by eapply Hassigned.
      * apply list_elem_of_singleton in Ha as ->. simpl in Hi.
        apply elem_of_union_r. by apply elem_of_list_to_set.
    + intros j k a b i Hjk Hj Hk Hi Hi'.
      apply lookup_app_Some in Hj as [Hj | [Hj1 Hj2]];
        apply lookup_app_Some in Hk as [Hk | [Hk1 Hk2]].
      * by eapply (Hdisjoint j k).
      * apply list_lookup_singleton_Some in Hk2 as [_ <-]. simpl in Hi'.
        apply (Hnew i Hi'). eapply Hassigned; [| exact Hi].
        by eapply list_elem_of_lookup_2.
      * apply list_lookup_singleton_Some in Hj2 as [_ <-]. simpl in Hi.
        apply (Hnew i Hi). eapply Hassigned; [| exact Hi'].
        by eapply list_elem_of_lookup_2.
      * apply list_lookup_singleton_Some in Hj2 as [? _].
        apply list_lookup_singleton_Some in Hk2 as [? _]. lia.
    + intros a Ha. apply elem_of_app in Ha as [Ha | Ha].
      * destruct (Hsound a Ha) as (app' & ? & ? & ?).
        exists app'. split_and!; try done. by apply elem_of_app; left.
      * apply list_elem_of_singleton in Ha as ->. simpl.
        exists app. split_and!; [| done |].
        { apply elem_of_app. right. by apply list_elem_of_singleton. }
        unfold idsOf, length_Z in *. by rewrite length_fmap.
    + intros app' t' Hin. apply elem_of_app in Hin as [Hin | Hin].
      * destruct (Hcovered app' t' Hin) as [(a & ? & ? & ?) | ?]; [left | by right].
        exists a. split_and!; try done. by apply elem_of_app; left.
      * apply list_elem_of_singleton in Hin as [= -> ->]. left.
        eexists. split; [apply elem_of_app; right; by apply list_elem_of_singleton |].
        simpl. split; [done |].
        unfold idsOf, length_Z in *. by rewrite length_fmap.
  - split; simpl.
    + done.
    + done.
    + intros a Ha. destruct (Hsound a Ha) as (app' & ? & ? & ?).
      exists app'. split_and!; try done. by apply elem_of_app; left.
    + intros app' t' Hin. apply elem_of_app in Hin as [Hin | Hin].
      * destruct (Hcovered app' t' Hin) as [? | ?]; [by left | right].
        by apply elem_of_app; left.
      * apply list_elem_of_singleton in Hin as [= -> ->]. right.
        apply elem_of_app; right. by apply list_elem_of_singleton.
Qed.

Lemma runAttempts_ok scoredSeats made attempts st st' :
  allocOk made st →
  runAttempts scoredSeats attempts st = Normal st' →
  allocOk (made ++ attempts) st'.
Proof.
  revert made st. induction attempts as [| [app t] attempts IH]; intros made st Hok; simpl.
  - intros [= <-]. by rewrite app_nil_r.
  - destruct (attempt scoredSeats t st (Some app)) as [st1 |] eqn:H1; simpl; [| done].
    intros Hrun. replace (made ++ (app, t) :: attempts)
      with ((made ++ [(app, t)]) ++ attempts) by (by rewrite <- app_assoc).
    eapply IH; [| exact Hrun]. by eapply attempt_ok.
Qed.

(** ** Quality rater *)

Lemma assignSeatQuality_same (l : list Assignment) :
  Forall2 sameButQuality l (assignSeatQuality l).
Proof.
  unfold assignSeatQuality.
  generalize (imap (fun (i : nat) (p : nat * Assignment) => (i, p))
                (JS.sort byTotalScoreDesc
                   (filter (fun p : nat * Assignment => tier p.2 ≠ Tier1)
                      (imap (fun i a => (i, a)) l)))).
  generalize (length (JS.sort byTotalScoreDesc
                        (filter (fun p : nat * Assignment => tier p.2 ≠ Tier1)
                           (imap (fun i a => (i, a)) l)))).
  intros total ranked.
  assert (Forall2 sameButQuality l l) as Hrefl.
  { apply Forall2_same_length_lookup. split; [done |].
    intros i a b Ha Hb. by simplify_eq. }
  revert Hrefl. generalize l at 2 4 as acc.
  induction ranked as [| [i [idx a0]] ranked IH]; intros acc Hacc; simpl; [done |].
  apply IH. apply Forall2_alter_r; [done |].
  intros x y _ _ (? & ? & ? & ?). by split_and!.
Qed.

(** ** Main lottery function *)

Lemma tagged_tier t l e : e ∈ tagged t l → e.2 = t.
Proof. unfold tagged. intros H. by apply list_elem_of_fmap in H as (? & -> & _). Qed.

Lemma tagged_inTierOrder t1 t2 t3 :
  inTierOrder (tagged Tier1 t1 ++ tagged Tier2 t2 ++ tagged Tier3 t3).
Proof.
  intros i j e1 e2 Hi Hj Hlt.
  apply lookup_app_Some in Hi as [Hi | [Hi1 Hi]];
    [| apply lookup_app_Some in Hi as [Hi | [Hi2 Hi]]];
    (apply lookup_app_Some in Hj as [Hj | [Hj1 Hj]];
      [| apply lookup_app_Some in Hj as [Hj | [Hj2 Hj]]]);
    pose proof (lookup_lt_Some _ _ _ Hi) as Hli;
    pose proof (lookup_lt_Some _ _ _ Hj) as Hlj;
    apply list_elem_of_lookup_2, tagged_tier in Hi;
    apply list_elem_of_lookup_2, tagged_tier in Hj;
    rewrite Hi, Hj in Hlt; simpl in Hlt; lia.
Qed.

Lemma tagged_by_tier (applications : list Application) :
  tagged Tier1 (inTier Tier1 applications)
  ++ tagged Tier2 (inTier Tier2 applications)
  ++ tagged Tier3 (inTier Tier3 applications)
  ≡ₚ (fun app => (app, tierOf app)) <$> applications.
Proof.
  unfold tagged, inTier.
  induction applications as [| app l IH]; [done |].
  rewrite !filter_cons, fmap_cons, <- IH.
  destruct (tierOf app); repeat case_decide; try done; csimpl.
  - symmetry. apply Permutation_middle.
  - rewrite !app_assoc. symmetry. apply Permutation_middle.
Qed.

Lemma assignSeats_inv seats applications config r :
  assignSeats seats applications config = Normal r →
  r = emptyResult seats applications
  ∨ ∃ attempts st, runOf seats applications config r attempts st.
Proof.
  unfold assignSeats.
  destruct (_ || _); [intros [= <-]; by left |].
  rewrite classify_inTier.
  destruct (shuffle _ 0%nat (inTier Tier1 applications)) as [tier1Shuffled k] eqn:Hshuffle.
  set (scoredSeats := scoreSeats _ _).
  destruct (allocateTier scoredSeats Tier1 tier1Shuffled initialState)
    as [st1 |] eqn:H1; simpl; [| done].
  destruct (allocateTier scoredSeats Tier2 _ st1) as [st2 |] eqn:H2; simpl; [| done].
  destruct (allocateTier scoredSeats Tier3 _ st2) as [st3 |] eqn:H3; simpl; [| done].
  intros [= <-]. right.
  apply allocateTier_Normal in H1 as (t1 & -> & Hrun1).
  apply allocateTier_Normal in H2 as (t2 & Heq2 & Hrun2).
  apply (inj (fmap Some)) in Heq2 as <-.
  apply allocateTier_Normal in H3 as (t3 & Heq3 & Hrun3).
  exists (tagged Tier1 t1
          ++ tagged Tier2 (JS.sort byPastScoreDesc (inTier Tier2 applications))
          ++ tagged Tier3 t3), st3.
  split; simpl; try done.
  - rewrite runAttempts_app. fold scoredSeats. rewrite Hrun1. simpl.
    rewrite runAttempts_app, Hrun2. simpl. done.
  - rewrite <- tagged_by_tier. unfold tagged.
    assert (t1 ≡ₚ inTier Tier1 applications) as ->.
    { eapply shuffle_Permutation. by rewrite Hshuffle. }
    assert (t3 ≡ₚ inTier Tier3 applications) as ->.
    { eapply hybridSelection_Permutation. exact Heq3. }
    by rewrite sort_Permutation.
  - apply tagged_inTierOrder.
Qed.

Lemma runOf_ok seats applications config r attempts st :
  runOf seats applications config r attempts st → allocOk attempts st.
Proof.
  intros H.
  exact (runAttempts_ok _ [] attempts initialState st allocOk_initial
           (run_attempts _ _ _ _ _ _ H)).
Qed.

(** C1: the seat-id lists of two different assignments of a returned
    result have no seat id in common. *)
Theorem assignSeats_no_double_booking seats applications config r
    (j k : nat) (a b : Assignment) (i : string) :
  assignSeats seats applications config = Normal r →
  j ≠ k →
  assignments r !! j = Some a →
  assignments r !! k = Some b →
  i ∈ seatIds a → i ∉ seatIds b.
Proof.
  intros Hrun Hjk Hj Hk.
  destruct (assignSeats_inv _ _ _ _ Hrun) as [-> | (attempts & st & Hr)]; [done |].
  pose proof (runOf_ok _ _ _ _ _ _ Hr) as Hok.
  rewrite (run_assignments _ _ _ _ _ _ Hr) in Hj, Hk.
  pose proof (assignSeatQuality_same (st_assignments st)) as Hsame.
  destruct (Forall2_lookup_r _ _ _ _ _ Hsame Hj) as (a0 & Ha0 & _ & Hida & _).
  destruct (Forall2_lookup_r _ _ _ _ _ Hsame Hk) as (b0 & Hb0 & _ & Hidb & _).
  rewrite Hida, Hidb. by eapply (ok_disjoint _ _ Hok j k).
Qed.

(** C2: in a returned result every applicant has an assignment of
    exactly groupSize seats or is listed in unassigned, and every
    assignment was made for an applicant of the input and has exactly as
    many seats as that applicant asked for. *)
Theorem assignSeats_whole_party seats applications config r :
  assignSeats seats applications config = Normal r →
  (∀ app, app ∈ applications →
     (∃ a, a ∈ assignments r
        ∧ applicationId a = app_id app
        ∧ length_Z (seatIds a) = groupSize app)
     ∨ app_id app ∈ unassigned r)
  ∧ (∀ a, a ∈ assignments r →
       ∃ app, app ∈ applications
         ∧ applicationId a = app_id app
         ∧ length_Z (seatIds a) = groupSize app).
Proof.
  intros Hrun.
  destruct (assignSeats_inv _ _ _ _ Hrun) as [-> | (attempts & st & Hr)].
  { split; simpl; [| intros a Ha; by apply elem_of_nil in Ha].
    intros app Happ. right. by apply list_elem_of_fmap_2. }
  pose proof (runOf_ok _ _ _ _ _ _ Hr) as Hok.
  pose proof (assignSeatQuality_same (st_assignments st)) as Hsame.
  rewrite (run_assignments _ _ _ _ _ _ Hr), (run_unassigned _ _ _ _ _ _ Hr).
  split.
  - intros app Happ.
    assert ((app, tierOf app) ∈ attempts) as Hin.
    { rewrite (run_everyone _ _ _ _ _ _ Hr).
      by apply (list_elem_of_fmap_2 (fun app => (app, tierOf app))). }
    destruct (ok_covered _ _ Hok _ _ Hin) as [(a0 & Ha0 & Hid & Hlen) | ?];
      [left | by right].
    apply list_elem_of_lookup in Ha0 as [n Hn].
    destruct (Forall2_lookup_l _ _ _ _ _ Hsame Hn) as (a & Ha & Hid' & Hids & _).
    exists a. split; [by eapply list_elem_of_lookup_2 |].
    by rewrite Hid', Hids.
  - intros a Ha. apply list_elem_of_lookup in Ha as [n Hn].
    destruct (Forall2_lookup_r _ _ _ _ _ Hsame Hn) as (a0 & Ha0 & Hid' & Hids & _).
    destruct (ok_sound _ _ Hok a0) as (app & Hin & Hid & Hlen);
      [by eapply list_elem_of_lookup_2 |].
    exists app. rewrite Hid', Hids. split_and!; try done.
    rewrite (run_everyone _ _ _ _ _ _ Hr) in Hin.
    by apply list_elem_of_fmap in Hin as (? & [= -> _] & ?).
Qed.

(** ** Runs that return *)

Lemma floor_draw (r : Q) (n : Z) :
  (0 <= r < 1)%Q → 0 < n → 0 ≤ Qfloor (r * inject_Z n) < n.
Proof.
  intros [Hr0 Hr1] Hn.
  assert (0 < inject_Z n)%Q as Hn' by (by rewrite <- (Zlt_Qlt 0)).
  split.
  - change 0 with (Qfloor 0). apply Qfloor_resp_le. nra.
  - rewrite Zlt_Qlt. eapply Qle_lt_trans; [apply Qfloor_le |]. nra.
Qed.

Lemma cmapM_total {A B} (f : A → completion B) (l : list A) :
  (∀ a, a ∈ l → ∃ b, f a = Normal b) → ∃ bs, cmapM f l = Normal bs.
Proof.
  induction l as [| a l IH]; intros Hf; simpl; [by eexists |].
  destruct (Hf a) as [b ->]; [left |]. simpl.
  destruct IH as [bs ->]; [intros a' Ha'; apply Hf; by right |].
  by eexists.
Qed.

Lemma getSubChunks_total (chunk : SeatChunk) (size : Z) :
  1 ≤ size → ∃ subs, getSubChunks chunk size = Normal subs.
Proof.
  intros Hsize. unfold getSubChunks.
  destruct (length_Z (seats chunk) <? size) eqn:Hlt; [by eexists |].
  apply Z.ltb_ge in Hlt. apply cmapM_total. intros i Hi.
  apply elem_of_seqZ in Hi. unfold subChunkAt.
  destruct (slice_window (seats chunk) i size) as [_ Hlen]; [lia | done | lia |].
  destruct (JS.slice (seats chunk) i (i + size)) as [| s0 rest]; [| by eexists].
  unfold length_Z in Hlen. simpl in Hlen. lia.
Qed.

Lemma findAndAllocateSeats_total groupSize scoredSeats assigned solo :
  1 ≤ groupSize →
  ∃ allocated,
    findAndAllocateSeats groupSize scoredSeats assigned solo = Normal allocated.
Proof.
  intros Hsize. unfold findAndAllocateSeats.
  destruct (candidatesOf groupSize scoredSeats assigned solo)
    as [[cands |] |] eqn:Hcands; simpl.
  - destruct (candidatesOf_spec _ _ _ _ _ Hcands) as (Hne & _).
    destruct (JS.sort byAvgScoreDesc cands) as [| best rest] eqn:Hsort;
      [| by eexists].
    exfalso. apply Hne, Permutation_nil_r.
    by rewrite <- Hsort, sort_Permutation.
  - by eexists.
  - exfalso. revert Hcands. unfold candidatesOf.
    destruct (_ <? groupSize); [done |].
    destruct (cmapM_total (fun chunk => getSubChunks chunk groupSize)
                (buildAllChunks (availableOf scoredSeats assigned)))
      as [perChunk ->]; [intros; by apply getSubChunks_total |].
    simpl. by destruct (_ =? 0).
Qed.

Lemma attempt_total scoredSeats t st app :
  1 ≤ groupSize app → ∃ st', attempt scoredSeats t st (Some app) = Normal st'.
Proof.
  intros Hsize. unfold attempt, allocateApp.
  destruct (findAndAllocateSeats_total (groupSize app) scoredSeats
              (assignedSeatIds st)
              (if groupSize app =? 1 then Some (soloSeatIds st) else None) Hsize)
    as [[allocated |] ->]; simpl; by eexists.
Qed.

Lemma allocateTier_total scoredSeats t (l : list Application) st :
  (∀ app, app ∈ l → 1 ≤ groupSize app) →
  ∃ st', allocateTier scoredSeats t (Some <$> l) st = Normal st'.
Proof.
  revert st. induction l as [| app l IH]; intros st Hl; csimpl; [by eexists |].
  destruct (attempt_total scoredSeats t st app) as [st1 ->]; [apply Hl; left |].
  simpl. apply IH. intros app' Happ'. apply Hl. by right.
Qed.

Lemma of_list_dense {A} (l : list A) : dense (JS.of_list l).
Proof.
  split; [simpl; lia |]. simpl. intros k Hk. unfold JS.get. simpl.
  rewrite lookup_map_seqZ_0 by lia. apply lookup_lt_is_Some_2. lia.
Qed.

Lemma swap_dense {A} (a : JS.array A) (i j : Z) :
  dense a → 0 ≤ i < JS.alength a → 0 ≤ j < JS.alength a →
  dense (JS.swap a i j) ∧ JS.alength (JS.swap a i j) = JS.alength a.
Proof.
  intros [Hlen Hall] Hi Hj.
  assert (JS.alength (JS.swap a i j) = JS.alength a) as Heq.
  { unfold JS.swap, JS.set. simpl.
    replace (JS.alength a <=? i) with false by (symmetry; apply Z.leb_gt; lia).
    rewrite andb_false_r.
    replace (JS.alength a <=? j) with false by (symmetry; apply Z.leb_gt; lia).
    by rewrite andb_false_r. }
  split; [| done]. split; [lia |]. rewrite Heq. intros k Hk.
  unfold JS.swap. simpl. rewrite !get_set.
  repeat case_decide; by apply Hall.
Qed.

Lemma elems_dense {A} (a : JS.array A) :
  dense a → ∃ l, JS.elems a = Some <$> l.
Proof.
  intros [_ Hall]. unfold JS.elems.
  assert (∀ ks : list Z, (∀ k, k ∈ ks → is_Some (JS.get a k)) →
            ∃ l, (fun k => JS.get a k) <$> ks = Some <$> l) as Hgen.
  { induction ks as [| k ks IH]; intros Hks; [by exists [] |].
    destruct (Hks k) as [x Hx]; [left |].
    destruct IH as [l Hl]; [intros k' Hk'; apply Hks; by right |].
    exists (x :: l). csimpl. by rewrite Hx, Hl. }
  apply Hgen. intros k Hk. apply elem_of_seqZ in Hk. apply Hall. lia.
Qed.

Lemma shuffleLoop_dense rnd (i k : nat) (a : JS.array Application) :
  unitDraws rnd → dense a → Z.of_nat i < JS.alength a ∨ i = 0%nat →
  dense (shuffleLoop rnd i k a).1.
Proof.
  intros Hrnd. revert k a.
  induction i as [| i IH]; intros k a Ha Hi; cbn [shuffleLoop]; [done |].
  destruct Hi as [Hi | Hi]; [| done].
  destruct (floor_draw (rnd k) (Z.of_nat (S i) + 1) (Hrnd k)) as [Hj0 Hj1]; [lia |].
  destruct (swap_dense a (Z.of_nat (S i))
              (Qfloor (rnd k * inject_Z (Z.of_nat (S i) + 1))) Ha)
    as [Hdense Hlen]; [lia | lia |].
  apply IH; [done |]. left. rewrite Hlen. lia.
Qed.

Lemma shuffle_total rnd k (tier1Apps : list Application) :
  unitDraws rnd → ∃ l, (shuffle rnd k tier1Apps).1 = Some <$> l.
Proof.
  intros Hrnd. unfold shuffle.
  pose proof (shuffleLoop_dense rnd (Nat.pred (length tier1Apps)) k
                (JS.of_list tier1Apps) Hrnd (of_list_dense _)) as Hdense.
  destruct (shuffleLoop _ _ _ _) as [a k'] eqn:Hloop. simpl in *.
  apply elems_dense, Hdense.
  destruct tier1Apps; simpl; [by right | left; lia].
Qed.

Lemma hybridLoop_total skill rnd turns remaining (sel : list Application) k :
  unitDraws rnd → turns = length remaining →
  ∃ l, (hybridLoop skill rnd turns remaining (Some <$> sel) k).1 = Some <$> l.
Proof.
  intros Hrnd. revert remaining sel k.
  induction turns as [| turns IH]; intros remaining sel k Hturns;
    cbn [hybridLoop]; [by eexists |].
  destruct remaining as [| first rest]; [done |].
  destruct (Qltb (rnd k) skill).
  - replace ((Some <$> sel) ++ [Some first]) with (Some <$> (sel ++ [first]))
      by (by rewrite fmap_app).
    apply IH. simpl in *. lia.
  - destruct (floor_draw (rnd (S k)) (length_Z (first :: rest)) (Hrnd (S k)))
      as [Hj0 Hj1]; [unfold length_Z; simpl; lia |].
    unfold at_index.
    set (j := Qfloor (rnd (S k) * inject_Z (length_Z (first :: rest)))) in *.
    destruct (Z.ltb_spec j 0) as [? | _]; [lia |].
    destruct (lookup_lt_is_Some_2 (first :: rest) (Z.to_nat j))
      as [chosen Hchosen]; [unfold length_Z in Hj1; lia |].
    rewrite Hchosen.
    replace ((Some <$> sel) ++ [Some chosen]) with (Some <$> (sel ++ [chosen]))
      by (by rewrite fmap_app).
    apply IH. rewrite length_delete by (by eexists). simpl in *. lia.
Qed.

(** X1: a run whose party sizes are all at least 1 and whose draws all
    lie in [0, 1) returns a result: it raises no TypeError. *)
Theorem assignSeats_returns seats applications config :
  (∀ app, app ∈ applications → 1 ≤ groupSize app) →
  unitDraws (default Math_random (randomFn config)) →
  ∃ r, assignSeats seats applications config = Normal r.
Proof.
  intros Hsizes Hrnd. unfold assignSeats.
  destruct (_ || _); [by eexists |].
  rewrite classify_inTier.
  assert (∀ t (l : list Application) app,
            l ≡ₚ inTier t applications → app ∈ l → 1 ≤ groupSize app) as Hin.
  { intros t l app Hl Happ. rewrite Hl in Happ. unfold inTier in Happ.
    apply list_elem_of_filter in Happ as [_ Happ]. by apply Hsizes. }
  destruct (shuffle _ 0%nat (inTier Tier1 applications)) as [tier1Shuffled k] eqn:Hshuffle.
  destruct (shuffle_total _ 0%nat (inTier Tier1 applications) Hrnd) as [t1 Ht1].
  rewrite Hshuffle in Ht1. simpl in Ht1. subst tier1Shuffled.
  set (scoredSeats := scoreSeats _ _).
  destruct (allocateTier_total scoredSeats Tier1 t1 initialState) as [st1 ->].
  { intros app. apply (Hin Tier1 t1). eapply shuffle_Permutation. by rewrite Hshuffle. }
  simpl.
  destruct (allocateTier_total scoredSeats Tier2
              (JS.sort byPastScoreDesc (inTier Tier2 applications)) st1) as [st2 ->].
  { intros app. apply (Hin Tier2). apply sort_Permutation. }
  simpl.
  assert (∃ t3, (hybridSelection (inTier Tier3 applications)
                   (default (70 # 100)%Q (skillWeight config))
                   (default Math_random (randomFn config)) k).1 = Some <$> t3)
    as [t3 Ht3].
  { unfold hybridSelection. by apply (hybridLoop_total _ _ _ _ [] k Hrnd). }
  rewrite Ht3.
  destruct (allocateTier_total scoredSeats Tier3 t3 st2) as [st3 ->].
  { intros app. apply (Hin Tier3 t3). eapply hybridSelection_Permutation. exact Ht3. }
  simpl. by eexists.
Qed.

(** ** Scenario B: one seat, an invitation and a rescue applicant *)

Lemma buildAllChunks_single (s : SeatWithScore) :
  seats <$> buildAllChunks [s] = [[s]].
Proof. done. Qed.

Lemma findAndAllocateSeats_single (s : SeatWithScore) (assigned solo : gset string) :
  seat_id s ∉ assigned → solo = ∅ →
  findAndAllocateSeats 1 [s] assigned (Some solo) = Normal (Some [s]).
Proof.
  intros Hfree ->. unfold findAndAllocateSeats, candidatesOf, availableOf.
  rewrite filter_cons, decide_True by done. rewrite filter_nil.
  done.
Qed.

Lemma findAndAllocateSeats_full groupSize scoredSeats (assigned : gset string) solo :
  1 ≤ groupSize →
  (∀ s : SeatWithScore, s ∈ scoredSeats → seat_id s ∈ assigned) →
  findAndAllocateSeats groupSize scoredSeats assigned solo = Normal None.
Proof.
  intros Hsize Hall. unfold findAndAllocateSeats, candidatesOf, availableOf.
  assert (filter (fun s : SeatWithScore => seat_id s ∉ assigned) scoredSeats = []) as ->.
  { induction scoredSeats as [| s l IH]; [done |].
    rewrite filter_cons, decide_False; [apply IH |]; set_solver. }
  unfold length_Z. simpl length. change (Z.of_nat 0) with 0.
  by replace (0 <? groupSize) with true by (symmetry; apply Z.ltb_lt; lia).
Qed.

Lemma shuffle_single rnd k app : shuffle rnd k [app] = ([Some app], k).
Proof. unfold shuffle. simpl. by rewrite elems_of_list. Qed.

Lemma assignSeatQuality_tier1 (a : Assignment) :
  tier a = Tier1 → assignSeatQuality [a] = [a].
Proof.
  intros Ht. unfold assignSeatQuality. simpl.
  rewrite filter_cons, decide_False by (simpl; by rewrite Ht; intros []).
  done.
Qed.

Lemma scenarioB_run seats applications config (s : Seat) (a b : Application) :
  filter (fun s => isDisabled s = false) seats = [s] →
  applications = [a; b] ∨ applications = [b; a] →
  isInvitation a = true → groupSize a = 1 →
  isInvitation b = false → isRelation b = false →
  lastResult b = Some lose → groupSize b = 1 →
  ∃ r asg,
    assignSeats seats applications config = Normal r
    ∧ assignments r = [asg]
    ∧ applicationId asg = app_id a
    ∧ seatIds asg = [seat_id s]
    ∧ tier asg = Tier1
    ∧ unassigned r = [app_id b]
    ∧ tier2OverflowCount (stats r) = 1.
Proof.
  intros Hseats Happs Ha Hga Hb1 Hb2 Hb3 Hgb.
  assert (tierOf a = Tier1) as Hta by (unfold tierOf, isPriority; by rewrite Ha).
  assert (tierOf b = Tier2) as Htb
    by (unfold tierOf, isPriority; by rewrite Hb1, Hb2, Hb3).
  assert (inTier Tier1 applications = [a] ∧ inTier Tier2 applications = [b]
          ∧ inTier Tier3 applications = [] ∧ (length_Z applications =? 0) = false)
    as (H1 & H2 & H3 & Hlen).
  { unfold inTier. destruct Happs as [-> | ->];
      rewrite !filter_cons, !filter_nil, Hta, Htb; by repeat case_decide. }
  unfold assignSeats. rewrite Hseats, Hlen. simpl orb. cbv iota.
  rewrite classify_inTier, H1, H2, H3, shuffle_single.
  unfold scoreSeats. simpl fmap.
  set (ss := calculateSeatScore s _ _).
  unfold JS.sort. simpl foldr.
  cbn [allocateTier]. unfold attempt at 1, allocateApp. rewrite Hga. simpl Z.eqb.
  cbv iota. unfold initialState at 1 2. cbn [assignedSeatIds soloSeatIds].
  rewrite findAndAllocateSeats_single by set_solver. simpl cbind.
  unfold attempt at 1, allocateApp. cbn [assignedSeatIds soloSeatIds]. rewrite Hgb.
  rewrite findAndAllocateSeats_full; [| done |].
  2: { intros s' Hs'. apply list_elem_of_singleton in Hs'. subst s'.
       rewrite !elem_of_union, elem_of_singleton. right. by left. }
  simpl.
  eexists _, _. split; [reflexivity |]. simpl.
  rewrite assignSeatQuality_tier1 by done. by split_and!.
Qed.

(** C3: a run either makes no attempt at all (degenerate input) or makes
    one attempt for every applicant, each in the tier of the applicant,
    and an attempt of a lower tier rank comes before every attempt of a
    higher one: all Tier 1 attempts precede the Tier 2 attempts, which
    precede the Tier 3 attempts.  With a single available seat, an
    invitation applicant and a non-priority applicant that lost last
    time, both of party size 1 and in either order, the invitation
    applicant gets the seat, the other one is unassigned and
    tier2OverflowCount is 1. *)
Theorem assignSeats_tier_order :
  (∀ seats applications config r,
     assignSeats seats applications config = Normal r →
     r = emptyResult seats applications
     ∨ ∃ attempts st,
         runAttempts
           (scoreSeats (stagePosition config)
              (filter (fun s => isDisabled s = false) seats))
           attempts initialState = Normal st
         ∧ attempts ≡ₚ (fun app => (app, tierOf app)) <$> applications
         ∧ (∀ (i j : nat) e1 e2,
              attempts !! i = Some e1 → attempts !! j = Some e2 →
              (tierRank e1.2 < tierRank e2.2)%nat → (i < j)%nat)
         ∧ assignments r = assignSeatQuality (st_assignments st)
         ∧ unassigned r = st_unassigned st
         ∧ tier2OverflowCount (stats r) = st_tier2OverflowCount st)
  ∧ (∀ seats applications config (s : Seat) (a b : Application),
       filter (fun s => isDisabled s = false) seats = [s] →
       applications = [a; b] ∨ applications = [b; a] →
       isInvitation a = true → groupSize a = 1 →
       isInvitation b = false → isRelation b = false →
       lastResult b = Some lose → groupSize b = 1 →
       ∃ r asg,
         assignSeats seats applications config = Normal r
         ∧ assignments r = [asg]
         ∧ applicationId asg = app_id a
         ∧ seatIds asg = [seat_id s]
         ∧ tier asg = Tier1
         ∧ unassigned r = [app_id b]
         ∧ tier2OverflowCount (stats r) = 1).
Proof.
  split.
  - intros seats applications config r Hrun.
    destruct (assignSeats_inv _ _ _ _ Hrun) as [-> | (attempts & st & Hr)];
      [by left | right].
    exists attempts, st. by destruct Hr.
  - apply scenarioB_run.
Qed.

(** * Further properties *)

(** ** Run builder: every seat in one chunk *)

Lemma grouped_push_flat key (s : SeatWithScore) grouped :
  mjoin (snd <$> grouped_push key s grouped) ≡ₚ mjoin (snd <$> grouped) ++ [s].
Proof.
  induction grouped as [| [k l] g IH]; csimpl; [done |].
  destruct (String.eqb k key); csimpl.
  - rewrite <- !app_assoc. apply Permutation_app_head, Permutation_app_comm.
  - by rewrite IH, app_assoc.
Qed.

Lemma groupSeats_flat (l : list SeatWithScore) :
  mjoin (snd <$> groupSeats l) ≡ₚ l.
Proof.
  unfold groupSeats.
  assert (∀ todo grouped,
    mjoin (snd <$> fold_left (fun grouped (s : SeatWithScore) =>
                                grouped_push (groupKey s) s grouped) todo grouped)
    ≡ₚ mjoin (snd <$> grouped) ++ todo) as Hgen.
  { induction todo as [| s todo IH]; intros grouped; simpl.
    - by rewrite app_nil_r.
    - by rewrite IH, grouped_push_flat, <- app_assoc. }
  apply (Hgen l []).
Qed.

Lemma cutRuns_flat cur prev rest : mjoin (cutRuns cur prev rest) = cur ++ rest.
Proof.
  revert cur prev. induction rest as [| s rest IH]; intros cur prev; simpl.
  - by rewrite app_nil_r.
  - destruct (col0 s =? col0 prev + 1); csimpl.
    + by rewrite IH, <- app_assoc.
    + by rewrite IH.
Qed.

Lemma rowRuns_flat rowSeats : mjoin (rowRuns rowSeats) = rowSeats.
Proof. destruct rowSeats as [| s rest]; [done |]. apply cutRuns_flat. Qed.

Lemma mkChunk_seats blk r (runs : list (list SeatWithScore)) :
  seats <$> (mkChunk blk r <$> runs) = runs.
Proof. induction runs as [| run runs IH]; csimpl; [done | by rewrite IH]. Qed.

Lemma chunksOfGroup_seats entry :
  mjoin (seats <$> chunksOfGroup entry) ≡ₚ entry.2.
Proof.
  destruct entry as [key rowSeats]. unfold chunksOfGroup. simpl.
  by rewrite mkChunk_seats, rowRuns_flat, sort_Permutation.
Qed.

Lemma buildAllChunks_flat (l : list SeatWithScore) :
  mjoin (seats <$> buildAllChunks l) ≡ₚ l.
Proof.
  transitivity (mjoin (snd <$> groupSeats l)); [| apply groupSeats_flat].
  unfold buildAllChunks.
  induction (groupSeats l) as [| entry g IH]; csimpl; [done |].
  by rewrite fmap_app, join_app, IH, chunksOfGroup_seats.
Qed.

(** X2: the chunks of [buildAllChunks] hold every seat of the input
    exactly once. *)
Theorem buildAllChunks_partition (l : list SeatWithScore) :
  mjoin (seats <$> buildAllChunks l) ≡ₚ l.
Proof.
  transitivity (mjoin (snd <$> groupSeats l)); [| apply groupSeats_flat].
  unfold buildAllChunks.
  induction (groupSeats l) as [| entry g IH]; csimpl; [done |].
  rewrite fmap_app, join_app, IH. apply Permutation_app_tail, chunksOfGroup_seats.
Qed.

Lemma chunk_length_le (l : list SeatWithScore) chunk :
  chunk ∈ buildAllChunks l → length_Z (seats chunk) ≤ length_Z l.
Proof.
  intros Hin. unfold length_Z.
  rewrite <- (Permutation_length (buildAllChunks_flat l)).
  apply list_elem_of_split in Hin as (c1 & c2 & ->).
  rewrite fmap_app, join_app, length_app. csimpl. rewrite length_app. lia.
Qed.

Lemma buildAllChunks_nil_inv (l : list SeatWithScore) :
  buildAllChunks l = [] → l = [].
Proof.
  intros H. apply Permutation_nil_r. by rewrite <- buildAllChunks_flat, H.
Qed.

(** ** Run builder: the windows of a chunk *)

Lemma getSubChunks_short (chunk : SeatChunk) (size : Z) :
  length_Z (seats chunk) < size → getSubChunks chunk size = Normal [].
Proof.
  intros H. unfold getSubChunks.
  by replace (_ <? size) with true by (symmetry; by apply Z.ltb_lt).
Qed.

Lemma getSubChunks_length (chunk : SeatChunk) (size : Z) subs :
  getSubChunks chunk size = Normal subs →
  length_Z subs = Z.max 0 (length_Z (seats chunk) - size + 1).
Proof.
  unfold getSubChunks.
  destruct (length_Z (seats chunk) <? size) eqn:Hlt.
  - apply Z.ltb_lt in Hlt. intros [= <-]. unfold length_Z in *. simpl. lia.
  - apply Z.ltb_ge in Hlt. intros H. apply cmapM_Normal, Forall2_length in H.
    rewrite length_seqZ in H. unfold length_Z in *. lia.
Qed.

(** X3: for a size of at least 1, [getSubChunks] returns, in order, the
    windows [seats[i .. i + size)] for i = 0, ..., length - size, each
    with the mean score of its seats, and nothing when the chunk is
    shorter than the size. *)
Theorem getSubChunks_windows (chunk : SeatChunk) (size : Z) :
  1 ≤ size →
  ∃ subs,
    getSubChunks chunk size = Normal subs
    ∧ length_Z subs = Z.max 0 (length_Z (seats chunk) - size + 1)
    ∧ ∀ (i : nat) c, subs !! i = Some c →
        seats c = take (Z.to_nat size) (drop i (seats chunk))
        ∧ length_Z (seats c) = size
        ∧ avgScore c = mean_score (seats c).
Proof.
  intros Hsize. destruct (getSubChunks_total chunk size Hsize) as [subs Hsubs].
  exists subs. split; [done |]. split; [by apply getSubChunks_length |].
  intros i c Hi. revert Hsubs. unfold getSubChunks.
  destruct (length_Z (seats chunk) <? size) eqn:Hlt; [by intros [= <-] |].
  apply Z.ltb_ge in Hlt. rewrite cmapM_Normal. intros Hall.
  destruct (Forall2_lookup_r _ _ _ _ _ Hall Hi) as (k & Hk & Hsub).
  apply lookup_seqZ in Hk as [-> Hrange].
  unfold subChunkAt in Hsub.
  destruct (slice_window (seats chunk) (0 + Z.of_nat i) size) as [Heq Hlen];
    [lia | done | lia |].
  destruct (JS.slice (seats chunk) (0 + Z.of_nat i) (0 + Z.of_nat i + size))
    as [| s0 rest] eqn:Hslice; [done |].
  injection Hsub as <-. simpl. split_and!; [| done | done].
  rewrite Heq. f_equal. f_equal. lia.
Qed.

(** ** Group allocator: the seats it grants *)

Lemma window_cols (run : list SeatWithScore) (c : Z) (i n : nat) :
  (fun s : SeatWithScore => col0 s) <$> run = seqZ c (length_Z run) →
  (i + n ≤ length run)%nat →
  (fun s : SeatWithScore => col0 s) <$> take n (drop i run)
  = seqZ (c + Z.of_nat i) (Z.of_nat n).
Proof.
  intros Hcols Hlen. rewrite fmap_take, fmap_drop, Hcols.
  apply list_eq. intros k.
  destruct (decide (k < n)%nat) as [Hk | Hk].
  - rewrite lookup_take_lt, lookup_drop by done.
    rewrite !lookup_seqZ_lt by (unfold length_Z; lia). f_equal. lia.
  - rewrite lookup_take_ge by lia. by rewrite lookup_seqZ_ge by lia.
Qed.

(** X4: the seats of a successful allocation sit side by side: there are
    exactly [groupSize] of them, all of one block and row (one
    [groupKey]), their columns are consecutive, in ascending order, and
    each is a scored seat that was not assigned before. *)
Theorem findAndAllocateSeats_side_by_side groupSize scoredSeats assigned solo allocated :
  findAndAllocateSeats groupSize scoredSeats assigned solo = Normal (Some allocated) →
  length_Z allocated = groupSize
  ∧ (∃ key, ∀ s : SeatWithScore, s ∈ allocated → groupKey s = key)
  ∧ (∃ c, (fun s : SeatWithScore => col0 s) <$> allocated = seqZ c groupSize)
  ∧ (∀ s : SeatWithScore, s ∈ allocated → s ∈ scoredSeats ∧ seat_id s ∉ assigned).
Proof.
  intros Hfind.
  destruct (findAndAllocateSeats_allocated _ _ _ _ _ Hfind) as (Hsize & Hlen & Hfresh).
  destruct (findAndAllocateSeats_inv _ _ _ _ _ Hfind)
    as (cands & k & best & Hcands & <- & Hk & _).
  destruct (candidatesOf_spec _ _ _ _ _ Hcands) as (_ & Hwin & _).
  rewrite Forall_forall in Hwin.
  destruct (Hwin best) as (_ & _ & chunk & i & Hchunk & Hseats);
    [by eapply list_elem_of_lookup_2 |].
  destruct (buildAllChunks_ok _ _ Hchunk) as [_ _ [key Hkey] Hcols].
  assert (seats best `sublist_of` seats chunk) as Hsub.
  { rewrite Hseats. etransitivity; [apply sublist_take | apply sublist_drop]. }
  split_and!; try done.
  - exists key. intros s Hs. apply Hkey. by eapply elem_of_sublist.
  - exists (startCol chunk + Z.of_nat i).
    assert (i + Z.to_nat groupSize ≤ length (seats chunk))%nat as Hfit.
    { unfold length_Z in Hlen. rewrite Hseats, length_take, length_drop in Hlen. lia. }
    rewrite Hseats, (window_cols _ (startCol chunk)) by done.
    f_equal. lia.
Qed.

Lemma join_nils {A B} (l : list A) :
  mjoin ((fun _ => ([] : list B)) <$> l) = [].
Proof. induction l as [| a l IH]; [done | by csimpl]. Qed.

(** A failed allocation leaves no chunk with enough seats. *)
Lemma findAndAllocateSeats_None_short groupSize scoredSeats assigned solo chunk :
  1 ≤ groupSize →
  findAndAllocateSeats groupSize scoredSeats assigned solo = Normal None →
  chunk ∈ buildAllChunks (availableOf scoredSeats assigned) →
  length_Z (seats chunk) < groupSize.
Proof.
  intros Hsize Hnone Hchunk.
  destruct (decide (length_Z (seats chunk) < groupSize)) as [| Hlong]; [done |].
  exfalso. revert Hnone. unfold findAndAllocateSeats, candidatesOf.
  pose proof (chunk_length_le _ _ Hchunk) as Hle.
  replace (_ <? groupSize) with false by (symmetry; apply Z.ltb_ge; lia).
  destruct (cmapM _ _) as [perChunk |] eqn:Hper; simpl; [| done].
  apply cmapM_Normal in Hper.
  apply list_elem_of_lookup in Hchunk as [k Hk].
  destruct (Forall2_lookup_l _ _ _ _ _ Hper Hk) as (subs & Hsubs & Hget).
  destruct (getSubChunks_complete _ _ _ 0%nat Hget Hsize) as (c & Hc & _); [lia |].
  assert (c ∈ mjoin perChunk) as Hin.
  { apply list_elem_of_join. exists subs. split; [done |].
    by eapply list_elem_of_lookup_2. }
  destruct (length_Z (mjoin perChunk) =? 0) eqn:H0.
  - apply Z.eqb_eq in H0. unfold length_Z in H0.
    destruct (mjoin perChunk); [by apply elem_of_nil in Hin | simpl in H0; lia].
  - simpl. by destruct (JS.sort _ _).
Qed.

(** X5: for a party size of at least 1 the allocator returns [null]
    exactly when no chunk of the unassigned seats has that many seats. *)
Theorem findAndAllocateSeats_null_iff groupSize scoredSeats assigned solo :
  1 ≤ groupSize →
  findAndAllocateSeats groupSize scoredSeats assigned solo = Normal None
  ↔ ∀ chunk, chunk ∈ buildAllChunks (availableOf scoredSeats assigned) →
      length_Z (seats chunk) < groupSize.
Proof.
  intros Hsize. split.
  - intros Hnone chunk Hchunk. by eapply findAndAllocateSeats_None_short.
  - intros Hshort. unfold findAndAllocateSeats, candidatesOf.
    destruct (_ <? groupSize); [done |].
    assert (cmapM (fun chunk => getSubChunks chunk groupSize)
              (buildAllChunks (availableOf scoredSeats assigned))
            = Normal ((fun _ => []) <$> buildAllChunks (availableOf scoredSeats assigned)))
      as ->.
    { apply cmapM_Normal. apply Forall2_fmap_r, Forall_Forall2_diag, Forall_forall.
      intros chunk Hchunk. by apply getSubChunks_short, Hshort. }
    simpl.
    by rewrite join_nils.
Qed.

Lemma findAndAllocateSeats_TypeError groupSize scoredSeats assigned solo :
  groupSize ≤ 0 →
  availableOf scoredSeats assigned ≠ [] →
  findAndAllocateSeats groupSize scoredSeats assigned solo = TypeError.
Proof.
  intros Hsize Hfree. unfold findAndAllocateSeats, candidatesOf.
  replace (_ <? groupSize) with false
    by (symmetry; apply Z.ltb_ge; unfold length_Z; lia).
  destruct (buildAllChunks (availableOf scoredSeats assigned)) as [| chunk rest] eqn:Hb;
    [by apply buildAllChunks_nil_inv in Hb |].
  cbn [cmapM].
  assert (getSubChunks chunk groupSize = TypeError) as ->; [| done].
  destruct (getSubChunks chunk groupSize) as [subs |] eqn:Hget; [exfalso | done].
  destruct subs as [| c ?].
  - apply getSubChunks_length in Hget. unfold length_Z in Hget. simpl in Hget. lia.
  - destruct (getSubChunks_spec _ _ _ c Hget) as [? _]; [left | lia].
Qed.

(** X6: a party size of 0 or less makes the allocator raise a TypeError
    as soon as one seat is unassigned; without an unassigned seat it
    returns [null]. *)
Theorem findAndAllocateSeats_bad_size groupSize scoredSeats assigned solo :
  groupSize ≤ 0 →
  (availableOf scoredSeats assigned ≠ [] →
   findAndAllocateSeats groupSize scoredSeats assigned solo = TypeError)
  ∧ (availableOf scoredSeats assigned = [] →
     findAndAllocateSeats groupSize scoredSeats assigned solo = Normal None).
Proof.
  intros Hsize. split; [by apply findAndAllocateSeats_TypeError |].
  unfold findAndAllocateSeats, candidatesOf.
  intros ->. unfold length_Z. simpl length.
  by replace (Z.of_nat 0 <? groupSize) with false by (symmetry; apply Z.ltb_ge; lia).
Qed.

(** ** What the allocation loops keep *)

Lemma filter_submseteq {A} (P : A → Prop) `{!∀ x, Decision (P x)} (l k : list A) :
  l ⊆+ k → filter P l ⊆+ filter P k.
Proof.
  induction 1 as [| x l k _ IH | x y l | x l k _ IH | l k m _ IH1 _ IH2].
  - done.
  - rewrite !filter_cons. case_decide; [by apply submseteq_skip | done].
  - rewrite !filter_cons. repeat case_decide; try done. apply submseteq_swap.
  - rewrite filter_cons. case_decide; [by apply submseteq_cons | done].
  - by etransitivity.
Qed.

Lemma filter_all {A} (P : A → Prop) `{!∀ x, Decision (P x)} (l : list A) :
  Forall P l → filter P l = l.
Proof.
  induction 1 as [| x l Hx _ IH]; [done |].
  by rewrite filter_cons_True, IH.
Qed.

Lemma filter_none {A} (P : A → Prop) `{!∀ x, Decision (P x)} (l : list A) :
  Forall (fun x => ¬ P x) l → filter P l = [].
Proof.
  induction 1 as [| x l Hx _ IH]; [done |].
  by rewrite filter_cons_False, IH.
Qed.

(** The seats of one allocation are taken out of the seats that are not
    assigned yet, each at most once. *)
Lemma findAndAllocateSeats_submseteq groupSize scoredSeats assigned solo allocated :
  findAndAllocateSeats groupSize scoredSeats assigned solo = Normal (Some allocated) →
  allocated ⊆+ availableOf scoredSeats assigned.
Proof.
  intros Hfind.
  destruct (findAndAllocateSeats_inv _ _ _ _ _ Hfind)
    as (cands & k & best & Hcands & <- & Hk & _).
  destruct (candidatesOf_spec _ _ _ _ _ Hcands) as (_ & Hwin & _).
  rewrite Forall_forall in Hwin.
  destruct (Hwin best) as (Hsize & Hlen & chunk & i & Hchunk & Hseats);
    [by eapply list_elem_of_lookup_2 |].
  rewrite Hseats.
  transitivity (seats chunk).
  { apply sublist_submseteq. etransitivity; [apply sublist_take | apply sublist_drop]. }
  rewrite <- (buildAllChunks_flat (availableOf scoredSeats assigned)).
  apply list_elem_of_lookup in Hchunk as [n Hn].
  apply (take_drop_middle) in Hn. rewrite <- Hn.
  rewrite fmap_app, fmap_cons, join_app. simpl.
  apply sublist_submseteq. apply sublist_inserts_l, sublist_inserts_r. done.
Qed.

Lemma grantedIds_snoc l a : grantedIds (l ++ [a]) = grantedIds l ++ seatIds a.
Proof.
  unfold grantedIds. rewrite fmap_app, join_app. simpl. by rewrite app_nil_r.
Qed.

Lemma countTier_snoc t l a :
  countTier t (l ++ [a]) = countTier t l + (if decide (tier a = t) then 1 else 0).
Proof.
  unfold countTier, length_Z. rewrite filter_app, length_app, filter_cons. simpl.
  case_decide; simpl; lia.
Qed.

Lemma attemptsIn_snoc t made app t' :
  length_Z (attemptsIn t (made ++ [(app, t')]))
  = length_Z (attemptsIn t made) + (if decide (t' = t) then 1 else 0).
Proof.
  unfold attemptsIn, length_Z. rewrite filter_app, length_app, filter_cons. simpl.
  case_decide; simpl; lia.
Qed.

Lemma allocMore_initial scoredSeats : allocMore scoredSeats [] initialState.
Proof.
  split; simpl; try done. apply submseteq_nil_l.
Qed.

Lemma attempt_more scoredSeats made app t st st' :
  allocMore scoredSeats made st →
  attempt scoredSeats t st (Some app) = Normal st' →
  allocMore scoredSeats (made ++ [(app, t)]) st'.
Proof.
  intros [Hids Hfresh Hassigned Hgranted Htiers Hoverflow]. unfold attempt, allocateApp.
  destruct (findAndAllocateSeats _ _ _ _) as [[allocated |] |] eqn:Hfind;
    simpl; [| | done]; intros [= <-].
  - pose proof (findAndAllocateSeats_submseteq _ _ _ _ _ Hfind) as Hsub.
    split; simpl.
    + rewrite !fmap_app. simpl. rewrite <- Hids.
      rewrite <- !app_assoc. apply Permutation_app_head. apply Permutation_app_comm.
    + apply Forall_app. split; [done |]. by apply Forall_singleton.
    + intros i Hi. rewrite grantedIds_snoc. simpl. apply elem_of_app.
      apply elem_of_union in Hi as [Hi | Hi]; [left; by apply Hassigned | right].
      by apply elem_of_list_to_set in Hi.
    + rewrite grantedIds_snoc. simpl.
      set (P := fun s : SeatWithScore => seat_id s ∈ assignedSeatIds st).
      set (P' := fun s : SeatWithScore =>
                   seat_id s ∈ assignedSeatIds st ∪ list_to_set (idsOf allocated)).
      assert (idsOf (filter P' scoredSeats)
              ≡ₚ idsOf (filter P scoredSeats)
                 ++ idsOf (filter P' (availableOf scoredSeats (assignedSeatIds st))))
        as Hsplit.
      { unfold idsOf. rewrite <- fmap_app. apply fmap_Permutation.
        transitivity (filter P' (filter P scoredSeats
                                 ++ filter (fun s => ¬ P s) scoredSeats)).
        - apply filter_Permutation. symmetry. apply filter_app_complement.
        - rewrite filter_app. rewrite (filter_all P' (filter P scoredSeats)); [done |].
          apply Forall_forall. intros s Hs.
          apply list_elem_of_filter in Hs as [Hs _]. by apply elem_of_union_l. }
      rewrite Hsplit. apply submseteq_app; [exact Hgranted |].
      apply (fmap_submseteq (fun s : SeatWithScore => seat_id s)).
      rewrite <- (filter_all P' allocated) at 1.
      { apply filter_submseteq. exact Hsub. }
      apply Forall_forall. intros s Hs. apply elem_of_union_r.
      apply elem_of_list_to_set.
      by apply (list_elem_of_fmap_2 (fun s : SeatWithScore => seat_id s)).
    + intros t0. rewrite countTier_snoc, attemptsIn_snoc. simpl.
      specialize (Htiers t0). lia.
    + rewrite countTier_snoc, attemptsIn_snoc. simpl. lia.
  - split; simpl.
    + rewrite fmap_app. simpl. rewrite <- Hids. by rewrite app_assoc.
    + done.
    + destruct t; exact Hassigned.
    + destruct t; exact Hgranted.
    + intros t0. rewrite attemptsIn_snoc. specialize (Htiers t0).
      case_decide; lia.
    + rewrite attemptsIn_snoc. destruct t; case_decide; try done; lia.
Qed.

Lemma runAttempts_more scoredSeats made attempts st st' :
  allocMore scoredSeats made st →
  runAttempts scoredSeats attempts st = Normal st' →
  allocMore scoredSeats (made ++ attempts) st'.
Proof.
  revert made st. induction attempts as [| [app t] attempts IH]; intros made st Hok; simpl.
  - intros [= <-]. by rewrite app_nil_r.
  - destruct (attempt scoredSeats t st (Some app)) as [st1 |] eqn:H1; simpl; [| done].
    intros Hrun. replace (made ++ (app, t) :: attempts)
      with ((made ++ [(app, t)]) ++ attempts) by (by rewrite <- app_assoc).
    eapply IH; [| exact Hrun]. by eapply attempt_more.
Qed.

Lemma runOf_more seats applications config r attempts st :
  runOf seats applications config r attempts st →
  allocMore
    (scoreSeats (stagePosition config) (filter (fun s => isDisabled s = false) seats))
    attempts st.
Proof.
  intros H.
  exact (runAttempts_more _ [] attempts initialState st (allocMore_initial _)
           (run_attempts _ _ _ _ _ _ H)).
Qed.


(** ** The lists and the statistics of a returned result *)

Lemma scoreSeats_ids stage (l : list Seat) :
  idsOf (scoreSeats stage l) = seat_id <$> l.
Proof.
  destruct l as [| s l]; [done |].
  unfold scoreSeats, idsOf. by rewrite <- list_fmap_compose.
Qed.

Lemma fold_left_granted (l : list Assignment) (z : Z) :
  fold_left (fun sum a => sum + length_Z (seatIds a)) l z
  = z + length_Z (grantedIds l).
Proof.
  revert z. induction l as [| a l IH]; intros z; simpl.
  - unfold grantedIds, length_Z. simpl. lia.
  - rewrite IH. unfold grantedIds, length_Z. csimpl. rewrite length_app. lia.
Qed.

Lemma sameButQuality_granted (l l' : list Assignment) :
  Forall2 sameButQuality l l' → grantedIds l' = grantedIds l.
Proof.
  intros H. unfold grantedIds. f_equal.
  eapply Forall2_fmap_eq; [| exact H]. by intros a b (_ & ? & _).
Qed.

Lemma sameButQuality_ids (l l' : list Assignment) :
  Forall2 sameButQuality l l' → applicationId <$> l' = applicationId <$> l.
Proof.
  intros H. eapply Forall2_fmap_eq; [| exact H]. by intros a b (? & _).
Qed.

Lemma sameButQuality_countTier t (l l' : list Assignment) :
  Forall2 sameButQuality l l' → countTier t l' = countTier t l.
Proof.
  induction 1 as [| a b l l' (_ & _ & _ & Ht) _ IH]; [done |].
  unfold countTier, length_Z in *. rewrite !filter_cons, Ht.
  case_decide; simpl; lia.
Qed.

Lemma countTier_sum (l : list Assignment) :
  countTier Tier1 l + countTier Tier2 l + countTier Tier3 l = length_Z l.
Proof.
  unfold countTier, length_Z.
  induction l as [| a l IH]; [done |].
  rewrite !filter_cons. destruct (tier a); repeat case_decide; try done; simpl; lia.
Qed.

Lemma attemptsIn_everyone t (attempts : list (Application * Tier)) applications :
  attempts ≡ₚ (fun app => (app, tierOf app)) <$> applications →
  length_Z (attemptsIn t attempts) = length_Z (inTier t applications).
Proof.
  intros H. unfold attemptsIn, inTier, length_Z. f_equal.
  rewrite (Permutation_length (filter_Permutation _ _ _ H)). clear H.
  induction applications as [| app l IH]; [done |].
  rewrite fmap_cons, !filter_cons. simpl.
  case_decide; simpl; by rewrite IH.
Qed.

(** The statistics that are read off the input and off the assignments of
    the result. *)
Lemma assignSeats_stats seats applications config r :
  assignSeats seats applications config = Normal r →
  totalSeats (stats r) = length_Z seats
  ∧ totalApplications (stats r) = length_Z applications
  ∧ totalPeopleAssigned (stats r) = length_Z (grantedIds (assignments r))
  ∧ tier1Count (stats r) = countTier Tier1 (assignments r)
  ∧ tier2Count (stats r) = countTier Tier2 (assignments r)
  ∧ tier3Count (stats r) = countTier Tier3 (assignments r)
  ∧ availableSeats (stats r)
    = match applications with
      | [] => 0
      | _ => length_Z (filter (fun s => isDisabled s = false) seats)
      end.
Proof.
  unfold assignSeats.
  destruct ((length_Z (filter _ seats) =? 0) || (length_Z applications =? 0))
    eqn:Hcond.
  - intros [= <-]. simpl. split_and!; try done.
    destruct applications as [| a0 apps]; [done |].
    rewrite orb_false_r in Hcond. apply Z.eqb_eq in Hcond. by rewrite Hcond.
  - rewrite classify_inTier.
    destruct (shuffle _ 0%nat (inTier Tier1 applications)) as [tier1Shuffled k].
    set (scoredSeats := scoreSeats _ _).
    destruct (allocateTier scoredSeats Tier1 tier1Shuffled initialState)
      as [st1 |]; simpl; [| done].
    destruct (allocateTier scoredSeats Tier2 _ st1) as [st2 |]; simpl; [| done].
    destruct (allocateTier scoredSeats Tier3 _ st2) as [st3 |]; simpl; [| done].
    intros [= <-]. simpl. split_and!; try done.
    + by rewrite fold_left_granted.
    + destruct applications; [| done]. by rewrite orb_true_r in Hcond.
Qed.

(** The two ways a run returns. *)
Lemma assignSeats_cases seats applications config r :
  assignSeats seats applications config = Normal r →
  ((filter (fun s => isDisabled s = false) seats = [] ∨ applications = [])
   ∧ r = emptyResult seats applications)
  ∨ (filter (fun s => isDisabled s = false) seats ≠ []
     ∧ applications ≠ []
     ∧ ∃ attempts st, runOf seats applications config r attempts st).
Proof.
  intros Hrun.
  pose proof (assignSeats_stats _ _ _ _ Hrun) as (_ & _ & _ & _ & _ & _ & Havail).
  destruct (assignSeats_inv _ _ _ _ Hrun) as [-> | Hr].
  - left. split; [| done]. simpl in Havail.
    destruct applications as [| a0 apps]; [by right | left].
    destruct (filter _ seats); [done | discriminate Havail].
  - destruct (filter (fun s => isDisabled s = false) seats) as [| s0 av] eqn:Hav.
    { left. split; [by left |]. unfold assignSeats in Hrun.
      rewrite Hav in Hrun. simpl in Hrun. by injection Hrun. }
    destruct applications as [| a0 apps].
    { left. split; [by right |]. unfold assignSeats in Hrun.
      rewrite orb_true_r in Hrun. by injection Hrun. }
    right. by split_and!.
Qed.

Lemma runOf_granted seats applications config r attempts st :
  runOf seats applications config r attempts st →
  grantedIds (assignments r)
  ⊆+ seat_id <$> filter (fun s => isDisabled s = false) seats.
Proof.
  intros Hr.
  rewrite (run_assignments _ _ _ _ _ _ Hr).
  rewrite (sameButQuality_granted _ _ (assignSeatQuality_same _)).
  etransitivity; [apply (more_granted _ _ _ (runOf_more _ _ _ _ _ _ Hr)) |].
  rewrite <- (scoreSeats_ids (stagePosition config)).
  apply (fmap_submseteq (fun s : SeatWithScore => seat_id s)).
  apply sublist_submseteq, sublist_filter.
Qed.

Lemma assignSeats_granted seats applications config r :
  assignSeats seats applications config = Normal r →
  grantedIds (assignments r)
  ⊆+ seat_id <$> filter (fun s => isDisabled s = false) seats.
Proof.
  intros Hrun.
  destruct (assignSeats_cases _ _ _ _ Hrun) as [[_ ->] | (_ & _ & attempts & st & Hr)].
  - apply submseteq_nil_l.
  - by eapply runOf_granted.
Qed.

(** X7: the seat ids of all the assignments of a returned result, taken
    together, are ids of seats of the input that are not disabled, each
    granted at most as often as a seat with that id is open; so a
    disabled seat is never granted, and with distinct ids no seat is
    granted twice. *)
Theorem assignSeats_open_seats seats applications config r :
  assignSeats seats applications config = Normal r →
  grantedIds (assignments r)
  ⊆+ seat_id <$> filter (fun s => isDisabled s = false) seats
  ∧ (∀ i, i ∈ grantedIds (assignments r) →
       ∃ s, s ∈ seats ∧ seat_id s = i ∧ isDisabled s = false)
  ∧ (NoDup (seat_id <$> filter (fun s => isDisabled s = false) seats) →
     NoDup (grantedIds (assignments r))).
Proof.
  intros Hrun. pose proof (assignSeats_granted _ _ _ _ Hrun) as Hsub.
  split_and!.
  - done.
  - intros i Hi. apply (elem_of_submseteq _ _ _ Hi) in Hsub.
    apply list_elem_of_fmap in Hsub as (s & -> & Hs).
    apply list_elem_of_filter in Hs as [Hopen Hs]. by exists s.
  - intros Hnodup. destruct (submseteq_Permutation _ _ Hsub) as [k Hk].
    rewrite Hk in Hnodup. by apply NoDup_app in Hnodup as (? & _).
Qed.

(** X8: the number of people seated is the number of granted seat ids,
    it is at most the number of available seats in the statistics, which
    is at most the number of seats. *)
Theorem assignSeats_capacity seats applications config r :
  assignSeats seats applications config = Normal r →
  totalPeopleAssigned (stats r) = length_Z (grantedIds (assignments r))
  ∧ totalPeopleAssigned (stats r) ≤ availableSeats (stats r)
  ∧ availableSeats (stats r) ≤ totalSeats (stats r).
Proof.
  intros Hrun.
  destruct (assignSeats_stats _ _ _ _ Hrun)
    as (Hseats & _ & Hpeople & _ & _ & _ & Havail).
  split; [done |].
  destruct (assignSeats_cases _ _ _ _ Hrun) as [[_ ->] | (_ & Happs & attempts & st & Hr)].
  - simpl. unfold length_Z. lia.
  - rewrite Hpeople, Havail, Hseats. destruct applications as [| a0 apps]; [done |].
    unfold length_Z. split.
    + apply inj_le. rewrite <- (length_fmap seat_id (filter _ seats)).
      apply submseteq_length. by eapply runOf_granted.
    + apply inj_le, length_filter.
Qed.

Lemma assignSeats_ids seats applications config r :
  assignSeats seats applications config = Normal r →
  (applicationId <$> assignments r) ++ unassigned r ≡ₚ app_id <$> applications.
Proof.
  intros Hrun.
  destruct (assignSeats_cases _ _ _ _ Hrun) as [[_ ->] | (_ & _ & attempts & st & Hr)].
  - done.
  - rewrite (run_assignments _ _ _ _ _ _ Hr), (run_unassigned _ _ _ _ _ _ Hr).
    rewrite (sameButQuality_ids _ _ (assignSeatQuality_same _)).
    rewrite (more_ids _ _ _ (runOf_more _ _ _ _ _ _ Hr)).
    rewrite (run_everyone _ _ _ _ _ _ Hr).
    by rewrite <- list_fmap_compose.
Qed.

(** X9: every applicant of the input is listed exactly once, with an
    assignment or in [unassigned]: the ids of the assignments followed by
    the unassigned ids are a rearrangement of the ids of the
    applications. *)
Theorem assignSeats_everyone_once seats applications config r :
  assignSeats seats applications config = Normal r →
  (applicationId <$> assignments r) ++ unassigned r ≡ₚ app_id <$> applications
  ∧ length_Z (assignments r) + length_Z (unassigned r) = length_Z applications.
Proof.
  intros Hrun. pose proof (assignSeats_ids _ _ _ _ Hrun) as Hids.
  split; [done |].
  apply Permutation_length in Hids.
  rewrite length_app, !length_fmap in Hids. unfold length_Z. lia.
Qed.

(** X10: the three tier counts add up to the number of assignments, the
    assignments and the unassigned ids to the number of applications; no
    tier has more assignments than applicants; and where a seat is
    available, the Tier 2 count and the overflow counter add up to the
    number of rescue applicants. *)
Theorem assignSeats_counts seats applications config r :
  assignSeats seats applications config = Normal r →
  tier1Count (stats r) + tier2Count (stats r) + tier3Count (stats r)
  = length_Z (assignments r)
  ∧ length_Z (assignments r) + length_Z (unassigned r) = totalApplications (stats r)
  ∧ tier1Count (stats r) ≤ length_Z (inTier Tier1 applications)
  ∧ tier2Count (stats r) ≤ length_Z (inTier Tier2 applications)
  ∧ tier3Count (stats r) ≤ length_Z (inTier Tier3 applications)
  ∧ (filter (fun s => isDisabled s = false) seats ≠ [] →
     tier2Count (stats r) + tier2OverflowCount (stats r)
     = length_Z (inTier Tier2 applications)).
Proof.
  intros Hrun.
  destruct (assignSeats_stats _ _ _ _ Hrun)
    as (_ & Happs & _ & H1 & H2 & H3 & _).
  rewrite H1, H2, H3, Happs.
  split; [apply countTier_sum |].
  destruct (assignSeats_cases _ _ _ _ Hrun)
    as [[Hempty ->] | (_ & _ & attempts & st & Hr)].
  - simpl. unfold countTier, length_Z. simpl. rewrite length_fmap.
    split_and!; try lia.
    intros Hav. destruct Hempty as [? | ->]; done.
  - pose proof (runOf_more _ _ _ _ _ _ Hr) as Hmore.
    pose proof (assignSeatQuality_same (st_assignments st)) as Hsame.
    rewrite (run_overflow _ _ _ _ _ _ Hr).
    rewrite (run_assignments _ _ _ _ _ _ Hr), (run_unassigned _ _ _ _ _ _ Hr).
    rewrite !(sameButQuality_countTier _ _ _ Hsame).
    rewrite <- !(attemptsIn_everyone _ attempts applications (run_everyone _ _ _ _ _ _ Hr)).
    split_and!.
    + pose proof (Permutation_length (more_ids _ _ _ Hmore)) as Hlen.
      rewrite length_app, !length_fmap in Hlen.
      pose proof (Permutation_length (run_everyone _ _ _ _ _ _ Hr)) as Hlen'.
      rewrite length_fmap in Hlen'.
      pose proof (Forall2_length _ _ _ Hsame).
      unfold length_Z. lia.
    + apply (more_tiers _ _ _ Hmore).
    + apply (more_tiers _ _ _ Hmore).
    + apply (more_tiers _ _ _ Hmore).
    + intros _. apply (more_overflow _ _ _ Hmore).
Qed.

(** X11: the tier written on an assignment is the tier of the applicant
    it was made for: 1 for an invitation or a relation, 2 for any other
    applicant whose last result is a loss, 3 otherwise. *)
Theorem assignSeats_tier_field seats applications config r a :
  assignSeats seats applications config = Normal r →
  a ∈ assignments r →
  ∃ app, app ∈ applications
    ∧ applicationId a = app_id app
    ∧ tier a = tierOf app.
Proof.
  intros Hrun Ha.
  destruct (assignSeats_cases _ _ _ _ Hrun) as [[_ ->] | (_ & _ & attempts & st & Hr)].
  { by apply elem_of_nil in Ha. }
  pose proof (runOf_ok _ _ _ _ _ _ Hr) as Hok.
  pose proof (assignSeatQuality_same (st_assignments st)) as Hsame.
  rewrite (run_assignments _ _ _ _ _ _ Hr) in Ha.
  apply list_elem_of_lookup in Ha as [n Hn].
  destruct (Forall2_lookup_r _ _ _ _ _ Hsame Hn) as (a0 & Ha0 & Hid' & _ & _ & Htier).
  destruct (ok_sound _ _ Hok a0) as (app & Hin & Hid & _);
    [by eapply list_elem_of_lookup_2 |].
  rewrite (run_everyone _ _ _ _ _ _ Hr) in Hin.
  apply list_elem_of_fmap in Hin as (app' & [= -> Ht] & Happ).
  exists app'. by rewrite Hid', Htier, Ht.
Qed.


(** ** The labels of the quality rater *)

Lemma insert_sorted {A} (key : A → Q) (x : A) (l : list A) :
  StronglySorted (fun a b => (key b <= key a)%Q) l →
  StronglySorted (fun a b => (key b <= key a)%Q)
    (JS.insert (fun a b => Qle_bool (key b - key a) 0) x l).
Proof.
  induction l as [| y l IH]; simpl; intros Hl.
  - by repeat constructor.
  - apply StronglySorted_inv in Hl as [Hl Hy].
    destruct (Qle_bool (key y - key x) 0) eqn:Hle.
    + apply Qle_bool_iff in Hle.
      constructor; [by constructor |].
      constructor; [lra |].
      eapply Forall_impl; [exact Hy |]. simpl. intros z Hz. lra.
    + assert (key x < key y)%Q as Hlt.
      { apply Qnot_le_lt. intros Hn.
        assert (Qle_bool (key y - key x) 0 = true) as Ht
          by (apply Qle_bool_iff; lra).
        congruence. }
      constructor; [by apply IH |].
      rewrite insert_Permutation. constructor; [lra | done].
Qed.

Lemma sort_sorted {A} (key : A → Q) (l : list A) :
  StronglySorted (fun a b => (key b <= key a)%Q)
    (JS.sort (fun a b => Qle_bool (key b - key a) 0) l).
Proof.
  induction l as [| x l IH]; simpl; [constructor |].
  by apply insert_sorted.
Qed.

Lemma sorted_lookup {A} (R : A → A → Prop) (l : list A) (i j : nat) a b :
  StronglySorted R l → (i < j)%nat → l !! i = Some a → l !! j = Some b → R a b.
Proof.
  intros Hl. revert i j. induction Hl as [| x l _ IH Hx]; intros i j Hij Hi Hj.
  - done.
  - destruct j as [| j]; [lia |]. simpl in Hj.
    destruct i as [| i]; simpl in Hi.
    + injection Hi as <-. rewrite Forall_forall in Hx.
      apply Hx. by eapply list_elem_of_lookup_2.
    + apply (IH i j); [lia | done | done].
Qed.

Lemma imap_pair_fst {A} (l : list A) :
  (imap (fun i a => (i, a)) l).*1 = seq 0 (length l).
Proof.
  rewrite fmap_imap.
  transitivity (imap (fun j (_ : A) => id j) l); [by apply imap_ext |].
  by rewrite imap_seq_0, list_fmap_id.
Qed.

Lemma ranking_elem (l : list Assignment) (j : nat) (a : Assignment) :
  (j, a) ∈ ranking l ↔ l !! j = Some a ∧ tier a ≠ Tier1.
Proof.
  unfold ranking. rewrite elem_of_sort, list_elem_of_filter, elem_of_lookup_imap.
  simpl. split.
  - by intros [Ht (i & y & [= -> ->] & Hl)].
  - intros [Hl Ht]. split; [done |]. by exists j, a.
Qed.

Lemma ranking_NoDup (l : list Assignment) : NoDup (ranking l).*1.
Proof.
  unfold ranking. rewrite sort_Permutation.
  eapply sublist_NoDup; [| apply fmap_sublist, sublist_filter].
  rewrite imap_pair_fst. apply NoDup_seq.
Qed.

Lemma ranking_sorted (l : list Assignment) :
  StronglySorted
    (fun p q : nat * Assignment => (totalScore q.2 <= totalScore p.2)%Q)
    (ranking l).
Proof. apply (sort_sorted (fun p : nat * Assignment => totalScore p.2)). Qed.

(** The labels are written at distinct indices, so that each index
    keeps the one label of its rank. *)
Lemma label_fold total (ranked : list (nat * (nat * Assignment)))
    (acc : list Assignment) (j : nat) :
  NoDup ((fun e : nat * (nat * Assignment) => e.2.1) <$> ranked) →
  (j ∉ (fun e : nat * (nat * Assignment) => e.2.1) <$> ranked →
   foldl (fun acc '(i, (idx, _)) => alter (setQuality (qualityAt i total)) idx acc)
         acc ranked !! j
   = acc !! j)
  ∧ (∀ i a, (i, (j, a)) ∈ ranked →
     foldl (fun acc '(i, (idx, _)) => alter (setQuality (qualityAt i total)) idx acc)
           acc ranked !! j
     = setQuality (qualityAt i total) <$> acc !! j).
Proof.
  revert acc. induction ranked as [| [i0 [idx0 a0]] ranked IH]; intros acc Hnd.
  - split; [done |]. intros i a H. by apply elem_of_nil in H.
  - rewrite fmap_cons in Hnd. apply NoDup_cons in Hnd as [Hnotin Hnd].
    simpl in Hnotin.
    destruct (IH (alter (setQuality (qualityAt i0 total)) idx0 acc) Hnd) as [IH1 IH2].
    split.
    + intros Hj. rewrite fmap_cons in Hj. apply not_elem_of_cons in Hj as [Hne Hj].
      simpl in Hne. simpl. rewrite IH1 by done. by apply list_lookup_alter_ne.
    + intros i a Hin. apply elem_of_cons in Hin as [[= -> -> ->] | Hin]; simpl.
      * rewrite IH1 by done. apply list_lookup_alter_eq.
      * rewrite (IH2 i a Hin). f_equal. apply list_lookup_alter_ne.
        intros ->. apply Hnotin.
        by apply (list_elem_of_fmap_2 (fun e : nat * (nat * Assignment) => e.2.1)
                    _ (i, (j, a))).
Qed.

(** What the rater leaves at each index: a Tier 1 assignment as it was,
    any other one with the label of its rank. *)
Lemma assignSeatQuality_lookup (l : list Assignment) (j : nat) (a : Assignment) :
  l !! j = Some a →
  (tier a = Tier1 → assignSeatQuality l !! j = Some a)
  ∧ (tier a ≠ Tier1 →
     ∃ k : nat, ranking l !! k = Some (j, a)
       ∧ assignSeatQuality l !! j
         = Some (setQuality (qualityAt k (length (ranking l))) a)).
Proof.
  intros Hl.
  change (assignSeatQuality l)
    with (foldl (fun acc '(i, (idx, _)) =>
                   alter (setQuality (qualityAt i (length (ranking l)))) idx acc)
                l (imap (fun i p => (i, p)) (ranking l))).
  set (ranked := imap (fun i p => (i, p)) (ranking l)).
  assert ((fun e : nat * (nat * Assignment) => e.2.1) <$> ranked = (ranking l).*1)
    as Hidx.
  { unfold ranked. rewrite fmap_imap.
    transitivity (imap (const fst) (ranking l)); [by apply imap_ext | apply imap_const]. }
  destruct (label_fold (length (ranking l)) ranked l j) as [H1 H2].
  { rewrite Hidx. apply ranking_NoDup. }
  split.
  - intros Ht. rewrite H1; [done |]. rewrite Hidx. intros Hin.
    apply list_elem_of_fmap in Hin as ([j' a'] & Hj & Hin). simpl in Hj. subst j'.
    apply ranking_elem in Hin as [Hl' Ht']. by simplify_eq.
  - intros Ht.
    assert ((j, a) ∈ ranking l) as Hin by (by apply ranking_elem).
    apply list_elem_of_lookup in Hin as [k Hk]. exists k. split; [done |].
    rewrite (H2 k a), Hl; [done |].
    unfold ranked. apply elem_of_lookup_imap. by exists k, (j, a).
Qed.

Lemma qualityAt_mono (i j total : nat) :
  (i ≤ j)%nat →
  (qualityRank (qualityAt i total) ≤ qualityRank (qualityAt j total))%nat.
Proof.
  intros Hij. unfold qualityAt.
  set (pi := (inject_Z (Z.of_nat i) / inject_Z (Z.of_nat total) * 100)%Q).
  set (pj := (inject_Z (Z.of_nat j) / inject_Z (Z.of_nat total) * 100)%Q).
  assert (pi <= pj)%Q as Hle.
  { unfold pi, pj, Qdiv.
    apply Qmult_le_compat_r; [| done].
    apply Qmult_le_compat_r; [rewrite <- Zle_Qle; lia |].
    apply Qinv_le_0_compat. rewrite <- (Zle_Qle 0). lia. }
  destruct (Qltb pi 15) eqn:?, (Qltb pi 40) eqn:?, (Qltb pi 60) eqn:?,
    (Qltb pi 85) eqn:?, (Qltb pj 15) eqn:?, (Qltb pj 40) eqn:?,
    (Qltb pj 60) eqn:?, (Qltb pj 85) eqn:?;
    simpl; try lia; Qcompare_hyps; exfalso; lra.
Qed.

Lemma qualityAt_first (total : nat) : qualityAt 0 total = top.
Proof.
  unfold qualityAt.
  set (p := (inject_Z (Z.of_nat 0) / inject_Z (Z.of_nat total) * 100)%Q).
  assert (p == 0)%Q as Hp.
  { unfold p, Qdiv. simpl. by rewrite !Qmult_0_l. }
  destruct (Qltb p 15) eqn:H; [done |]. Qcompare_hyps. exfalso. lra.
Qed.

(** X12: the rater leaves a Tier 1 assignment without a label and gives
    every other assignment one: in a returned result an assignment has no
    label exactly when its tier is 1. *)
Theorem assignSeats_labels seats applications config r a :
  assignSeats seats applications config = Normal r →
  a ∈ assignments r →
  (tier a = Tier1 → seatQuality a = None)
  ∧ (tier a ≠ Tier1 → is_Some (seatQuality a)).
Proof.
  intros Hrun Ha.
  destruct (assignSeats_cases _ _ _ _ Hrun) as [[_ ->] | (_ & _ & attempts & st & Hr)].
  { by apply elem_of_nil in Ha. }
  pose proof (more_fresh _ _ _ (runOf_more _ _ _ _ _ _ Hr)) as Hfresh.
  pose proof (assignSeatQuality_same (st_assignments st)) as Hsame.
  rewrite (run_assignments _ _ _ _ _ _ Hr) in Ha.
  apply list_elem_of_lookup in Ha as [n Hn].
  destruct (Forall2_lookup_r _ _ _ _ _ Hsame Hn) as (a0 & Ha0 & _ & _ & _ & Htier).
  destruct (assignSeatQuality_lookup _ _ _ Ha0) as [Hvip Hother].
  rewrite Htier. split; intros Ht.
  - rewrite (Hvip Ht) in Hn. injection Hn as <-.
    rewrite Forall_forall in Hfresh. apply Hfresh. by eapply list_elem_of_lookup_2.
  - destruct (Hother Ht) as (k & _ & Hlabel).
    rewrite Hlabel in Hn. injection Hn as <-. by eexists.
Qed.

(** X13: among the assignments outside Tier 1 the labels follow the
    scores: an assignment with a strictly higher score never has a worse
    label. *)
Theorem assignSeatQuality_monotone (l : list Assignment) (i j : nat) a b :
  assignSeatQuality l !! i = Some a →
  assignSeatQuality l !! j = Some b →
  tier a ≠ Tier1 → tier b ≠ Tier1 →
  (totalScore b < totalScore a)%Q →
  ∃ qa qb, seatQuality a = Some qa ∧ seatQuality b = Some qb
    ∧ (qualityRank qa ≤ qualityRank qb)%nat.
Proof.
  intros Hi Hj Hta Htb Hlt.
  pose proof (assignSeatQuality_same l) as Hsame.
  destruct (Forall2_lookup_r _ _ _ _ _ Hsame Hi) as (a0 & Ha0 & _ & _ & Hsa & Htiera).
  destruct (Forall2_lookup_r _ _ _ _ _ Hsame Hj) as (b0 & Hb0 & _ & _ & Hsb & Htierb).
  destruct (assignSeatQuality_lookup _ _ _ Ha0) as [_ Ha].
  destruct (assignSeatQuality_lookup _ _ _ Hb0) as [_ Hb].
  destruct Ha as (ka & Hka & Hla); [by rewrite <- Htiera |].
  destruct Hb as (kb & Hkb & Hlb); [by rewrite <- Htierb |].
  rewrite Hla in Hi. injection Hi as <-.
  rewrite Hlb in Hj. injection Hj as <-.
  do 2 eexists. split_and!; [done | done |].
  apply qualityAt_mono.
  destruct (decide (kb < ka)%nat) as [Hlt' |]; [| lia].
  pose proof (sorted_lookup _ _ _ _ _ _ (ranking_sorted l) Hlt' Hkb Hka) as Hle.
  simpl in *. lra.
Qed.

(** X14: where an assignment outside Tier 1 exists, one of them that no
    other one outscores is labelled top. *)
Theorem assignSeatQuality_top (l : list Assignment) a :
  a ∈ assignSeatQuality l → tier a ≠ Tier1 →
  ∃ b, b ∈ assignSeatQuality l
    ∧ tier b ≠ Tier1
    ∧ seatQuality b = Some top
    ∧ ∀ c, c ∈ assignSeatQuality l → tier c ≠ Tier1 →
        (totalScore c <= totalScore b)%Q.
Proof.
  intros Ha Hta.
  pose proof (assignSeatQuality_same l) as Hsame.
  apply list_elem_of_lookup in Ha as [i Hi].
  destruct (Forall2_lookup_r _ _ _ _ _ Hsame Hi) as (a0 & Ha0 & _ & _ & _ & Htiera).
  assert ((i, a0) ∈ ranking l) as Hin.
  { apply ranking_elem. split; [done |]. by rewrite <- Htiera. }
  destruct (ranking l) as [| [j0 b0] rest] eqn:Hrank; [by apply elem_of_nil in Hin |].
  assert ((j0, b0) ∈ ranking l) as Hhead by (rewrite Hrank; left).
  apply ranking_elem in Hhead as [Hb0 Htb0].
  destruct (assignSeatQuality_lookup _ _ _ Hb0) as [_ Hb].
  destruct (Hb Htb0) as (k & Hk & Hlabel).
  assert (k = 0%nat) as ->.
  { eapply NoDup_lookup; [apply (ranking_NoDup l) | |].
    - rewrite list_lookup_fmap, Hk. done.
    - by rewrite Hrank. }
  rewrite qualityAt_first in Hlabel.
  exists (setQuality top b0). split_and!.
  - by eapply list_elem_of_lookup_2.
  - done.
  - done.
  - intros c Hc Htc. simpl.
    apply list_elem_of_lookup in Hc as [n Hn].
    destruct (Forall2_lookup_r _ _ _ _ _ Hsame Hn) as (c0 & Hc0 & _ & _ & Hsc & Htierc).
    rewrite Hsc.
    assert ((n, c0) ∈ ranking l) as Hcin.
    { apply ranking_elem. split; [done |]. by rewrite <- Htierc. }
    apply list_elem_of_lookup in Hcin as [[| kc] Hkc].
    + rewrite Hrank in Hkc. injection Hkc as <- <-. lra.
    + apply (sorted_lookup _ _ 0%nat (S kc) (j0, b0) (n, c0) (ranking_sorted l));
        [lia | done | done].
Qed.


(** ** Single attendees fill the house *)

Lemma availableOf_nil_grow scoredSeats (assigned extra : gset string) :
  availableOf scoredSeats assigned = [] →
  availableOf scoredSeats (assigned ∪ extra) = [].
Proof.
  unfold availableOf. intros H. apply filter_none, Forall_forall.
  intros s Hs Hnot. apply (filter_nil_not_elem_of _ _ s H); [| done].
  intros Hin. apply Hnot. by apply elem_of_union_l.
Qed.

Lemma findAndAllocateSeats_single_None scoredSeats assigned solo :
  findAndAllocateSeats 1 scoredSeats assigned solo = Normal None →
  availableOf scoredSeats assigned = [].
Proof.
  intros H. apply buildAllChunks_nil_inv.
  destruct (buildAllChunks _) as [| chunk rest] eqn:Hc; [done |]. exfalso.
  assert (chunk ∈ buildAllChunks (availableOf scoredSeats assigned)) as Hin
    by (rewrite Hc; left).
  assert (1 ≤ 1) as H1 by lia.
  pose proof (findAndAllocateSeats_None_short 1 _ _ _ chunk H1 H Hin) as Hshort.
  destruct (buildAllChunks_ok _ _ Hin) as [Hne _ _ _].
  destruct (seats chunk); [done |]. unfold length_Z in Hshort. simpl in Hshort. lia.
Qed.

(** Once a single attendee was turned away no seat is left, and none
    comes back. *)
Lemma runAttempts_singles scoredSeats attempts st st' :
  (∀ e : Application * Tier, e ∈ attempts → groupSize e.1 = 1) →
  (st_unassigned st ≠ [] → availableOf scoredSeats (assignedSeatIds st) = []) →
  runAttempts scoredSeats attempts st = Normal st' →
  st_unassigned st' ≠ [] → availableOf scoredSeats (assignedSeatIds st') = [].
Proof.
  revert st. induction attempts as [| [app t] attempts IH]; intros st Hsingle Hst; simpl.
  - by intros [= <-].
  - destruct (attempt scoredSeats t st (Some app)) as [st1 |] eqn:H1; simpl; [| done].
    apply IH.
    + intros e He. apply Hsingle. by right.
    + revert H1. unfold attempt, allocateApp.
      assert (groupSize app = 1) as -> by (apply (Hsingle (app, t)); left).
      simpl.
      destruct (findAndAllocateSeats _ _ _ _) as [[allocated |] |] eqn:Hfind;
        simpl; [| | done]; intros [= <-]; simpl.
      * intros Hun. by apply availableOf_nil_grow, Hst.
      * intros _. destruct t; simpl; by eapply findAndAllocateSeats_single_None.
Qed.

(** X15: where every applicant comes alone and the open seats have
    distinct ids, nobody is turned away while a seat is free: if some
    applicant is unassigned, every open seat is granted. *)
Theorem assignSeats_singles_fill seats applications config r :
  assignSeats seats applications config = Normal r →
  (∀ app, app ∈ applications → groupSize app = 1) →
  NoDup (seat_id <$> filter (fun s => isDisabled s = false) seats) →
  unassigned r ≠ [] →
  totalPeopleAssigned (stats r)
  = length_Z (filter (fun s => isDisabled s = false) seats)
  ∧ grantedIds (assignments r)
    ≡ₚ seat_id <$> filter (fun s => isDisabled s = false) seats.
Proof.
  intros Hrun Hsingle Hnodup Hun.
  destruct (assignSeats_stats _ _ _ _ Hrun) as (_ & _ & Hpeople & _).
  assert (grantedIds (assignments r)
          ≡ₚ seat_id <$> filter (fun s => isDisabled s = false) seats) as Hperm.
  { destruct (assignSeats_cases _ _ _ _ Hrun)
      as [[[Hav | ->] ->] | (_ & _ & attempts & st & Hr)].
    - by rewrite Hav.
    - done.
    - apply (anti_symm submseteq); [by eapply runOf_granted |].
      apply NoDup_submseteq; [done |]. intros i Hi.
      rewrite (run_assignments _ _ _ _ _ _ Hr).
      rewrite (sameButQuality_granted _ _ (assignSeatQuality_same _)).
      apply (more_assigned _ _ _ (runOf_more _ _ _ _ _ _ Hr)).
      rewrite <- (scoreSeats_ids (stagePosition config)) in Hi.
      apply list_elem_of_fmap in Hi as (s & -> & Hs).
      assert (availableOf
                (scoreSeats (stagePosition config)
                   (filter (fun s => isDisabled s = false) seats))
                (assignedSeatIds st) = []) as Hnone.
      { eapply (runAttempts_singles _ attempts initialState).
        - intros e He. rewrite (run_everyone _ _ _ _ _ _ Hr) in He.
          apply list_elem_of_fmap in He as (app & -> & Happ). by apply Hsingle.
        - done.
        - exact (run_attempts _ _ _ _ _ _ Hr).
        - by rewrite <- (run_unassigned _ _ _ _ _ _ Hr). }
      destruct (decide (seat_id s ∈ assignedSeatIds st)) as [| Hnot]; [done |].
      by destruct (filter_nil_not_elem_of _ _ s Hnone Hnot). }
  split; [| done].
  rewrite Hpeople. unfold length_Z. f_equal.
  by rewrite (Permutation_length Hperm), length_fmap.
Qed.

(** ** The shuffle and the hybrid selection *)

Lemma shuffleLoop_draws rnd (i k : nat) (a : JS.array Application) :
  (shuffleLoop rnd i k a).2 = (k + i)%nat.
Proof.
  revert k a. induction i as [| i IH]; intros k a; simpl; [lia |].
  rewrite IH. lia.
Qed.

(** X16: with draws in [0, 1) the shuffle returns every priority
    applicant exactly once, without a hole, and takes one draw less than
    there are applicants. *)
Theorem shuffle_permutes rnd (k : nat) (tier1Apps : list Application) :
  unitDraws rnd →
  ∃ shuffled,
    shuffle rnd k tier1Apps
    = (Some <$> shuffled, (k + Nat.pred (length tier1Apps))%nat)
    ∧ shuffled ≡ₚ tier1Apps.
Proof.
  intros Hrnd. destruct (shuffle_total rnd k tier1Apps Hrnd) as [l Hl].
  exists l. split; [| by eapply shuffle_Permutation].
  revert Hl. unfold shuffle.
  pose proof (shuffleLoop_draws rnd (Nat.pred (length tier1Apps)) k
                (JS.of_list tier1Apps)) as Hk.
  destruct (shuffleLoop _ _ _ _) as [a k']. simpl in *. by intros ->; subst.
Qed.

Lemma hybridLoop_draws skill rnd turns remaining selected k :
  turns = length remaining →
  (k + turns ≤ (hybridLoop skill rnd turns remaining selected k).2 ≤ k + 2 * turns)%nat.
Proof.
  revert remaining selected k.
  induction turns as [| turns IH]; intros remaining selected k Hlen; [simpl; lia |].
  destruct remaining as [| first rest]; [done |]. cbn [hybridLoop].
  injection Hlen as Hlen.
  destruct (Qltb (rnd k) skill).
  - change (delete 0%nat (first :: rest)) with rest.
    pose proof (IH rest (selected ++ [Some first]) (S k) Hlen). lia.
  - destruct (at_index _ _) as [chosen |] eqn:Hat.
    + unfold at_index in Hat. destruct (_ <? 0); [done |].
      match goal with
      | |- context [hybridLoop _ _ _ ?rem ?sel ?k'] =>
          assert (turns = length rem) as Hrem
            by (rewrite length_delete by (by eexists); simpl; lia);
          pose proof (IH rem sel k' Hrem)
      end.
      lia.
    + match goal with
      | |- context [hybridLoop _ _ _ ?rem ?sel ?k'] =>
          assert (turns = length rem) as Hrem
            by (rewrite removelast_firstn_len, length_take; simpl; lia);
          pose proof (IH rem sel k' Hrem)
      end.
      lia.
Qed.

(** X17: with draws in [0, 1) the hybrid selection returns every
    candidate exactly once, without a hole, and takes one or two draws
    for each. *)
Theorem hybridSelection_permutes (candidates : list Application) skill rnd (k : nat) :
  unitDraws rnd →
  ∃ selected,
    (hybridSelection candidates skill rnd k).1 = Some <$> selected
    ∧ selected ≡ₚ candidates
    ∧ (k + length candidates ≤ (hybridSelection candidates skill rnd k).2
       ≤ k + 2 * length candidates)%nat.
Proof.
  intros Hrnd.
  assert (length (JS.sort byPastScoreDesc candidates) = length candidates) as Hlen
    by (by rewrite sort_Permutation).
  destruct (hybridLoop_total skill rnd (length (JS.sort byPastScoreDesc candidates))
              (JS.sort byPastScoreDesc candidates) [] k Hrnd eq_refl) as [l Hl].
  exists l. split; [exact Hl |]. split; [by eapply hybridSelection_Permutation |].
  unfold hybridSelection. rewrite <- Hlen. by apply hybridLoop_draws.
Qed.

Lemma hybridLoop_skill skill rnd (remaining : list Application) selected (k : nat) :
  (∀ n, Qltb (rnd n) skill = true) →
  hybridLoop skill rnd (length remaining) remaining selected k
  = (selected ++ (Some <$> remaining), (k + length remaining)%nat).
Proof.
  intros Hskill. revert selected k.
  induction remaining as [| a l IH]; intros selected k; simpl.
  - by rewrite app_nil_r, Nat.add_0_r.
  - rewrite Hskill. simpl. rewrite IH, <- app_assoc. simpl. f_equal. lia.
Qed.

Lemma insert_stable {A} (key : A → Q) (v : Q) (x : A) (l : list A) :
  filter (fun a => Qeq_bool (key a) v = true)
    (JS.insert (fun a b => Qle_bool (key b - key a) 0) x l)
  = filter (fun a => Qeq_bool (key a) v = true) (x :: l).
Proof.
  induction l as [| y l IH]; simpl; [done |].
  destruct (Qle_bool (key y - key x) 0) eqn:Hle; [done |].
  assert (key x < key y)%Q as Hlt.
  { apply Qnot_le_lt. intros Hn.
    assert (Qle_bool (key y - key x) 0 = true) as Ht by (apply Qle_bool_iff; lra).
    congruence. }
  rewrite (filter_cons _ y), IH, !filter_cons.
  destruct (decide (Qeq_bool (key x) v = true)) as [Hx |];
    destruct (decide (Qeq_bool (key y) v = true)) as [Hy |]; try done.
  apply Qeq_bool_iff in Hx, Hy. lra.
Qed.

(** The sort keeps the elements of one key in the order they had. *)
Lemma sort_stable {A} (key : A → Q) (v : Q) (l : list A) :
  filter (fun a => Qeq_bool (key a) v = true)
    (JS.sort (fun a b => Qle_bool (key b - key a) 0) l)
  = filter (fun a => Qeq_bool (key a) v = true) l.
Proof.
  induction l as [| x l IH]; simpl; [done |].
  by rewrite insert_stable, !filter_cons, IH.
Qed.

(** X18: where every draw is below the skill weight (a weight of 1, for
    draws in [0, 1)), the hybrid selection is the ranking by past score:
    every candidate once, in descending order of pastScore, candidates
    of one score in the order of the input, one draw each. *)
Theorem hybridSelection_skill_only (candidates : list Application) skill rnd (k : nat) :
  (∀ n, (rnd n < skill)%Q) →
  ∃ selected,
    hybridSelection candidates skill rnd k
    = (Some <$> selected, (k + length candidates)%nat)
    ∧ selected ≡ₚ candidates
    ∧ StronglySorted (fun a b => (pastScore b <= pastScore a)%Q) selected
    ∧ ∀ v, filter (fun a => Qeq_bool (pastScore a) v = true) selected
           = filter (fun a => Qeq_bool (pastScore a) v = true) candidates.
Proof.
  intros Hskill. exists (JS.sort byPastScoreDesc candidates). split_and!.
  - unfold hybridSelection.
    rewrite hybridLoop_skill by (intros n; by apply Qltb_lt).
    simpl. do 2 f_equal. apply Permutation_length, sort_Permutation.
  - apply sort_Permutation.
  - apply (sort_sorted pastScore).
  - intros v. apply (sort_stable pastScore).
Qed.

(** ** The order of the rescue tier *)

Lemma attemptsIn_tagged t (l : list Application) :
  attemptsIn t (tagged t l) = tagged t l.
Proof.
  unfold attemptsIn, tagged. apply filter_all, Forall_forall.
  intros e He. by apply list_elem_of_fmap in He as (? & -> & _).
Qed.

Lemma attemptsIn_tagged_ne t t' (l : list Application) :
  t' ≠ t → attemptsIn t (tagged t' l) = [].
Proof.
  intros Hne. unfold attemptsIn, tagged. apply filter_none, Forall_forall.
  intros e He. by apply list_elem_of_fmap in He as (? & -> & _).
Qed.

Lemma attemptsIn_app t (l1 l2 : list (Application * Tier)) :
  attemptsIn t (l1 ++ l2) = attemptsIn t l1 ++ attemptsIn t l2.
Proof. apply filter_app. Qed.

(** The attempts of a run that is not degenerate, tier by tier. *)
Lemma assignSeats_trace seats applications config r :
  assignSeats seats applications config = Normal r →
  filter (fun s => isDisabled s = false) seats ≠ [] →
  applications ≠ [] →
  ∃ t1 t3 st,
    runOf seats applications config r
      (tagged Tier1 t1
       ++ tagged Tier2 (JS.sort byPastScoreDesc (inTier Tier2 applications))
       ++ tagged Tier3 t3) st
    ∧ t1 ≡ₚ inTier Tier1 applications
    ∧ t3 ≡ₚ inTier Tier3 applications.
Proof.
  intros Hrun Hav Happs. revert Hrun. unfold assignSeats.
  destruct ((length_Z (filter _ seats) =? 0) || (length_Z applications =? 0))
    eqn:Hcond.
  { exfalso. apply orb_true_iff in Hcond as [H | H]; apply Z.eqb_eq in H.
    - destruct (filter _ seats); [done | discriminate H].
    - destruct applications; [done | discriminate H]. }
  rewrite classify_inTier.
  destruct (shuffle _ 0%nat (inTier Tier1 applications)) as [tier1Shuffled k] eqn:Hshuffle.
  set (scoredSeats := scoreSeats _ _).
  destruct (allocateTier scoredSeats Tier1 tier1Shuffled initialState)
    as [st1 |] eqn:H1; simpl; [| done].
  destruct (allocateTier scoredSeats Tier2 _ st1) as [st2 |] eqn:H2; simpl; [| done].
  destruct (allocateTier scoredSeats Tier3 _ st2) as [st3 |] eqn:H3; simpl; [| done].
  intros [= <-].
  apply allocateTier_Normal in H1 as (t1 & -> & Hrun1).
  apply allocateTier_Normal in H2 as (t2 & Heq2 & Hrun2).
  apply (inj (fmap Some)) in Heq2 as <-.
  apply allocateTier_Normal in H3 as (t3 & Heq3 & Hrun3).
  assert (t1 ≡ₚ inTier Tier1 applications) as Ht1.
  { eapply shuffle_Permutation. by rewrite Hshuffle. }
  assert (t3 ≡ₚ inTier Tier3 applications) as Ht3.
  { eapply hybridSelection_Permutation. exact Heq3. }
  exists t1, t3, st3. split_and!; [| done | done].
  split; simpl; try done.
  - rewrite runAttempts_app. fold scoredSeats. rewrite Hrun1. simpl.
    rewrite runAttempts_app, Hrun2. simpl. done.
  - rewrite <- tagged_by_tier. unfold tagged.
    by rewrite Ht1, Ht3, sort_Permutation.
  - apply tagged_inTierOrder.
Qed.

(** X19: in a run that makes attempts, the attempts of Tier 2 are made
    for the rescue applicants in descending order of pastScore,
    applicants of one score in the order of the input. *)
Theorem assignSeats_rescue_order seats applications config r :
  assignSeats seats applications config = Normal r →
  filter (fun s => isDisabled s = false) seats ≠ [] →
  applications ≠ [] →
  ∃ attempts st rescue,
    runOf seats applications config r attempts st
    ∧ attemptsIn Tier2 attempts = tagged Tier2 rescue
    ∧ rescue ≡ₚ inTier Tier2 applications
    ∧ StronglySorted (fun a b => (pastScore b <= pastScore a)%Q) rescue
    ∧ ∀ v, filter (fun a => Qeq_bool (pastScore a) v = true) rescue
           = filter (fun a => Qeq_bool (pastScore a) v = true)
               (inTier Tier2 applications).
Proof.
  intros Hrun Hav Happs.
  destruct (assignSeats_trace _ _ _ _ Hrun Hav Happs) as (t1 & t3 & st & Hr & _ & _).
  eexists _, st, (JS.sort byPastScoreDesc (inTier Tier2 applications)).
  split_and!.
  - exact Hr.
  - rewrite !attemptsIn_app, attemptsIn_tagged.
    rewrite (attemptsIn_tagged_ne Tier2 Tier1), (attemptsIn_tagged_ne Tier2 Tier3)
      by done.
    by rewrite app_nil_r.
  - apply sort_Permutation.
  - apply (sort_sorted pastScore).
  - intros v. apply (sort_stable pastScore).
Qed.

(** ** The lottery and the score updater together *)

Lemma omap_Forall2_all {A B} (f : A → option B) (R : A → B → Prop) (l : list A) :
  (∀ a, a ∈ l → ∃ b, f a = Some b ∧ R a b) →
  Forall2 R l (omap f l).
Proof.
  induction l as [| a l IH]; intros H; simpl; [constructor |].
  destruct (H a) as (b & -> & HR); [left |].
  constructor; [done |]. apply IH. intros a' Ha'. apply H. by right.
Qed.

Lemma matched_elem applications (app : Application) :
  app ∈ applications → matched applications (app_id app) = true.
Proof.
  intros Hin. unfold matched. apply existsb_exists.
  exists app. split; [by apply list_elem_of_In | apply String.eqb_refl].
Qed.

(** X20: the score updater, run on the result of the lottery with the
    same applications, skips nothing: it returns one update for every
    assignment and then one for every unassigned id, each as the rule of
    its applicant says, so one update for every applicant. *)
Theorem assignSeats_score_updates seats applications config r :
  assignSeats seats applications config = Normal r →
  ∃ seated unseated,
    calculateScoreUpdates (assignments r) (unassigned r) applications
    = seated ++ unseated
    ∧ Forall2 (seatedSpec applications) (assignments r) seated
    ∧ Forall2 (unseatedSpec applications) (unassigned r) unseated
    ∧ su_applicationId <$> (seated ++ unseated) ≡ₚ app_id <$> applications.
Proof.
  intros Hrun. pose proof (assignSeats_ids _ _ _ _ Hrun) as Hids.
  assert (∀ i, i ∈ (applicationId <$> assignments r) ++ unassigned r →
               matched applications i = true) as Hmatched.
  { intros i Hi. rewrite Hids in Hi.
    apply list_elem_of_fmap in Hi as (app & -> & Happ). by apply matched_elem. }
  assert (Forall2 (seatedSpec applications) (assignments r)
            (omap (updateOfAssignment applications) (assignments r))) as Hs.
  { apply omap_Forall2_all. intros a Ha. apply updateOfAssignment_spec.
    apply Hmatched, elem_of_app. left. by apply list_elem_of_fmap_2. }
  assert (Forall2 (unseatedSpec applications) (unassigned r)
            (omap (updateOfUnassigned applications) (unassigned r))) as Hu.
  { apply omap_Forall2_all. intros i Hi. apply updateOfUnassigned_spec.
    apply Hmatched, elem_of_app. by right. }
  eexists _, _. split; [apply calculateScoreUpdates_omap |].
  split_and!; [done | done |].
  rewrite <- Hids, fmap_app. f_equiv.
  - erewrite (Forall2_fmap_eq _ applicationId su_applicationId); [done | | exact Hs].
    by intros a u (? & _ & ? & _).
  - rewrite <- (list_fmap_id (unassigned r)) at 2.
    erewrite (Forall2_fmap_eq _ id su_applicationId); [done | | exact Hu].
    by intros a u (? & _ & ? & _).
Qed.

(** ** The scores of a run *)

Lemma fold_left_Qmax_ge (ds : list Q) (d : Q) : (d <= fold_left Qmax ds d)%Q.
Proof.
  revert d. induction ds as [| x ds IH]; intros d; simpl; [lra |].
  eapply Qle_trans; [apply (Q.le_max_l d x) | apply IH].
Qed.

Lemma maxDistanceOf_pos (d : Q) (ds : list Q) :
  (0 <= d)%Q → (0 < maxDistanceOf d ds)%Q.
Proof.
  intros Hd. unfold maxDistanceOf.
  pose proof (fold_left_Qmax_ge ds d) as Hge.
  destruct (Qeq_bool (fold_left Qmax ds d) 0) eqn:H0; [lra |].
  apply Qeq_bool_neq in H0.
  destruct (Qlt_le_dec 0 (fold_left Qmax ds d)) as [| Hle]; [done |].
  exfalso. apply H0. lra.
Qed.

(** X21: among the scored seats of a run, of two seats that are both
    premium or both not, the one that is not farther from the stage does
    not score less; and no score is negative. *)
Theorem scoreSeats_nearer_better stage (l : list Seat) (s t : SeatWithScore) :
  (∀ q, (0 <= Math_sqrt q)%Q) →
  s ∈ scoreSeats stage l → t ∈ scoreSeats stage l →
  isPremium s = isPremium t →
  (distanceFromStage s <= distanceFromStage t)%Q →
  (score t <= score s)%Q ∧ (0 <= score t)%Q.
Proof.
  intros Hsqrt Hs Ht Hprem Hdist.
  destruct l as [| s0 rest]; [by apply elem_of_nil in Hs |].
  unfold scoreSeats in Hs, Ht.
  set (m := maxDistanceOf (distanceTo stage s0) (distanceTo stage <$> rest)) in *.
  assert (0 < m)%Q as Hm by (apply maxDistanceOf_pos, Hsqrt).
  apply list_elem_of_fmap in Hs as (x & -> & _).
  apply list_elem_of_fmap in Ht as (y & -> & _).
  unfold calculateSeatScore in *. cbn [score seat distanceFromStage isPremium] in *.
  set (dx := calculateDistance (seat_x x) (seat_y x) (px stage) (py stage)) in *.
  set (dy := calculateDistance (seat_x y) (seat_y y) (px stage) (py stage)) in *.
  rewrite Hprem.
  assert (dx / m <= dy / m)%Q as Hdiv.
  { unfold Qdiv. apply Qmult_le_compat_r; [done |].
    apply Qinv_le_0_compat. lra. }
  pose proof (Q.max_le_compat_l (100 - dy / m * 100) (100 - dx / m * 100) 0) as Hmax.
  pose proof (Q.le_max_l 0 (100 - dy / m * 100)) as Hpos.
  split; destruct (isPremium y); lra.
Qed.


(** ** The bonus for a single attendee *)




Lemma soloAdjacent_empty scoredSeats (assigned : gset string) :
  soloAdjacent scoredSeats assigned ∅ = ∅.
Proof. unfold soloAdjacent. by rewrite elements_empty. Qed.




(** ** Run builder: the chunks are the longest runs *)

Lemma insert_sorted_by {A} (before : A → A → bool) (R : A → A → Prop)
    (x : A) (l : list A) :
  (∀ a b, before a b = true → R a b) →
  (∀ a b, before a b = false → R b a) →
  (∀ a b c, R a b → R b c → R a c) →
  StronglySorted R l → StronglySorted R (JS.insert before x l).
Proof.
  intros Htrue Hfalse Htrans.
  induction l as [| y l IH]; simpl; intros Hl.
  - by repeat constructor.
  - apply StronglySorted_inv in Hl as [Hl Hy].
    destruct (before x y) eqn:Hxy.
    + constructor; [by constructor |].
      constructor; [by apply Htrue |].
      eapply Forall_impl; [exact Hy |]. simpl. intros z Hz.
      eapply Htrans; [by apply Htrue | done].
    + constructor; [by apply IH |].
      rewrite insert_Permutation. constructor; [by apply Hfalse | done].
Qed.

Lemma sort_by_col (l : list SeatWithScore) :
  StronglySorted (fun a b : SeatWithScore => col0 a ≤ col0 b)
    (JS.sort (fun a b : SeatWithScore => col0 a - col0 b <=? 0) l).
Proof.
  induction l as [| x l IH]; simpl; [constructor |].
  apply insert_sorted_by; [| | | done].
  - intros a b H. apply Z.leb_le in H. lia.
  - intros a b H. apply Z.leb_gt in H. lia.
  - intros a b c ? ?. lia.
Qed.

Lemma grouped_push_keys key (s : SeatWithScore) grouped :
  (grouped_push key s grouped).*1
  = if decide (key ∈ grouped.*1) then grouped.*1 else grouped.*1 ++ [key].
Proof.
  induction grouped as [| [k l] g IH]; cbn [grouped_push].
  - destruct (decide (key ∈ [].*1)) as [H |]; [by apply elem_of_nil in H | done].
  - destruct (String.eqb k key) eqn:Hk; rewrite !fmap_cons; cbn [fst].
    + apply String.eqb_eq in Hk as ->.
      destruct (decide (key ∈ key :: g.*1)) as [| Hn]; [done |].
      exfalso. apply Hn. left.
    + apply String.eqb_neq in Hk. rewrite IH.
      destruct (decide (key ∈ g.*1)) as [Hin | Hnot],
        (decide (key ∈ k :: g.*1)) as [Hin' | Hnot']; try done.
      * exfalso. apply Hnot'. by right.
      * apply elem_of_cons in Hin' as [-> | ?]; done.
Qed.

Lemma groupSeats_keys (l : list SeatWithScore) : NoDup (groupSeats l).*1.
Proof.
  unfold groupSeats.
  assert (∀ todo grouped,
            NoDup grouped.*1 →
            NoDup (fold_left (fun grouped (s : SeatWithScore) =>
                                grouped_push (groupKey s) s grouped)
                     todo grouped).*1) as Hgen.
  { induction todo as [| s todo IH]; intros grouped Hg; simpl; [done |].
    apply IH. rewrite grouped_push_keys. case_decide; [done |].
    apply NoDup_app. split_and!; [done | | apply NoDup_singleton].
    intros x Hx ->%list_elem_of_singleton. done. }
  apply (Hgen l []). constructor.
Qed.

Lemma groupSeats_entry (l : list SeatWithScore) (s : SeatWithScore) :
  s ∈ l →
  ∃ rowSeats, (groupKey s, rowSeats) ∈ groupSeats l ∧ s ∈ rowSeats.
Proof.
  intros Hs. rewrite <- groupSeats_flat in Hs.
  apply list_elem_of_join in Hs as (rowSeats & Hs & Hrow).
  apply list_elem_of_fmap in Hrow as ([k rs] & -> & He).
  pose proof (groupSeats_ok l) as Hok. unfold groupedOk in Hok.
  rewrite Forall_forall in Hok. specialize (Hok _ He). simpl in *.
  rewrite Forall_forall in Hok. destruct (Hok s Hs) as [-> _].
  by exists rs.
Qed.

Lemma entries_by_key {A} (g : list (string * A)) k (a b : A) :
  NoDup g.*1 → (k, a) ∈ g → (k, b) ∈ g → a = b.
Proof.
  intros Hnd Ha Hb.
  apply list_elem_of_lookup in Ha as [i Hi].
  apply list_elem_of_lookup in Hb as [j Hj].
  assert (i = j) as ->.
  { eapply NoDup_lookup; [exact Hnd | |];
      rewrite list_lookup_fmap; [by rewrite Hi | by rewrite Hj]. }
  congruence.
Qed.

Lemma cutRuns_prefix cur (prev : SeatWithScore) rest :
  ∃ b, cur ++ b ∈ cutRuns cur prev rest.
Proof.
  revert cur prev. induction rest as [| s rest IH]; intros cur prev; simpl.
  - exists []. rewrite app_nil_r. left.
  - destruct (col0 s =? col0 prev + 1).
    + destruct (IH (cur ++ [s]) s) as [b Hb]. exists (s :: b).
      by rewrite <- app_assoc in Hb.
    + exists []. rewrite app_nil_r. left.
Qed.

Lemma cutRuns_consec cur (prev : SeatWithScore) (w post : list SeatWithScore) :
  (fun s : SeatWithScore => col0 s) <$> w = seqZ (col0 prev + 1) (length_Z w) →
  ∃ b, cur ++ w ++ b ∈ cutRuns cur prev (w ++ post).
Proof.
  revert cur prev. induction w as [| t w IH]; intros cur prev Hcols.
  - apply cutRuns_prefix.
  - unfold length_Z in Hcols. rewrite seqZ_cons in Hcols by (simpl; lia).
    injection Hcols as Ht Hcols. simpl.
    rewrite Ht, Z.eqb_refl.
    destruct (IH (cur ++ [t]) t) as [b Hb].
    { etransitivity; [exact Hcols |].
      rewrite Ht. f_equal; unfold length_Z; simpl length; lia. }
    exists b. by rewrite <- app_assoc in Hb.
Qed.

Lemma cutRuns_window cur (prev : SeatWithScore) (pre w post : list SeatWithScore) c :
  w ≠ [] →
  (fun s : SeatWithScore => col0 s) <$> w = seqZ c (length_Z w) →
  ∃ run a b, run ∈ cutRuns cur prev (pre ++ w ++ post) ∧ run = a ++ w ++ b.
Proof.
  intros Hne Hcols. revert cur prev.
  induction pre as [| x pre IH]; intros cur prev.
  - destruct w as [| t w]; [done |].
    unfold length_Z in Hcols. rewrite seqZ_cons in Hcols by (simpl; lia).
    injection Hcols as Ht Hcols.
    assert ((fun s : SeatWithScore => col0 s) <$> w = seqZ (col0 t + 1) (length_Z w))
      as Hcols'.
    { etransitivity; [exact Hcols |].
      rewrite Ht. f_equal; unfold length_Z; simpl length; lia. }
    simpl. destruct (col0 t =? col0 prev + 1).
    + destruct (cutRuns_consec (cur ++ [t]) t w post Hcols') as [b Hb].
      eexists _, cur, b. split; [exact Hb |]. by rewrite <- app_assoc.
    + destruct (cutRuns_consec [t] t w post Hcols') as [b Hb].
      eexists _, [], b. split; [right; exact Hb | done].
  - simpl. destruct (col0 x =? col0 prev + 1).
    + apply IH.
    + destruct (IH [x] x) as (run & a & b & Hrun & Heq).
      exists run, a, b. split; [by right | done].
Qed.

Lemma rowRuns_window (pre w post : list SeatWithScore) c :
  w ≠ [] →
  (fun s : SeatWithScore => col0 s) <$> w = seqZ c (length_Z w) →
  ∃ run a b, run ∈ rowRuns (pre ++ w ++ post) ∧ run = a ++ w ++ b.
Proof.
  intros Hne Hcols. destruct pre as [| x pre].
  - destruct w as [| t w]; [done |]. simpl.
    unfold length_Z in Hcols. rewrite seqZ_cons in Hcols by (simpl; lia).
    injection Hcols as Ht Hcols.
    destruct (cutRuns_consec [t] t w post) as [b Hb].
    { etransitivity; [exact Hcols |].
      rewrite Ht. f_equal; unfold length_Z; simpl length; lia. }
    by eexists _, [], b.
  - simpl. by eapply cutRuns_window.
Qed.

(** In a row without two seats at one column, the seats of consecutive
    columns follow each other. *)
Lemma sorted_window (sorted w : list SeatWithScore) c :
  StronglySorted (fun a b : SeatWithScore => col0 a ≤ col0 b) sorted →
  NoDup ((fun s : SeatWithScore => col0 s) <$> sorted) →
  (∀ s : SeatWithScore, s ∈ w → s ∈ sorted) →
  (fun s : SeatWithScore => col0 s) <$> w = seqZ c (length_Z w) →
  w ≠ [] →
  ∃ pre post, sorted = pre ++ w ++ post.
Proof.
  intros Hsorted Hnd Hin Hcols Hne.
  assert (∀ (p q : nat) (a b : SeatWithScore),
            (p < q)%nat → sorted !! p = Some a → sorted !! q = Some b →
            col0 a < col0 b) as Hstrict.
  { intros p q a b Hpq Hp Hq.
    pose proof (sorted_lookup _ _ _ _ _ _ Hsorted Hpq Hp Hq) as Hle. simpl in Hle.
    destruct (decide (col0 a = col0 b)) as [Heq |]; [| lia].
    assert (p = q); [| lia].
    eapply NoDup_lookup; [exact Hnd | |]; rewrite list_lookup_fmap;
      [by rewrite Hp | rewrite Hq; simpl; by rewrite Heq]. }
  assert (∀ (i : nat) (x : SeatWithScore), w !! i = Some x → col0 x = c + Z.of_nat i)
    as Hcol.
  { intros i x Hi.
    assert (((fun s : SeatWithScore => col0 s) <$> w) !! i = Some (col0 x)) as H
      by (by rewrite list_lookup_fmap, Hi).
    rewrite Hcols in H. by apply lookup_seqZ in H as [-> _]. }
  destruct w as [| s0 w']; [done |].
  destruct (proj1 (list_elem_of_lookup _ _) (Hin s0 ltac:(left))) as [p Hp].
  assert (∀ (i : nat) (x : SeatWithScore),
            (s0 :: w') !! i = Some x → sorted !! (p + i)%nat = Some x) as Hpos.
  { induction i as [| i IHi]; intros x Hi.
    - simpl in Hi. injection Hi as <-. by rewrite Nat.add_0_r.
    - destruct ((s0 :: w') !! i) as [y |] eqn:Hy.
      2: { apply lookup_ge_None in Hy. apply lookup_lt_Some in Hi. lia. }
      specialize (IHi y eq_refl).
      destruct (proj1 (list_elem_of_lookup _ _)
                  (Hin x (list_elem_of_lookup_2 _ _ _ Hi))) as [q Hq].
      pose proof (Hcol _ _ Hi) as Hcx. pose proof (Hcol _ _ Hy) as Hcy.
      assert (q = S (p + i)) as ->; [| by rewrite Nat.add_succ_r].
      destruct (decide (q ≤ p + i)%nat) as [Hle |].
      { destruct (decide (q = p + i)%nat) as [-> |].
        - rewrite Hq in IHi. injection IHi as ->. lia.
        - assert (q < p + i)%nat as Hlt by lia.
          pose proof (Hstrict _ _ _ _ Hlt Hq IHi). lia. }
      destruct (decide (q = S (p + i))) as [| Hne']; [done |].
      assert (S (p + i) < q)%nat as Hlt by lia.
      destruct (sorted !! S (p + i)) as [z |] eqn:Hz.
      2: { apply lookup_ge_None in Hz. apply lookup_lt_Some in Hq. lia. }
      assert (p + i < S (p + i))%nat as Hlt' by lia.
      pose proof (Hstrict _ _ _ _ Hlt' IHi Hz).
      pose proof (Hstrict _ _ _ _ Hlt Hz Hq). lia. }
  exists (take p sorted), (drop (length (s0 :: w')) (drop p sorted)).
  rewrite <- (take_drop p sorted) at 1. f_equal.
  rewrite <- (take_drop (length (s0 :: w')) (drop p sorted)) at 1. f_equal.
  apply list_eq. intros i.
  destruct (decide (i < length (s0 :: w'))%nat) as [Hi | Hi].
  - rewrite lookup_take_lt, lookup_drop by done.
    destruct ((s0 :: w') !! i) as [x |] eqn:Hx.
    + by apply Hpos.
    + apply lookup_ge_None in Hx. lia.
  - rewrite lookup_take_ge by lia. symmetry. apply lookup_ge_None. lia.
Qed.

(** Seats that are side by side lie in one chunk, next to each other. *)
Lemma buildAllChunks_long (l run : list SeatWithScore) :
  distinctPlaces l → run ≠ [] →
  (∀ s : SeatWithScore, s ∈ run → s ∈ l) →
  sideBySide run →
  ∃ chunk a b, chunk ∈ buildAllChunks l ∧ seats chunk = a ++ run ++ b.
Proof.
  intros Hplaces Hne Hin [[key Hkey] [c Hcols]].
  destruct run as [| s0 run']; [done |].
  destruct (groupSeats_entry l s0) as (rowSeats & Hentry & Hs0); [apply Hin; left |].
  assert (∀ s : SeatWithScore, s ∈ s0 :: run' → s ∈ rowSeats) as Hrow.
  { intros s Hs. destruct (groupSeats_entry l s (Hin s Hs)) as (rs & Hrs & Hsrs).
    rewrite (Hkey s Hs), <- (Hkey s0 ltac:(left)) in Hrs.
    by rewrite (entries_by_key _ _ _ _ (groupSeats_keys l) Hentry Hrs). }
  assert (NoDup ((fun s : SeatWithScore => col0 s) <$> rowSeats)) as Hnd.
  { assert (rowSeats ⊆+ l) as Hsub.
    { rewrite <- (groupSeats_flat l).
      apply list_elem_of_lookup in Hentry as [n Hn].
      rewrite <- (take_drop_middle _ _ _ Hn).
      rewrite fmap_app, fmap_cons, join_app. simpl.
      apply sublist_submseteq, sublist_inserts_l, sublist_inserts_r. done. }
    apply (fmap_submseteq (fun s : SeatWithScore => (groupKey s, col0 s))) in Hsub.
    destruct (submseteq_Permutation _ _ Hsub) as [k Hk].
    unfold distinctPlaces in Hplaces. rewrite Hk in Hplaces.
    apply NoDup_app in Hplaces as (Hnd & _).
    apply (NoDup_fmap_1 (pair (groupKey s0))). rewrite <- list_fmap_compose.
    erewrite list_fmap_ext; [exact Hnd |].
    intros i s Hs. simpl.
    pose proof (groupSeats_ok l) as Hok. unfold groupedOk in Hok.
    rewrite Forall_forall in Hok. specialize (Hok _ Hentry). simpl in Hok.
    rewrite Forall_forall in Hok.
    destruct (Hok s (list_elem_of_lookup_2 _ _ _ Hs)) as [-> _]. done. }
  set (sorted := JS.sort (fun a b : SeatWithScore => col0 a - col0 b <=? 0) rowSeats).
  destruct (sorted_window sorted (s0 :: run') c) as (pre & post & Hsplit);
    [apply sort_by_col | | | done | done |].
  { unfold sorted. by rewrite sort_Permutation. }
  { intros s Hs. unfold sorted. rewrite elem_of_sort. by apply Hrow. }
  destruct (rowRuns_window pre (s0 :: run') post c) as (r & a & b & Hr & Heq);
    [done | done |].
  rewrite <- Hsplit in Hr.
  eexists (mkChunk _ _ r), a, b. split; [| exact Heq].
  unfold buildAllChunks. apply list_elem_of_join.
  exists (chunksOfGroup (groupKey s0, rowSeats)).
  split; [| by apply list_elem_of_fmap_2].
  unfold chunksOfGroup. apply list_elem_of_fmap_2. exact Hr.
Qed.

(** X23: where no two unassigned seats are at the same place, an
    allocation for a party of at least one succeeds exactly when as many
    unassigned seats as the party needs sit side by side. *)
Theorem findAndAllocateSeats_succeeds_iff groupSize scoredSeats assigned solo :
  1 ≤ groupSize →
  distinctPlaces (availableOf scoredSeats assigned) →
  (∃ allocated,
     findAndAllocateSeats groupSize scoredSeats assigned solo
     = Normal (Some allocated))
  ↔ ∃ run : list SeatWithScore,
      length_Z run = groupSize
      ∧ (∀ s : SeatWithScore, s ∈ run → s ∈ availableOf scoredSeats assigned)
      ∧ sideBySide run.
Proof.
  intros Hsize Hplaces. split.
  - intros [allocated Hfind].
    destruct (findAndAllocateSeats_inv _ _ _ _ _ Hfind)
      as (cands & k & best & Hcands & <- & Hk & _).
    destruct (candidatesOf_spec _ _ _ _ _ Hcands) as (_ & Hwin & _).
    rewrite Forall_forall in Hwin.
    destruct (Hwin best) as (_ & Hlen & chunk & i & Hchunk & Hseats);
      [by eapply list_elem_of_lookup_2 |].
    destruct (buildAllChunks_ok _ _ Hchunk) as [_ Hfrom [key Hkey] Hcols].
    assert (seats best `sublist_of` seats chunk) as Hsub.
    { rewrite Hseats. etransitivity; [apply sublist_take | apply sublist_drop]. }
    exists (seats best). split_and!; [done | |].
    + intros s Hs. apply Hfrom. by eapply elem_of_sublist.
    + split.
      * exists key. intros s Hs. apply Hkey. by eapply elem_of_sublist.
      * exists (startCol chunk + Z.of_nat i).
        assert (i + Z.to_nat groupSize ≤ length (seats chunk))%nat as Hfit.
        { unfold length_Z in Hlen. rewrite Hseats, length_take, length_drop in Hlen. lia. }
        rewrite Hlen, Hseats, (window_cols _ (startCol chunk)) by done.
        f_equal. lia.
  - intros (run & Hlen & Hin & Hside).
    assert (run ≠ []) as Hne.
    { intros ->. unfold length_Z in Hlen. simpl in Hlen. lia. }
    destruct (buildAllChunks_long _ _ Hplaces Hne Hin Hside)
      as (chunk & a & b & Hchunk & Hseats).
    destruct (findAndAllocateSeats_total groupSize scoredSeats assigned solo Hsize)
      as [[allocated |] Hr]; [by exists allocated |].
    pose proof (findAndAllocateSeats_None_short _ _ _ _ chunk Hsize Hr Hchunk) as Hshort.
    unfold length_Z in *. rewrite Hseats, !length_app in Hshort. lia.
Qed.

(** ** Party sizes below 1 *)

Lemma attempt_bad_size (scoredSeats : list SeatWithScore) t app :
  groupSize app ≤ 0 → scoredSeats ≠ [] →
  attempt scoredSeats t initialState (Some app) = TypeError.
Proof.
  intros Hsize Hseats. unfold attempt, allocateApp. simpl.
  rewrite findAndAllocateSeats_TypeError; [done | done |].
  unfold availableOf. rewrite filter_all; [done |].
  apply Forall_forall. intros s _. apply not_elem_of_empty.
Qed.

Lemma allocateTier_bad_size (scoredSeats : list SeatWithScore) t
    (l : list Application) :
  (∀ app, app ∈ l → groupSize app ≤ 0) → scoredSeats ≠ [] →
  allocateTier scoredSeats t (Some <$> l) initialState
  = match l with [] => Normal initialState | _ :: _ => TypeError end.
Proof.
  intros Hsizes Hseats. destruct l as [| app l]; [done |].
  cbn [fmap list_fmap allocateTier].
  rewrite attempt_bad_size; [done | | done]. apply Hsizes. left.
Qed.

(** X24: where a seat is open, a run whose applicants all ask for less
    than one seat raises a TypeError, for draws in [0, 1). *)
Theorem assignSeats_bad_sizes seats applications config :
  filter (fun s => isDisabled s = false) seats ≠ [] →
  applications ≠ [] →
  (∀ app, app ∈ applications → groupSize app ≤ 0) →
  unitDraws (default Math_random (randomFn config)) →
  assignSeats seats applications config = TypeError.
Proof.
  intros Hav Happs Hsizes Hrnd. unfold assignSeats.
  destruct ((length_Z (filter _ seats) =? 0) || (length_Z applications =? 0))
    eqn:Hcond.
  { exfalso. apply orb_true_iff in Hcond as [H | H]; apply Z.eqb_eq in H.
    - destruct (filter _ seats); [done | discriminate H].
    - destruct applications; [done | discriminate H]. }
  rewrite classify_inTier.
  assert (∀ t (l : list Application) app,
            l ≡ₚ inTier t applications → app ∈ l → groupSize app ≤ 0) as Hin.
  { intros t l app Hl Happ. rewrite Hl in Happ. unfold inTier in Happ.
    apply list_elem_of_filter in Happ as [_ Happ]. by apply Hsizes. }
  destruct (shuffle _ 0%nat (inTier Tier1 applications)) as [tier1Shuffled k] eqn:Hshuffle.
  destruct (shuffle_total _ 0%nat (inTier Tier1 applications) Hrnd) as [t1 Ht1].
  rewrite Hshuffle in Ht1. simpl in Ht1. subst tier1Shuffled.
  assert (t1 ≡ₚ inTier Tier1 applications) as Hp1.
  { eapply shuffle_Permutation. by rewrite Hshuffle. }
  set (scoredSeats := scoreSeats _ _).
  assert (scoredSeats ≠ []) as Hseats.
  { unfold scoredSeats, scoreSeats. by destruct (filter _ seats). }
  rewrite (allocateTier_bad_size scoredSeats Tier1 t1) by (by eauto).
  destruct t1 as [| a1 t1]; [simpl | done].
  rewrite (allocateTier_bad_size scoredSeats Tier2) by
    (try done; intros app; apply (Hin Tier2); apply sort_Permutation).
  destruct (JS.sort byPastScoreDesc (inTier Tier2 applications)) as [| a2 t2] eqn:Hsort;
    [simpl | done].
  assert (∃ t3, (hybridSelection (inTier Tier3 applications)
                   (default (70 # 100)%Q (skillWeight config))
                   (default Math_random (randomFn config)) k).1 = Some <$> t3)
    as [t3 Ht3].
  { unfold hybridSelection. by apply (hybridLoop_total _ _ _ _ [] k Hrnd). }
  rewrite Ht3.
  assert (t3 ≡ₚ inTier Tier3 applications) as Hp3.
  { eapply hybridSelection_Permutation. exact Ht3. }
  rewrite (allocateTier_bad_size scoredSeats Tier3 t3) by (by eauto).
  destruct t3 as [| a3 t3]; [exfalso | done].
  pose proof (Permutation_length (tagged_by_tier applications)) as Hlen.
  assert (inTier Tier2 applications = []) as H2.
  { apply Permutation_nil_r. by rewrite <- Hsort, sort_Permutation. }
  symmetry in Hp1, Hp3. apply Permutation_nil_r in Hp1, Hp3.
  rewrite Hp1, Hp3, H2 in Hlen. simpl in Hlen. rewrite length_fmap in Hlen.
  destruct applications; [done | discriminate Hlen].
Qed.

(** * The choice of the group allocator *)

Lemma cmapM_fmap_Normal {A A' B B'} (f : A → completion B) (f' : A' → completion B')
    (h : A → A') (g : B → B') (l : list A) :
  (∀ x, f' (h x)
        = match f x with Normal b => Normal (g b) | TypeError => TypeError end) →
  cmapM f' (h <$> l)
  = match cmapM f l with Normal bs => Normal (g <$> bs) | TypeError => TypeError end.
Proof.
  intros Hf. induction l as [| a l IH]; csimpl; [done |].
  rewrite Hf, IH. destruct (f a); simpl; [| done]. by destruct (cmapM f l).
Qed.

Lemma fmap_join {A B} (f : A → B) (ls : list (list A)) :
  f <$> mjoin ls = mjoin (fmap f <$> ls).
Proof.
  induction ls as [| l ls IH]; csimpl; [done |]. by rewrite fmap_app, IH.
Qed.

Lemma buildAllChunksIn_rescore (ar : Arithmetic) (l : list SeatWithScore) :
  buildAllChunksIn ar l = rescore ar <$> buildAllChunks l.
Proof.
  unfold buildAllChunksIn, buildAllChunks.
  induction (groupSeats l) as [| [key rowSeats] rest IH]; csimpl; [done |].
  rewrite fmap_app, IH. f_equal.
  unfold chunksOfGroupIn, chunksOfGroup. rewrite <- list_fmap_compose.
  by apply list_fmap_ext.
Qed.

Lemma getSubChunksIn_rescore (ar : Arithmetic) (chunk : SeatChunk) (size : Z) :
  getSubChunksIn ar (rescore ar chunk) size
  = match getSubChunks chunk size with
    | Normal subs => Normal (rescore ar <$> subs)
    | TypeError => TypeError
    end.
Proof.
  unfold getSubChunksIn, getSubChunks. cbn [rescore seats].
  destruct (length_Z (seats chunk) <? size); [done |].
  rewrite <- (list_fmap_id (seqZ 0 (length_Z (seats chunk) - size + 1))) at 1.
  apply cmapM_fmap_Normal. intros i.
  unfold subChunkAtIn, subChunkAt. cbn [rescore seats].
  unfold id. by destruct (JS.slice (seats chunk) i (i + size)).
Qed.

(** The candidates in [ar] are the candidates before the bonus loop,
    with their averages taken in [ar], after the bonus loop in [ar]. *)
Lemma candidatesOfIn_raw (ar : Arithmetic) groupSize scoredSeats assigned solo :
  candidatesOfIn ar groupSize scoredSeats assigned solo
  = match candidatesOf groupSize scoredSeats assigned None with
    | Normal (Some raw) =>
        Normal (Some (applySoloBonusIn ar groupSize scoredSeats assigned solo
                        (rescore ar <$> raw)))
    | Normal None => Normal None
    | TypeError => TypeError
    end.
Proof.
  unfold candidatesOfIn, candidatesOf.
  destruct (_ <? groupSize); [done |].
  rewrite buildAllChunksIn_rescore.
  rewrite (cmapM_fmap_Normal (fun chunk => getSubChunks chunk groupSize) _
             (rescore ar) (fmap (rescore ar)))
    by (intros chunk; apply getSubChunksIn_rescore).
  destruct (cmapM _ _) as [perChunk |]; simpl; [| done].
  rewrite <- fmap_join.
  unfold length_Z. rewrite length_fmap.
  by destruct (Z.of_nat (length (mjoin perChunk)) =? 0).
Qed.

Lemma getSubChunks_seats (chunk : SeatChunk) (size : Z) (subs : list SeatChunk) :
  1 ≤ size → getSubChunks chunk size = Normal subs →
  seats <$> subs = windowsOf size (seats chunk).
Proof.
  unfold getSubChunks, windowsOf. intros Hsize.
  destruct (length_Z (seats chunk) <? size) eqn:Hlt.
  - apply Z.ltb_lt in Hlt. intros [= <-].
    by replace (Z.to_nat (length_Z (seats chunk) - size + 1)) with 0%nat by lia.
  - apply Z.ltb_ge in Hlt. rewrite cmapM_Normal. intros Hall.
    apply list_eq. intros k. rewrite !list_lookup_fmap.
    destruct (subs !! k) as [c |] eqn:Hk; simpl.
    + destruct (Forall2_lookup_r _ _ _ _ _ Hall Hk) as (i & Hi & Hsub).
      apply lookup_seqZ in Hi as [-> Hrange].
      rewrite lookup_seq_lt by lia. simpl.
      unfold subChunkAt in Hsub.
      destruct (slice_window (seats chunk) (0 + Z.of_nat k) size) as [Heq _];
        [lia | done | lia |].
      destruct (JS.slice (seats chunk) (0 + Z.of_nat k) (0 + Z.of_nat k + size))
        as [| s0 rest] eqn:Hslice; [done |].
      injection Hsub as <-. simpl. rewrite Heq. do 3 f_equal. lia.
    + apply lookup_ge_None in Hk. apply Forall2_length in Hall.
      rewrite length_seqZ in Hall.
      rewrite lookup_seq_ge by lia. done.
Qed.

Lemma candidatesOf_seats groupSize scoredSeats assigned raw :
  1 ≤ groupSize →
  candidatesOf groupSize scoredSeats assigned None = Normal (Some raw) →
  seats <$> raw = candidateSeats groupSize (availableOf scoredSeats assigned).
Proof.
  intros Hsize. unfold candidatesOf, candidateSeats.
  destruct (_ <? groupSize); [done |].
  destruct (cmapM _ _) as [perChunk |] eqn:Hper; simpl; [| done].
  destruct (length_Z (mjoin perChunk) =? 0); [done |].
  intros [= <-]. apply cmapM_Normal in Hper.
  rewrite fmap_join. f_equal.
  apply (Forall2_fmap_eq (fun chunk subs => getSubChunks chunk groupSize = Normal subs)
           (fun chunk => windowsOf groupSize (seats chunk)) (fmap seats)); [| done].
  intros chunk subs Hget. by apply getSubChunks_seats.
Qed.

(** The score of each candidate after the bonus loop. *)
Lemma applySoloBonusIn_scores (ar : Arithmetic) groupSize scoredSeats assigned solo
    (raw : list SeatChunk) :
  (∀ c, c ∈ raw → avgScore c = meanIn ar (seats c)) →
  Forall2
    (fun c c' =>
       seats c' = seats c
       ∧ avgScore c'
         = if bonusFor groupSize scoredSeats assigned solo (seats c)
           then ar_add ar (meanIn ar (seats c))
                  (ar_mul ar (JS.max_with (meanIn ar <$> (seats <$> raw)) 1) (2 # 10))
           else meanIn ar (seats c))
    raw (applySoloBonusIn ar groupSize scoredSeats assigned solo raw).
Proof.
  intros Havg.
  assert (avgScore <$> raw = meanIn ar <$> (seats <$> raw)) as Hmeans.
  { rewrite <- list_fmap_compose. apply list_fmap_ext.
    intros i c Hc. apply Havg. by eapply list_elem_of_lookup_2. }
  assert ((∀ w, bonusFor groupSize scoredSeats assigned solo w = false) →
          Forall2
            (fun c c' =>
               seats c' = seats c
               ∧ avgScore c'
                 = if bonusFor groupSize scoredSeats assigned solo (seats c)
                   then ar_add ar (meanIn ar (seats c))
                          (ar_mul ar (JS.max_with (meanIn ar <$> (seats <$> raw)) 1)
                             (2 # 10))
                   else meanIn ar (seats c))
            raw raw) as Hsame.
  { intros Hno. apply Forall_Forall2_diag, Forall_forall. intros c Hc.
    split; [done |]. rewrite Hno. by apply Havg. }
  assert (∀ soloIds, solo = Some soloIds →
            soloAdjacent scoredSeats assigned soloIds = ∅ →
            ∀ w, bonusFor groupSize scoredSeats assigned solo w = false) as Hnone.
  { intros soloIds -> Hempty w. unfold bonusFor, nearSolo.
    destruct (head w) as [s0 |]; [| apply andb_false_r].
    rewrite Hempty.
    rewrite (bool_decide_eq_false_2 (seat_id s0 ∈ (∅ : gset string)))
      by apply not_elem_of_empty.
    by rewrite !andb_false_r. }
  unfold applySoloBonusIn.
  destruct solo as [soloIds |]; [| apply Hsame; intros w; apply andb_false_r].
  destruct (groupSize =? 1) eqn:Hone;
    [| apply Hsame; intros w; unfold bonusFor; by rewrite Hone].
  cbn [andb].
  destruct (0 <? Z.of_nat (size soloIds)) eqn:Hsolo.
  - destruct (0 <? Z.of_nat (size (soloAdjacent scoredSeats assigned soloIds)))
      eqn:Hadj.
    + rewrite Hmeans.
      apply Forall2_fmap_r, Forall_Forall2_diag, Forall_forall. intros c Hc.
      unfold compose, addBonusIn, bonusFor, nearSolo. rewrite Hone. cbn [andb].
      destruct (head (seats c)) as [s0 |] eqn:Hhead;
        [| split; [done | by apply Havg]].
      destruct (truthy (seat_id s0) && _); cbn [seats avgScore];
        (split; [done |]); by rewrite ?Havg.
    + apply Hsame, (Hnone soloIds eq_refl). apply Z.ltb_ge in Hadj.
      apply leibniz_equiv, size_empty_iff. lia.
  - apply Hsame, (Hnone soloIds eq_refl). apply Z.ltb_ge in Hsolo.
    assert (soloIds = ∅) as -> by (apply leibniz_equiv, size_empty_iff; lia).
    apply soloAdjacent_empty.
Qed.

(** A candidate is a run of [groupSize] unassigned seats side by side. *)
Lemma candidateSeats_sound groupSize (available w : list SeatWithScore) :
  1 ≤ groupSize → w ∈ candidateSeats groupSize available →
  length_Z w = groupSize
  ∧ (∀ s : SeatWithScore, s ∈ w → s ∈ available)
  ∧ sideBySide w.
Proof.
  intros Hsize Hw. unfold candidateSeats in Hw.
  apply list_elem_of_join in Hw as (ws & Hw & Hws).
  apply list_elem_of_fmap in Hws as (chunk & -> & Hchunk).
  unfold windowsOf in Hw. apply list_elem_of_fmap in Hw as (i & -> & Hi).
  apply elem_of_seq in Hi as [_ Hi].
  destruct (buildAllChunks_ok _ _ Hchunk) as [_ Hfrom [key Hkey] Hcols].
  assert (i + Z.to_nat groupSize ≤ length (seats chunk))%nat as Hfit
    by (unfold length_Z in Hi; lia).
  assert (take (Z.to_nat groupSize) (drop i (seats chunk)) `sublist_of` seats chunk)
    as Hsub by (etransitivity; [apply sublist_take | apply sublist_drop]).
  assert (length_Z (take (Z.to_nat groupSize) (drop i (seats chunk))) = groupSize)
    as Hlen by (unfold length_Z; rewrite length_take, length_drop; lia).
  split_and!; [done | |].
  - intros s Hs. apply Hfrom. by eapply elem_of_sublist.
  - split.
    + exists key. intros s Hs. apply Hkey. by eapply elem_of_sublist.
    + exists (startCol chunk + Z.of_nat i).
      rewrite Hlen, (window_cols _ (startCol chunk)) by done.
      f_equal. lia.
Qed.

(** Where no two seats are at the same place, every run of [groupSize]
    seats side by side is a candidate. *)
Lemma candidateSeats_complete groupSize (available run : list SeatWithScore) :
  1 ≤ groupSize → distinctPlaces available →
  length_Z run = groupSize →
  (∀ s : SeatWithScore, s ∈ run → s ∈ available) →
  sideBySide run →
  run ∈ candidateSeats groupSize available.
Proof.
  intros Hsize Hplaces Hlen Hin Hside.
  assert (run ≠ []) as Hne.
  { intros ->. unfold length_Z in Hlen. simpl in Hlen. lia. }
  destruct (buildAllChunks_long _ _ Hplaces Hne Hin Hside)
    as (chunk & a & b & Hchunk & Hseats).
  unfold candidateSeats. apply list_elem_of_join.
  exists (windowsOf groupSize (seats chunk)).
  split;
    [| by apply (list_elem_of_fmap_2 (fun chunk => windowsOf groupSize (seats chunk)))].
  unfold windowsOf. apply list_elem_of_fmap. exists (length a). split.
  - rewrite Hseats, drop_app_length.
    unfold length_Z in Hlen. rewrite take_app_length' by lia. done.
  - apply elem_of_seq. unfold length_Z in *.
    rewrite Hseats, !length_app. lia.
Qed.

Lemma firstBest_fmap {A B} (f : A → B) (key' : A → Q) (key : B → Q)
    (l : list A) (k : nat) (best : A) :
  (∀ c, c ∈ l → key' c = key (f c)) →
  firstBest key' l k best → firstBest key (f <$> l) k (f best).
Proof.
  intros Hkey (Hk & Hmax & Hfirst).
  assert (key' best = key (f best)) as Hbest
    by (apply Hkey; by eapply list_elem_of_lookup_2).
  split_and!.
  - by rewrite list_lookup_fmap, Hk.
  - intros b Hb. apply list_elem_of_fmap in Hb as (c & -> & Hc).
    rewrite <- Hbest, <- (Hkey c Hc). by apply Hmax.
  - intros j b Hj Hb. rewrite list_lookup_fmap in Hb.
    destruct (l !! j) as [c |] eqn:Hc; [| done]. injection Hb as <-.
    rewrite <- Hbest, <- (Hkey c (list_elem_of_lookup_2 _ _ _ Hc)).
    by apply (Hfirst j).
Qed.

(** The choice of the allocator, in any arithmetic. *)
Lemma findAndAllocateSeatsIn_choice (ar : Arithmetic) groupSize scoredSeats assigned
    solo allocated :
  findAndAllocateSeatsIn ar groupSize scoredSeats assigned solo
  = Normal (Some allocated) →
  1 ≤ groupSize
  ∧ ∃ k : nat,
      firstBest (candidateScore ar groupSize scoredSeats assigned solo)
        (candidateSeats groupSize (availableOf scoredSeats assigned)) k allocated.
Proof.
  unfold findAndAllocateSeatsIn. rewrite candidatesOfIn_raw.
  destruct (candidatesOf groupSize scoredSeats assigned None)
    as [[raw |] |] eqn:Hraw; simpl; try done.
  destruct (JS.sort byAvgScoreDesc _) as [| best rest] eqn:Hsort; [done |].
  intros [= <-].
  destruct (candidatesOf_spec _ _ _ _ _ Hraw) as (Hne & Hwin & _).
  assert (1 ≤ groupSize) as Hsize.
  { destruct raw as [| c ?]; [done |]. by inversion_clear Hwin as [| ? ? [? _] _]. }
  split; [done |].
  destruct (sort_desc_head avgScore _ best rest Hsort) as [k Hk].
  exists k.
  pose proof (applySoloBonusIn_scores ar groupSize scoredSeats assigned solo
                (rescore ar <$> raw)) as Hscores.
  assert (seats <$> (rescore ar <$> raw)
          = candidateSeats groupSize (availableOf scoredSeats assigned)) as Hseats.
  { rewrite <- list_fmap_compose. by apply candidatesOf_seats. }
  rewrite Hseats in Hscores.
  set (cands := applySoloBonusIn ar groupSize scoredSeats assigned solo
                  (rescore ar <$> raw)) in *.
  assert (Forall2 (fun c c' => seats c' = seats c
             ∧ avgScore c'
               = candidateScore ar groupSize scoredSeats assigned solo (seats c))
            (rescore ar <$> raw) cands) as Hall.
  { apply Hscores. intros c Hc. by apply list_elem_of_fmap in Hc as (c0 & -> & _). }
  assert (seats <$> cands
          = candidateSeats groupSize (availableOf scoredSeats assigned)) as <-.
  { rewrite <- Hseats. apply (Forall2_fmap_eq _ _ _ _ _ (fun c c' H => proj1 H) Hall). }
  apply (firstBest_fmap seats avgScore); [| done].
  intros c' Hc'. apply list_elem_of_lookup in Hc' as [j Hj].
  destruct (Forall2_lookup_r _ _ _ _ _ Hall Hj) as (c & _ & Hs & Hkey).
  by rewrite Hkey, Hs.
Qed.

(** C6, amended: a successful allocation returns the first window, in the
    order of enumeration, whose score is the greatest, whatever the
    additions, the multiplications and the divisions of scores round to.
    The windows enumerated are runs of [groupSize] unassigned seats side
    by side, and they are all such runs where no two unassigned seats are
    at the same place.  The score of a window is the mean of the scores
    of its seats, with the bonus added for a single attendee on a window
    beside a seated single attendee.  With the exact operations the
    allocator is [findAndAllocateSeats], and the score is the exact mean
    for a party of more than one and when no seated single attendees are
    given.  In scenario A a party of 3 gets the seats scored 30, 40 and
    50, of average 40. *)
Theorem findAndAllocateSeats_best :
  (∀ (ar : Arithmetic) groupSize scoredSeats assigned solo allocated,
     findAndAllocateSeatsIn ar groupSize scoredSeats assigned solo
     = Normal (Some allocated) →
     (∃ k : nat,
        firstBest (candidateScore ar groupSize scoredSeats assigned solo)
          (candidateSeats groupSize (availableOf scoredSeats assigned))
          k allocated)
     ∧ (∀ w, w ∈ candidateSeats groupSize (availableOf scoredSeats assigned) →
          length_Z w = groupSize
          ∧ (∀ s : SeatWithScore, s ∈ w → s ∈ availableOf scoredSeats assigned)
          ∧ sideBySide w)
     ∧ (distinctPlaces (availableOf scoredSeats assigned) →
        ∀ run : list SeatWithScore,
          length_Z run = groupSize →
          (∀ s : SeatWithScore, s ∈ run → s ∈ availableOf scoredSeats assigned) →
          sideBySide run →
          run ∈ candidateSeats groupSize (availableOf scoredSeats assigned)
          ∧ (candidateScore ar groupSize scoredSeats assigned solo run
             <= candidateScore ar groupSize scoredSeats assigned solo allocated)%Q))
  ∧ (∀ groupSize scoredSeats assigned solo,
       findAndAllocateSeatsIn exactArithmetic groupSize scoredSeats assigned solo
       = findAndAllocateSeats groupSize scoredSeats assigned solo)
  ∧ (∀ groupSize scoredSeats assigned solo w,
       groupSize ≠ 1 ∨ solo = None →
       candidateScore exactArithmetic groupSize scoredSeats assigned solo w
       = mean_score w)
  ∧ findAndAllocateSeats 3 scenarioA ∅ None
    = Normal (Some [scoredSeatAt "s3" 3 30; scoredSeatAt "s4" 4 40;
                    scoredSeatAt "s5" 5 50])
  ∧ (mean_score [scoredSeatAt "s3" 3 30; scoredSeatAt "s4" 4 40;
                 scoredSeatAt "s5" 5 50] == 40)%Q.
Proof.
  split_and!.
  - intros ar groupSize scoredSeats assigned solo allocated Hfind.
    destruct (findAndAllocateSeatsIn_choice _ _ _ _ _ _ Hfind)
      as (Hsize & k & Hk & Hmax & Hfirst).
    split_and!.
    + by exists k.
    + intros w Hw. by apply candidateSeats_sound.
    + intros Hplaces run Hlen Hin Hside.
      pose proof (candidateSeats_complete _ _ _ Hsize Hplaces Hlen Hin Hside) as Hrun.
      split; [done | by apply Hmax].
  - reflexivity.
  - intros groupSize scoredSeats assigned solo w Hno.
    unfold candidateScore, bonusFor.
    destruct Hno as [Hg | ->]; [by apply Z.eqb_neq in Hg as -> |].
    by rewrite andb_false_r.
  - by vm_compute.
  - by vm_compute.
Qed.

(** * The lottery hook *)

Section HookProperties.

Context {trig : Trigonometry}.

(** ** The seats of a run *)

Lemma disableLocked_open locked (lotterySeats : list Seat) (s : Seat) :
  s ∈ disableLocked locked lotterySeats → isDisabled s = false →
  s ∈ lotterySeats ∧ seat_id s ∉ lockedIdsOf locked.
Proof.
  unfold disableLocked. intros Hs Hopen.
  apply list_elem_of_fmap in Hs as (s0 & -> & Hs0).
  destruct (decide (seat_id s0 ∈ _)) as [| Hnot]; [done |].
  split; [done |]. intros Hin. apply Hnot. by apply elem_of_list_to_set.
Qed.

Lemma lotterySeatsOf_elem blocks (s : Seat) :
  s ∈ lotterySeatsOf blocks →
  ∃ block seat, block ∈ blocks ∧ seat ∈ block_seats block
    ∧ s = lotterySeatOf block seat.
Proof.
  unfold lotterySeatsOf. intros Hs.
  apply list_elem_of_join in Hs as (l & Hs & Hl).
  apply list_elem_of_fmap in Hl as (block & -> & Hblock).
  apply list_elem_of_fmap in Hs as (seat & -> & Hseat).
  by exists block, seat.
Qed.

Lemma runLottery_inv applications stage skill locked blocks out :
  runLottery applications stage skill locked blocks = Normal (Some out) →
  assignSeats (disableLocked locked (lotterySeatsOf blocks))
    (toApplication <$> applications)
    {| stagePosition := stage; skillWeight := Some skill; randomFn := None |}
  = Normal (ro_result out)
  ∧ ro_scoreUpdates out
    = calculateScoreUpdates (assignments (ro_result out)) (unassigned (ro_result out))
        (toApplication <$> applications)
  ∧ ro_assignments out
    = unshiftLocked locked
        (colouredAssignments applications (assignments (ro_result out)))
  ∧ ro_seatAssignmentMap out = seatMapOf (ro_assignments out).
Proof.
  unfold runLottery. destruct (_ || _); [done |].
  destruct (assignSeats _ _ _) as [r |]; simpl; [| done].
  by intros [= <-].
Qed.

Lemma granted_not_locked locked blocks applications config r i :
  assignSeats (disableLocked locked (lotterySeatsOf blocks)) applications config
  = Normal r →
  i ∈ grantedIds (assignments r) →
  (i ∉ lockedIdsOf locked)
  ∧ (∃ block seat, block ∈ blocks ∧ seat ∈ block_seats block
       ∧ vs_id seat = i ∧ vs_isDisabled seat = false).
Proof.
  intros Hrun Hi.
  pose proof (elem_of_submseteq _ _ _ Hi (assignSeats_granted _ _ _ _ Hrun)) as Hin.
  apply list_elem_of_fmap in Hin as (s & -> & Hs).
  apply list_elem_of_filter in Hs as [Hopen Hs].
  destruct (disableLocked_open _ _ _ Hs Hopen) as [Hs' Hnot].
  split; [done |].
  destruct (lotterySeatsOf_elem _ _ Hs') as (block & seat & Hblock & Hseat & ->).
  by exists block, seat.
Qed.

(** X25: a run of the hook grants no locked seat: every seat id of an
    assignment of the result is the id of a seat of one of the blocks
    that is not disabled and not locked. *)
Theorem runLottery_skips_locked applications stage skill locked blocks out i :
  runLottery applications stage skill locked blocks = Normal (Some out) →
  i ∈ grantedIds (assignments (ro_result out)) →
  (i ∉ lockedIdsOf locked)
  ∧ (∃ block seat, block ∈ blocks ∧ seat ∈ block_seats block
       ∧ vs_id seat = i ∧ vs_isDisabled seat = false).
Proof.
  intros Hrun Hi. destruct (runLottery_inv _ _ _ _ _ _ Hrun) as (Hassign & _).
  by eapply granted_not_locked.
Qed.

(** ** The map from seats to assignments *)

Lemma disjointLists_app (l1 l2 : list (list string)) :
  disjointLists l1 → disjointLists l2 →
  (∀ a b i, a ∈ l1 → b ∈ l2 → i ∈ a → i ∉ b) →
  disjointLists (l1 ++ l2).
Proof.
  intros H1 H2 Hcross j k a b i Hjk Hj Hk Hi Hi'.
  apply lookup_app_Some in Hj as [Hj | [Hj1 Hj]];
    apply lookup_app_Some in Hk as [Hk | [Hk1 Hk]].
  - by eapply (H1 j k).
  - eapply (Hcross a b i); [by eapply list_elem_of_lookup_2 .. | done | done].
  - eapply (Hcross b a i); [by eapply list_elem_of_lookup_2 .. | done | done].
  - eapply (H2 (j - length l1)%nat (k - length l1)%nat); [lia | done ..].
Qed.

Lemma NoDup_disjointLists (ls : list (list string)) :
  NoDup (mjoin ls) → disjointLists ls.
Proof.
  induction ls as [| x ls IH]; intros Hnd j k a b i Hjk Hj Hk Hi Hi'; [done |].
  simpl in Hnd. apply NoDup_app in Hnd as (_ & Hcross & Hnd).
  destruct j as [| j], k as [| k]; simpl in *; simplify_eq.
  - apply (Hcross i Hi). apply list_elem_of_join. exists b.
    split; [done | by eapply list_elem_of_lookup_2].
  - apply (Hcross i Hi'). apply list_elem_of_join. exists a.
    split; [done | by eapply list_elem_of_lookup_2].
  - eapply (IH Hnd j k); [lia | done ..].
Qed.

Lemma insert_all_lookup (ids : list string) (b : LotteryAssignment)
    (m : gmap string LotteryAssignment) (i : string) :
  fold_left (fun newMap seatId => <[seatId := b]> newMap) ids m !! i
  = if decide (i ∈ ids) then Some b else m !! i.
Proof.
  revert m. induction ids as [| s ids IH]; intros m; simpl.
  - destruct (decide (i ∈ [])) as [H |]; [by apply elem_of_nil in H | done].
  - rewrite IH.
    destruct (decide (i ∈ ids)) as [Hin | Hnot],
      (decide (i ∈ s :: ids)) as [Hin' | Hnot']; try done.
    + exfalso. apply Hnot'. by right.
    + apply elem_of_cons in Hin' as [-> | ?]; [by rewrite lookup_insert_eq | done].
    + rewrite lookup_insert_ne; [done |]. intros <-. apply Hnot'. left.
Qed.

Lemma seatMapOf_snoc (l : list LotteryAssignment) (b : LotteryAssignment) i :
  seatMapOf (l ++ [b]) !! i
  = if decide (i ∈ la_seatIds b) then Some b else seatMapOf l !! i.
Proof.
  unfold seatMapOf. rewrite fold_left_app. simpl. apply insert_all_lookup.
Qed.

(** An entry of the map belongs to an assignment that holds its key. *)
Lemma seatMapOf_sound (l : list LotteryAssignment) i a :
  seatMapOf l !! i = Some a → a ∈ l ∧ i ∈ la_seatIds a.
Proof.
  induction l as [| b l IH] using rev_ind; [done |].
  rewrite seatMapOf_snoc. destruct (decide (i ∈ la_seatIds b)) as [Hin | Hnot].
  - intros [= <-]. split; [| done]. apply elem_of_app. right. left.
  - intros H. destruct (IH H) as [? ?]. split; [| done]. apply elem_of_app. by left.
Qed.

(** Where no two assignments share a seat, each seat leads to its own. *)
Lemma seatMapOf_lookup (l : list LotteryAssignment) a i :
  disjointLists (la_seatIds <$> l) →
  a ∈ l → i ∈ la_seatIds a → seatMapOf l !! i = Some a.
Proof.
  induction l as [| b l IH] using rev_ind; intros Hdis Ha Hi.
  { by apply elem_of_nil in Ha. }
  rewrite seatMapOf_snoc.
  apply elem_of_app in Ha as [Ha | Ha].
  - apply list_elem_of_lookup in Ha as [j Hj].
    rewrite decide_False.
    + apply IH; [| by eapply list_elem_of_lookup_2 | done].
      intros j' k' a' b' i' Hne Hj' Hk'. rewrite fmap_app in Hdis.
      eapply (Hdis j' k'); [done | by apply lookup_app_l_Some ..].
    + pose proof (lookup_lt_Some _ _ _ Hj) as Hlt.
      apply (Hdis j (length l) (la_seatIds a) (la_seatIds b) i); [lia | | | done].
      * rewrite list_lookup_fmap, lookup_app_l by done. by rewrite Hj.
      * rewrite list_lookup_fmap, lookup_app_r by done.
        by rewrite Nat.sub_diag.
  - apply list_elem_of_singleton in Ha as ->. by rewrite decide_True.
Qed.

Lemma colourAssignment_seatIds applications (l : list Assignment)
    (acc : list LotteryAssignment * nat) :
  la_seatIds <$> (fold_left (colourAssignment applications) l acc).1
  = (la_seatIds <$> acc.1) ++ (seatIds <$> l).
Proof.
  revert acc. induction l as [| a l IH]; intros [done colorIndex]; simpl.
  - by rewrite app_nil_r.
  - rewrite IH. unfold colourAssignment.
    repeat case_match; simplify_eq; simpl; rewrite fmap_app, <- app_assoc; done.
Qed.

Lemma colouredAssignments_seatIds applications (l : list Assignment) :
  la_seatIds <$> colouredAssignments applications l = seatIds <$> l.
Proof. unfold colouredAssignments. by rewrite colourAssignment_seatIds. Qed.

Lemma unshiftLocked_reverse locked (l : list LotteryAssignment) :
  unshiftLocked locked l = reverse (lockedAssignment <$> locked) ++ l.
Proof.
  unfold unshiftLocked. revert l.
  induction locked as [| x locked IH]; intros l; simpl; [done |].
  rewrite IH. csimpl. rewrite reverse_cons, <- app_assoc. done.
Qed.

Lemma assignSeats_disjoint seats applications config r :
  assignSeats seats applications config = Normal r →
  disjointLists (seatIds <$> assignments r).
Proof.
  intros Hrun j k a b i Hjk Hj Hk.
  destruct (assignSeats_cases _ _ _ _ Hrun) as [[_ ->] | (_ & _ & attempts & st & Hr)];
    [done |].
  pose proof (runOf_ok _ _ _ _ _ _ Hr) as Hok.
  rewrite (run_assignments _ _ _ _ _ _ Hr) in Hj, Hk.
  pose proof (assignSeatQuality_same (st_assignments st)) as Hsame.
  apply list_lookup_fmap_Some in Hj as (a1 & -> & Hj).
  apply list_lookup_fmap_Some in Hk as (b1 & -> & Hk).
  destruct (Forall2_lookup_r _ _ _ _ _ Hsame Hj) as (a0 & Ha0 & _ & Hida & _).
  destruct (Forall2_lookup_r _ _ _ _ _ Hsame Hk) as (b0 & Hb0 & _ & Hidb & _).
  rewrite Hida, Hidb. by eapply (ok_disjoint _ _ Hok j k).
Qed.

(** X26: where no seat is locked twice, the map a run of the hook stores
    leads from every seat of an assignment it lists to that assignment:
    from a locked seat to the Tier 0 entry of its lock, from a granted
    seat to the assignment of the lottery; and it has no other entry. *)
Theorem runLottery_seat_map applications stage skill locked blocks out :
  NoDup (lockedIdsOf locked) →
  runLottery applications stage skill locked blocks = Normal (Some out) →
  (∀ a i, a ∈ ro_assignments out → i ∈ la_seatIds a →
     ro_seatAssignmentMap out !! i = Some a)
  ∧ (∀ ls i, ls ∈ locked → i ∈ ls_seatIds ls →
       ro_seatAssignmentMap out !! i = Some (lockedAssignment ls))
  ∧ (∀ i a, ro_seatAssignmentMap out !! i = Some a →
       a ∈ ro_assignments out ∧ i ∈ la_seatIds a).
Proof.
  intros Hnodup Hrun.
  destruct (runLottery_inv _ _ _ _ _ _ Hrun) as (Hassign & _ & Hnew & ->).
  assert (disjointLists (la_seatIds <$> ro_assignments out)) as Hdis.
  { rewrite Hnew, unshiftLocked_reverse, fmap_app, fmap_reverse.
    rewrite colouredAssignments_seatIds, <- list_fmap_compose.
    apply disjointLists_app.
    - apply NoDup_disjointLists.
      rewrite (join_Permutation _ _ (reverse_Permutation _)). exact Hnodup.
    - by eapply assignSeats_disjoint.
    - intros a b i Ha Hb Hi Hi'.
      rewrite elem_of_reverse in Ha.
      destruct (granted_not_locked _ _ _ _ _ i Hassign) as [Hnot _].
      + apply list_elem_of_join. by exists b.
      + apply Hnot. unfold lockedIdsOf. apply list_elem_of_join.
        exists a. split; [done | exact Ha]. }
  split_and!.
  - intros a i. by apply seatMapOf_lookup.
  - intros ls i Hls Hi. apply seatMapOf_lookup; [done | | done].
    rewrite Hnew, unshiftLocked_reverse. apply elem_of_app. left.
    apply elem_of_reverse. by apply list_elem_of_fmap_2.
  - intros i a. apply seatMapOf_sound.
Qed.

(** ** The locks *)

Lemma lockedIdsOf_filter (P : LockedSeat → Prop) `{!∀ x, Decision (P x)} locked :
  lockedIdsOf (filter P locked) `sublist_of` lockedIdsOf locked.
Proof.
  unfold lockedIdsOf. induction locked as [| ls locked IH]; [done |].
  rewrite filter_cons. case_decide; csimpl.
  - by apply sublist_app.
  - by apply sublist_inserts_l.
Qed.

Lemma lockedIdsOf_snoc locked ls :
  lockedIdsOf (locked ++ [ls]) = lockedIdsOf locked ++ ls_seatIds ls.
Proof.
  unfold lockedIdsOf. rewrite fmap_app, join_app. simpl. by rewrite app_nil_r.
Qed.

Lemma locksOk_noLocks : locksOk noLocks.
Proof.
  split; simpl.
  - constructor.
  - intros ls Hls. by apply elem_of_nil in Hls.
  - done.
Qed.

Lemma locksOk_filter (P : LockedSeat → Prop) `{!∀ x, Decision (P x)} st :
  locksOk st →
  locksOk {| lockedSeats := filter P (lockedSeats st);
             lockingState := lockingState st |}.
Proof.
  intros [Hdistinct Hparty Hplacing]. split; simpl.
  - eapply sublist_NoDup; [exact Hdistinct | apply lockedIdsOf_filter].
  - intros ls Hls. apply list_elem_of_filter in Hls as [_ Hls]. by apply Hparty.
  - intros lk Hlk. destruct (Hplacing lk Hlk) as (? & Hfree & ? & ?).
    split_and!; try done. intros i Hi Hin. apply (Hfree i Hi).
    eapply elem_of_sublist; [exact Hin | apply lockedIdsOf_filter].
Qed.

Lemma cancelLocking_locks st :
  locksOk st → lockedSeats (cancelLocking st) = lockedSeats st.
Proof.
  intros [_ Hparty Hplacing]. unfold cancelLocking. simpl.
  destruct (lockingState st) as [lk |] eqn:Hlk; [| done].
  destruct (0 <? length_Z (placedSeatIds lk)); [| done].
  destruct (Hplacing lk eq_refl) as (_ & Hfree & _).
  apply filter_all, Forall_forall. intros ls Hls Hin.
  apply elem_of_list_to_set in Hin. apply (Hfree _ Hin).
  unfold lockedIdsOf. apply list_elem_of_join. exists (ls_seatIds ls).
  split; [| by apply list_elem_of_fmap_2].
  destruct (Hparty ls Hls) as [Hhead _].
  destruct (ls_seatIds ls); simplify_eq/=. left.
Qed.

Lemma lockStep_ok st e : locksOk st → locksOk (lockStep st e).
Proof.
  intros Hok. destruct e as [customer | | seatId | customerId |]; simpl.
  - destruct Hok as [Hdistinct Hparty _]. split; simpl; [done | done |].
    intros lk [= <-]. simpl. split_and!.
    + constructor.
    + intros i Hi. by apply elem_of_nil in Hi.
    + unfold length_Z. simpl. lia.
    + by left.
  - pose proof (cancelLocking_locks st Hok) as Heq.
    destruct Hok as [Hdistinct Hparty _].
    split; [by rewrite Heq | by rewrite Heq | done].
  - unfold handleLockSeatClick.
    destruct (lockingState st) as [lk |] eqn:Hlk; [| done].
    destruct (decide (seatId ∈ _)) as [| Hfresh]; [done |].
    destruct (decide (seatId ∈ placedSeatIds lk)) as [| Hnew]; [done |].
    destruct Hok as [Hdistinct Hparty Hplacing].
    destruct (Hplacing lk Hlk) as (Hnd & Hfree & Hlen & Hrem).
    assert (seatId ∉ lockedIdsOf (lockedSeats st)) as Hfresh'.
    { intros Hin. apply Hfresh. by apply elem_of_list_to_set. }
    assert (NoDup (placedSeatIds lk ++ [seatId])) as Hnd'.
    { apply NoDup_app. split_and!; [done | | apply NoDup_singleton].
      intros i Hi ->%list_elem_of_singleton. done. }
    assert (∀ i, i ∈ placedSeatIds lk ++ [seatId] →
                 i ∉ lockedIdsOf (lockedSeats st)) as Hfree'.
    { intros i [Hi | ->%list_elem_of_singleton]%elem_of_app; [by apply Hfree | done]. }
    destruct (remainingSeats lk - 1 <=? 0) eqn:Hdone.
    + apply Z.leb_le in Hdone. split; simpl.
      * rewrite lockedIdsOf_snoc. simpl. apply NoDup_app. split_and!; [done | | done].
        intros i Hi Hi'. by apply (Hfree' i Hi').
      * intros ls [Hls | ->%list_elem_of_singleton]%elem_of_app; [by apply Hparty |].
        simpl. split.
        { unfold baseSeatOf. by destruct (placedSeatIds lk). }
        unfold length_Z in *. rewrite length_app. simpl.
        destruct Hrem as [Hnil | Hrem]; [rewrite Hnil in *; simpl in *; lia | lia].
      * done.
    + apply Z.leb_gt in Hdone. split; simpl; [done | done |].
      intros lk' [= <-]. simpl. split_and!; [done | done | | right; lia].
      unfold length_Z in *. rewrite length_app. simpl. lia.
  - by apply (locksOk_filter (fun ls => ls_customerId ls ≠ customerId)).
  - apply locksOk_noLocks.
Qed.

Lemma locksAfter_ok events : locksOk (locksAfter events).
Proof.
  unfold locksAfter. generalize locksOk_noLocks. generalize noLocks.
  induction events as [| e events IH]; intros st Hst; simpl; [done |].
  by apply IH, lockStep_ok.
Qed.

(** X27: whatever the events, no seat is locked twice: the seat ids of
    all the locks, taken together, are distinct. *)
Theorem locks_distinct_seats (events : list LockEvent) :
  NoDup (lockedIdsOf (lockedSeats (locksAfter events))).
Proof. apply (locks_distinct _ (locksAfter_ok events)). Qed.

(** X28: whatever the events, a lock holds as many seats as its customer
    asked for, one seat where the customer asked for less than one; its
    base seat is the first of them. *)
Theorem locks_whole_party (events : list LockEvent) (ls : LockedSeat) :
  ls ∈ lockedSeats (locksAfter events) →
  head (ls_seatIds ls) = Some (ls_seatId ls)
  ∧ length_Z (ls_seatIds ls) = Z.max 1 (ls_groupSize ls).
Proof. apply (locks_party _ (locksAfter_ok events)). Qed.

(** X29: cancelling never removes a lock: the seats placed so far are in
    no lock, so the filter of [cancelLocking] keeps every lock. *)
Theorem cancelLocking_keeps_locks (events : list LockEvent) :
  lockedSeats (cancelLocking (locksAfter events))
  = lockedSeats (locksAfter events)
  ∧ lockingState (cancelLocking (locksAfter events)) = None.
Proof. split; [apply cancelLocking_locks, locksAfter_ok | done]. Qed.

End HookProperties.

End Properties.

(** * Concrete runs *)

Module Witnesses.

Import Examples.

Lemma sqrt_floor_nonneg (q : Q) : (0 <= sqrt_floor q)%Q.
Proof.
  unfold sqrt_floor. rewrite <- (Zle_Qle 0). apply Z.sqrt_nonneg.
Qed.

Lemma assignSeats_degenerate_witness :
  ∃ r, assignSeats closedSeats twoApplicants config = Normal r
    ∧ assignments r = []
    ∧ unassigned r = ["a"; "b"]
    ∧ availableSeats (stats r) = 0
    ∧ totalPeopleAssigned (stats r) = 0
    ∧ averageScore (stats r) = 0%Q
    ∧ tier1Count (stats r) = 0
    ∧ tier2Count (stats r) = 0
    ∧ tier3Count (stats r) = 0
    ∧ tier2OverflowCount (stats r) = 0.
Proof.
  apply (assignSeats_degenerate closedSeats twoApplicants config).
  left. reflexivity.
Defined.

Lemma calculateSeatScore_premium_outranks_witness :
  (score (calculateSeatScore (seatAt "near" 1 0 0 false false)
            {| px := 0; py := 0 |} 50)
   < score (calculateSeatScore (seatAt "far" 50 9 9 true false)
              {| px := 0; py := 0 |} 50))%Q.
Proof.
  apply (proj2 (calculateSeatScore_premium_outranks (math := exampleMath)
                  sqrt_floor_nonneg));
    reflexivity.
Defined.

Lemma calculateScoreUpdates_bounds_witness :
  ∃ app, app ∈ twoApplicants
    ∧ app_id app = "a"
    ∧ if isInvitation app || isRelation app
      then (10 : Q) = pastScore app
      else (1 <= 10 <= 10)%Q.
Proof.
  apply (calculateScoreUpdates_bounds [] ["a"] twoApplicants
           {| su_applicationId := "a"; currentScore := 5; nextScore := 10;
              change := 10 - 5; su_seatQuality := Lose; su_lastResult := lose |}).
  vm_compute. left.
Defined.

(** C8 as stated fails: the update of an unseated priority applicant
    with pastScore 0 has nextScore 0, below 1. *)
Lemma calculateScoreUpdates_bounds_counterexample :
  ∃ u, u ∈ calculateScoreUpdates [] ["guest"] [guest]
    ∧ ¬ (1 <= nextScore u <= 10)%Q.
Proof.
  eexists. split; [left |]. simpl. intros [H _]. by apply H.
Defined.

Lemma exampleRun_Normal : exampleRun = Normal exampleResult.
Proof. vm_compute. reflexivity. Defined.

Lemma assignSeats_no_double_booking_witness :
  "s3" ∉ seatIds secondAssignment.
Proof.
  apply (assignSeats_no_double_booking openSeats sixApplicants
           config exampleResult 0 1 firstAssignment secondAssignment "s3").
  - exact exampleRun_Normal.
  - discriminate.
  - reflexivity.
  - reflexivity.
  - apply list_elem_of_here.
Defined.

Lemma assignSeats_whole_party_witness :
  (∀ app, app ∈ sixApplicants →
     (∃ a, a ∈ assignments exampleResult
        ∧ applicationId a = app_id app
        ∧ length_Z (seatIds a) = groupSize app)
     ∨ app_id app ∈ unassigned exampleResult)
  ∧ (∀ a, a ∈ assignments exampleResult →
       ∃ app, app ∈ sixApplicants
         ∧ applicationId a = app_id app
         ∧ length_Z (seatIds a) = groupSize app).
Proof.
  apply (assignSeats_whole_party openSeats sixApplicants config
           exampleResult).
  exact exampleRun_Normal.
Defined.

Lemma assignSeats_tier_order_witness :
  (exampleResult = emptyResult openSeats sixApplicants
   ∨ ∃ attempts st,
       runAttempts
         (scoreSeats (stagePosition config)
            (filter (fun s => isDisabled s = false) openSeats))
         attempts initialState = Normal st
       ∧ attempts ≡ₚ (fun app => (app, tierOf app)) <$> sixApplicants
       ∧ (∀ (i j : nat) e1 e2,
            attempts !! i = Some e1 → attempts !! j = Some e2 →
            (tierRank e1.2 < tierRank e2.2)%nat → (i < j)%nat)
       ∧ assignments exampleResult = assignSeatQuality (st_assignments st)
       ∧ unassigned exampleResult = st_unassigned st
       ∧ tier2OverflowCount (stats exampleResult) = st_tier2OverflowCount st)
  ∧ ∃ r asg,
      assignSeats oneSeat [rescued; invited] config = Normal r
      ∧ assignments r = [asg]
      ∧ applicationId asg = "invited"
      ∧ seatIds asg = ["only"]
      ∧ tier asg = Tier1
      ∧ unassigned r = ["rescued"]
      ∧ tier2OverflowCount (stats r) = 1.
Proof.
  split.
  - apply (proj1 assignSeats_tier_order
             openSeats sixApplicants config exampleResult).
    exact exampleRun_Normal.
  - apply (proj2 assignSeats_tier_order
             oneSeat [rescued; invited] config
             (seatAt "only" 10 0 1 false false) invited rescued);
      try reflexivity.
    right. reflexivity.
Defined.

(** C6 as stated fails: of the seats X and Y, both at col 0, and Z at
    col 1 of the same row, a party of 2 gets Y and Z, of mean 45, although
    X and Z sit side by side as well and have the mean 85; Y and Z are
    the only candidate, in any arithmetic. *)
Lemma findAndAllocateSeats_best_counterexample :
  findAndAllocateSeats 2 twoAtOnePlace ∅ None = Normal (Some [seatY; seatZ])
  ∧ (mean_score [seatY; seatZ] == 45)%Q
  ∧ length_Z [seatX; seatZ] = 2
  ∧ (∀ s : SeatWithScore, s ∈ [seatX; seatZ] → s ∈ availableOf twoAtOnePlace ∅)
  ∧ sideBySide [seatX; seatZ]
  ∧ (mean_score [seatX; seatZ] == 85)%Q
  ∧ (∀ ar : Arithmetic,
       findAndAllocateSeatsIn ar 2 twoAtOnePlace ∅ None
       = Normal (Some [seatY; seatZ])).
Proof.
  split_and!; try reflexivity.
  - intros s Hs. apply elem_of_cons in Hs as [-> | Hs]; [left |].
    apply list_elem_of_singleton in Hs as ->. right. right. left.
  - split.
    + exists "default_0"%string. intros s Hs.
      apply elem_of_cons in Hs as [-> | Hs]; [reflexivity |].
      apply list_elem_of_singleton in Hs as ->. reflexivity.
    + exists 0. reflexivity.
Defined.

(** A single attendee, with the single attendee of s3 seated: the seats
    s4 and s5 both count 50, s4 with the bonus of 10, and s4 comes first
    in the enumeration. *)
Lemma findAndAllocateSeats_best_witness :
  seats <$> buildAllChunks (availableOf scenarioA {["s3"]})
  = [[scoredSeatAt "s1" 1 10; scoredSeatAt "s2" 2 20];
     [scoredSeatAt "s4" 4 40; scoredSeatAt "s5" 5 50]]
  ∧ (mean_score [scoredSeatAt "s4" 4 40] == 40)%Q
  ∧ (candidateScore exactArithmetic 1 scenarioA {["s3"]} (Some {["s3"]})
       [scoredSeatAt "s4" 4 40] == 50)%Q
  ∧ (candidateScore exactArithmetic 1 scenarioA {["s3"]} (Some {["s3"]})
       [scoredSeatAt "s5" 5 50] == 50)%Q
  ∧ (∃ k : nat,
       firstBest (candidateScore exactArithmetic 1 scenarioA {["s3"]} (Some {["s3"]}))
         (candidateSeats 1 (availableOf scenarioA {["s3"]})) k
         [scoredSeatAt "s4" 4 40])
  ∧ (∀ w, w ∈ candidateSeats 1 (availableOf scenarioA {["s3"]}) →
       length_Z w = 1
       ∧ (∀ s : SeatWithScore, s ∈ w → s ∈ availableOf scenarioA {["s3"]})
       ∧ sideBySide w)
  ∧ distinctPlaces (availableOf scenarioA {["s3"]})
  ∧ [scoredSeatAt "s5" 5 50] ∈ candidateSeats 1 (availableOf scenarioA {["s3"]})
  ∧ (candidateScore exactArithmetic 1 scenarioA {["s3"]} (Some {["s3"]})
       [scoredSeatAt "s5" 5 50]
     <= candidateScore exactArithmetic 1 scenarioA {["s3"]} (Some {["s3"]})
          [scoredSeatAt "s4" 4 40])%Q.
Proof.
  split; [by vm_compute |]. split; [by vm_compute |].
  split; [by vm_compute |]. split; [by vm_compute |].
  assert (distinctPlaces (availableOf scenarioA {["s3"]})) as Hplaces
    by (apply (bool_decide_unpack _); vm_compute; exact I).
  destruct (proj1 findAndAllocateSeats_best exactArithmetic 1 scenarioA {["s3"]}
              (Some {["s3"]}) [scoredSeatAt "s4" 4 40])
    as (Hfirst & Hsound & Hall); [vm_compute; reflexivity |].
  split; [exact Hfirst |]. split; [exact Hsound |]. split; [exact Hplaces |].
  apply (Hall Hplaces [scoredSeatAt "s5" 5 50]).
  - reflexivity.
  - intros s Hs. apply list_elem_of_singleton in Hs as ->.
    right. right. right. left.
  - split.
    + exists "A_0"%string. intros s Hs.
      apply list_elem_of_singleton in Hs as ->. reflexivity.
    + exists 5. reflexivity.
Defined.

(** C7 as stated fails: the seat without coordinates is put in one chunk
    of length 2 with the seat at row 0, col 1 of the same default block. *)
Lemma buildAllChunks_runs_counterexample :
  row bare = None ∧ col bare = None
  ∧ seats <$> buildAllChunks [bare; beside] = [[bare; beside]].
Proof. split_and!; reflexivity. Defined.

Lemma buildAllChunks_runs_witness :
  seats bareChunk ≠ []
  ∧ (∀ s : SeatWithScore, s ∈ seats bareChunk → s ∈ [bare; beside])
  ∧ (∃ key, ∀ s : SeatWithScore, s ∈ seats bareChunk → groupKey s = key)
  ∧ (∀ (i : nat) (s : SeatWithScore),
       seats bareChunk !! i = Some s →
       default 0 (col s) = startCol bareChunk + Z.of_nat i)
  ∧ (∀ (i j : nat) (s t : SeatWithScore),
       seats bareChunk !! i = Some s → seats bareChunk !! j = Some t →
       col s = None → col t = None → i = j).
Proof.
  apply (buildAllChunks_runs [bare; beside] bareChunk).
  vm_compute. apply list_elem_of_here.
Defined.


(** ** Instances of the further properties *)

Lemma half_unit : unitDraws (default Math_random (randomFn config)).
Proof. intros k. split; [discriminate | reflexivity]. Qed.

Lemma getSubChunks_windows_witness :
  ∃ subs,
    getSubChunks bareChunk 1 = Normal subs
    ∧ length_Z subs = Z.max 0 (length_Z (seats bareChunk) - 1 + 1)
    ∧ ∀ (i : nat) c, subs !! i = Some c →
        seats c = take (Z.to_nat 1) (drop i (seats bareChunk))
        ∧ length_Z (seats c) = 1
        ∧ avgScore c = mean_score (seats c).
Proof. apply (getSubChunks_windows bareChunk 1). lia. Defined.

Lemma findAndAllocateSeats_side_by_side_witness :
  length_Z (drop 2 scenarioA) = 3
  ∧ (∃ key, ∀ s : SeatWithScore, s ∈ drop 2 scenarioA → groupKey s = key)
  ∧ (∃ c, (fun s : SeatWithScore => col0 s) <$> drop 2 scenarioA = seqZ c 3)
  ∧ (∀ s : SeatWithScore, s ∈ drop 2 scenarioA →
       s ∈ scenarioA ∧ seat_id s ∉ (∅ : gset string)).
Proof.
  apply (findAndAllocateSeats_side_by_side 3 scenarioA ∅ None (drop 2 scenarioA)).
  vm_compute. reflexivity.
Defined.

Lemma findAndAllocateSeats_null_iff_witness :
  findAndAllocateSeats 6 scenarioA ∅ None = Normal None
  ↔ ∀ chunk, chunk ∈ buildAllChunks (availableOf scenarioA ∅) →
      length_Z (seats chunk) < 6.
Proof. apply (findAndAllocateSeats_null_iff 6 scenarioA ∅ None). lia. Defined.

Lemma findAndAllocateSeats_bad_size_witness :
  (availableOf scenarioA ∅ ≠ [] →
   findAndAllocateSeats 0 scenarioA ∅ None = TypeError)
  ∧ (availableOf scenarioA ∅ = [] →
     findAndAllocateSeats 0 scenarioA ∅ None = Normal None).
Proof. apply (findAndAllocateSeats_bad_size 0 scenarioA ∅ None). lia. Defined.


Lemma assignSeats_returns_witness :
  ∃ r, assignSeats openSeats sixApplicants config = Normal r.
Proof.
  apply (assignSeats_returns openSeats sixApplicants config).
  - intros app Happ.
    repeat (apply elem_of_cons in Happ as [-> | Happ]; [simpl; lia |]).
    by apply elem_of_nil in Happ.
  - exact half_unit.
Defined.

Lemma assignSeats_bad_sizes_witness :
  assignSeats openSeats emptyParties config = TypeError.
Proof.
  apply (assignSeats_bad_sizes openSeats emptyParties config).
  - vm_compute. discriminate.
  - discriminate.
  - intros app Happ.
    repeat (apply elem_of_cons in Happ as [-> | Happ]; [simpl; lia |]).
    by apply elem_of_nil in Happ.
  - exact half_unit.
Defined.

Lemma assignSeats_open_seats_witness :
  grantedIds (assignments exampleResult)
  ⊆+ seat_id <$> filter (fun s => isDisabled s = false) openSeats
  ∧ (∀ i, i ∈ grantedIds (assignments exampleResult) →
       ∃ s, s ∈ openSeats ∧ seat_id s = i ∧ isDisabled s = false)
  ∧ (NoDup (seat_id <$> filter (fun s => isDisabled s = false) openSeats) →
     NoDup (grantedIds (assignments exampleResult))).
Proof.
  apply (assignSeats_open_seats openSeats sixApplicants config exampleResult).
  exact exampleRun_Normal.
Defined.

Lemma assignSeats_capacity_witness :
  totalPeopleAssigned (stats exampleResult)
  = length_Z (grantedIds (assignments exampleResult))
  ∧ totalPeopleAssigned (stats exampleResult) ≤ availableSeats (stats exampleResult)
  ∧ availableSeats (stats exampleResult) ≤ totalSeats (stats exampleResult).
Proof.
  apply (assignSeats_capacity openSeats sixApplicants config exampleResult).
  exact exampleRun_Normal.
Defined.

Lemma assignSeats_everyone_once_witness :
  (applicationId <$> assignments exampleResult) ++ unassigned exampleResult
  ≡ₚ app_id <$> sixApplicants
  ∧ length_Z (assignments exampleResult) + length_Z (unassigned exampleResult)
    = length_Z sixApplicants.
Proof.
  apply (assignSeats_everyone_once openSeats sixApplicants config exampleResult).
  exact exampleRun_Normal.
Defined.

Lemma assignSeats_counts_witness :
  tier1Count (stats exampleResult) + tier2Count (stats exampleResult)
  + tier3Count (stats exampleResult)
  = length_Z (assignments exampleResult)
  ∧ length_Z (assignments exampleResult) + length_Z (unassigned exampleResult)
    = totalApplications (stats exampleResult)
  ∧ tier1Count (stats exampleResult) ≤ length_Z (inTier Tier1 sixApplicants)
  ∧ tier2Count (stats exampleResult) ≤ length_Z (inTier Tier2 sixApplicants)
  ∧ tier3Count (stats exampleResult) ≤ length_Z (inTier Tier3 sixApplicants)
  ∧ (filter (fun s => isDisabled s = false) openSeats ≠ [] →
     tier2Count (stats exampleResult) + tier2OverflowCount (stats exampleResult)
     = length_Z (inTier Tier2 sixApplicants)).
Proof.
  apply (assignSeats_counts openSeats sixApplicants config exampleResult).
  exact exampleRun_Normal.
Defined.

Lemma assignSeats_tier_field_witness :
  ∃ app, app ∈ sixApplicants
    ∧ applicationId secondAssignment = app_id app
    ∧ tier secondAssignment = tierOf app.
Proof.
  apply (assignSeats_tier_field openSeats sixApplicants config exampleResult
           secondAssignment).
  - exact exampleRun_Normal.
  - right. left.
Defined.

Lemma assignSeats_labels_witness :
  (tier secondAssignment = Tier1 → seatQuality secondAssignment = None)
  ∧ (tier secondAssignment ≠ Tier1 → is_Some (seatQuality secondAssignment)).
Proof.
  apply (assignSeats_labels openSeats sixApplicants config exampleResult
           secondAssignment).
  - exact exampleRun_Normal.
  - right. left.
Defined.

Lemma assignSeatQuality_monotone_witness :
  ∃ qa qb,
    seatQuality (setQuality top highRated) = Some qa
    ∧ seatQuality (setQuality normal lowRated) = Some qb
    ∧ (qualityRank qa ≤ qualityRank qb)%nat.
Proof.
  apply (assignSeatQuality_monotone [lowRated; highRated] 1 0
           (setQuality top highRated) (setQuality normal lowRated)).
  - vm_compute. reflexivity.
  - vm_compute. reflexivity.
  - discriminate.
  - discriminate.
  - reflexivity.
Defined.

Lemma assignSeatQuality_top_witness :
  ∃ b, b ∈ assignSeatQuality [lowRated; highRated]
    ∧ tier b ≠ Tier1
    ∧ seatQuality b = Some top
    ∧ ∀ c, c ∈ assignSeatQuality [lowRated; highRated] → tier c ≠ Tier1 →
        (totalScore c <= totalScore b)%Q.
Proof.
  apply (assignSeatQuality_top [lowRated; highRated] (setQuality normal lowRated)).
  - vm_compute. left.
  - discriminate.
Defined.

Lemma assignSeats_singles_fill_witness :
  totalPeopleAssigned (stats oneSeatResult)
  = length_Z (filter (fun s => isDisabled s = false) oneSeat)
  ∧ grantedIds (assignments oneSeatResult)
    ≡ₚ seat_id <$> filter (fun s => isDisabled s = false) oneSeat.
Proof.
  apply (assignSeats_singles_fill oneSeat [rescued; invited] config oneSeatResult).
  - vm_compute. reflexivity.
  - intros app Happ.
    repeat (apply elem_of_cons in Happ as [-> | Happ]; [reflexivity |]).
    by apply elem_of_nil in Happ.
  - apply (bool_decide_unpack _). vm_compute. exact I.
  - discriminate.
Defined.

Lemma shuffle_permutes_witness :
  ∃ shuffled,
    shuffle half 0 sixApplicants
    = (Some <$> shuffled, (0 + Nat.pred (length sixApplicants))%nat)
    ∧ shuffled ≡ₚ sixApplicants.
Proof. apply (shuffle_permutes half 0 sixApplicants). exact half_unit. Defined.

Lemma hybridSelection_permutes_witness :
  ∃ selected,
    (hybridSelection sixApplicants (7 # 10) half 0).1 = Some <$> selected
    ∧ selected ≡ₚ sixApplicants
    ∧ (0 + length sixApplicants
       ≤ (hybridSelection sixApplicants (7 # 10) half 0).2
       ≤ 0 + 2 * length sixApplicants)%nat.
Proof.
  apply (hybridSelection_permutes sixApplicants (7 # 10) half 0). exact half_unit.
Defined.

Lemma hybridSelection_skill_only_witness :
  ∃ selected,
    hybridSelection sixApplicants 1 half 0
    = (Some <$> selected, (0 + length sixApplicants)%nat)
    ∧ selected ≡ₚ sixApplicants
    ∧ StronglySorted (fun a b => (pastScore b <= pastScore a)%Q) selected
    ∧ ∀ v, filter (fun a => Qeq_bool (pastScore a) v = true) selected
           = filter (fun a => Qeq_bool (pastScore a) v = true) sixApplicants.
Proof.
  apply (hybridSelection_skill_only sixApplicants 1 half 0).
  intros n. reflexivity.
Defined.

Lemma assignSeats_rescue_order_witness :
  ∃ attempts st rescue,
    runOf openSeats sixApplicants config exampleResult attempts st
    ∧ attemptsIn Tier2 attempts = tagged Tier2 rescue
    ∧ rescue ≡ₚ inTier Tier2 sixApplicants
    ∧ StronglySorted (fun a b => (pastScore b <= pastScore a)%Q) rescue
    ∧ ∀ v, filter (fun a => Qeq_bool (pastScore a) v = true) rescue
           = filter (fun a => Qeq_bool (pastScore a) v = true)
               (inTier Tier2 sixApplicants).
Proof.
  apply (assignSeats_rescue_order openSeats sixApplicants config exampleResult).
  - exact exampleRun_Normal.
  - vm_compute. discriminate.
  - discriminate.
Defined.

Lemma assignSeats_score_updates_witness :
  ∃ seated unseated,
    calculateScoreUpdates (assignments exampleResult) (unassigned exampleResult)
      sixApplicants
    = seated ++ unseated
    ∧ Forall2 (seatedSpec sixApplicants) (assignments exampleResult) seated
    ∧ Forall2 (unseatedSpec sixApplicants) (unassigned exampleResult) unseated
    ∧ su_applicationId <$> (seated ++ unseated) ≡ₚ app_id <$> sixApplicants.
Proof.
  apply (assignSeats_score_updates openSeats sixApplicants config exampleResult).
  exact exampleRun_Normal.
Defined.

Lemma scoreSeats_nearer_better_witness :
  (score farSeat <= score nearSeat)%Q ∧ (0 <= score farSeat)%Q.
Proof.
  apply (scoreSeats_nearer_better (math := exampleMath) (stagePosition config)
           (filter (fun s => isDisabled s = false) openSeats) nearSeat farSeat).
  - exact sqrt_floor_nonneg.
  - vm_compute. left.
  - vm_compute. right. right. right. left.
  - reflexivity.
  - vm_compute. discriminate.
Defined.

Lemma hookOutcome_Normal :
  runLottery members {| px := 0; py := 0 |} (7 # 10) [staffLock] [frontBlock]
  = Normal (Some hookOutcome).
Proof. vm_compute. reflexivity. Qed.

Lemma runLottery_skips_locked_witness :
  ("a3" ∉ lockedIdsOf [staffLock])
  ∧ (∃ block seat, block ∈ [frontBlock] ∧ seat ∈ block_seats block
       ∧ vs_id seat = "a3" ∧ vs_isDisabled seat = false).
Proof.
  apply (runLottery_skips_locked members {| px := 0; py := 0 |} (7 # 10)
           [staffLock] [frontBlock] hookOutcome "a3").
  - exact hookOutcome_Normal.
  - vm_compute. left.
Defined.

Lemma runLottery_seat_map_witness :
  (∀ a i, a ∈ ro_assignments hookOutcome → i ∈ la_seatIds a →
     ro_seatAssignmentMap hookOutcome !! i = Some a)
  ∧ (∀ ls i, ls ∈ [staffLock] → i ∈ ls_seatIds ls →
       ro_seatAssignmentMap hookOutcome !! i = Some (lockedAssignment ls))
  ∧ (∀ i a, ro_seatAssignmentMap hookOutcome !! i = Some a →
       a ∈ ro_assignments hookOutcome ∧ i ∈ la_seatIds a).
Proof.
  apply (runLottery_seat_map members {| px := 0; py := 0 |} (7 # 10)
           [staffLock] [frontBlock] hookOutcome).
  - apply (bool_decide_unpack _). vm_compute. exact I.
  - exact hookOutcome_Normal.
Defined.

Lemma locks_whole_party_witness :
  head (ls_seatIds staffLock) = Some (ls_seatId staffLock)
  ∧ length_Z (ls_seatIds staffLock) = Z.max 1 (ls_groupSize staffLock).
Proof.
  apply (locks_whole_party lockEvents staffLock).
  vm_compute. left.
Defined.


Lemma findAndAllocateSeats_succeeds_iff_witness :
  (∃ allocated, findAndAllocateSeats 3 scenarioA ∅ None = Normal (Some allocated))
  ↔ ∃ run : list SeatWithScore,
      length_Z run = 3
      ∧ (∀ s : SeatWithScore, s ∈ run → s ∈ availableOf scenarioA ∅)
      ∧ sideBySide run.
Proof.
  apply (findAndAllocateSeats_succeeds_iff 3 scenarioA ∅ None).
  - lia.
  - apply (bool_decide_unpack _). vm_compute. exact I.
Defined.

End Witnesses.
